(** * Cylinder-pressure reconstruction (gaspressures.c)

    A shallow embedding of the routines of [gaspressures.c]:

      populate_pressure_information -> calc_pressure_time
                                    -> fill_missing_tank_pressures
                                         -> fill_missing_segment_pressures
                                         -> get_pr_interpolate_data

    C [int]s are mathematical integers with the 32-bit two's complement
    wrap-around of every arithmetic operation written out; C [double]s are
    rationals rounded to 53 significant bits after every operation; the
    linked lists of [pr_track_t] are Rocq lists; arrays are lists read and
    written by index; the places where the C code would leave defined
    behaviour (an index outside an array, a NULL [current], a division by
    zero) make the embedding return [None]. *)

From Stdlib Require Import ZArith QArith Qround Qabs Qpower Lia Lqa List Bool.
From Stdlib Require Import SpecFloat.
From stdpp Require Import base option list.

Open Scope Z_scope.

(** ** C [int] arithmetic *)

Module CInt.

Definition INT_MIN : Z := - 2 ^ 31.
Definition INT_MAX : Z := 2 ^ 31 - 1.

(** Reduction of an integer into the range of a 32-bit [int]. *)
Definition wrap (z : Z) : Z := (z + 2 ^ 31) mod 2 ^ 32 - 2 ^ 31.

Definition in_range (z : Z) : Prop := INT_MIN <= z <= INT_MAX.

Definition add (a b : Z) : Z := wrap (a + b).
Definition sub (a b : Z) : Z := wrap (a - b).
Definition mul (a b : Z) : Z := wrap (a * b).
(** [/] on [int] truncates towards zero. *)
Definition div (a b : Z) : Z := wrap (Z.quot a b).

End CInt.

(** ** C [double] arithmetic

    A finite [double] is a rational number.  Every operation computes the
    exact rational result and rounds it to the nearest number with a 53-bit
    significand, ties to the even significand.  The exponent range is left
    out: the doubles of this file are made from 32-bit integers by at most
    three operations, far from overflow and underflow.  The one operation
    that can leave the finite doubles, a division by zero, returns [None]. *)

Module CDouble.

Local Open Scope Q_scope.

Definition double : Type := Q.

(** Round to the nearest integer, ties to even. *)
Definition round_even (q : Q) : Z :=
  let f := Qfloor q in
  match Qcompare (q - inject_Z f) (1 # 2) with
  | Lt => f
  | Gt => (f + 1)%Z
  | Eq => if Z.even f then f else (f + 1)%Z
  end.

(** [ilog2 q] is the exponent [e] with [2^e <= |q| < 2^(e+1)], [q] not 0. *)
Definition ilog2 (q : Q) : Z :=
  let e := (Z.log2 (Z.abs (Qnum q)) - Z.log2 (Zpos (Qden q)))%Z in
  if Qle_bool (2 ^ e) (Qabs q) then e else (e - 1)%Z.

(** Rounding of an exact result to a double. *)
Definition fl (q : Q) : double :=
  if Qeq_bool q 0 then 0
  else let s := (52 - ilog2 q)%Z in
       Qred (inject_Z (round_even (q * 2 ^ s)) * 2 ^ (- s)).

Definition of_int (z : Z) : double := inject_Z z.

Definition add (x y : double) : double := fl (x + y).
Definition sub (x y : double) : double := fl (x - y).
Definition mul (x y : double) : double := fl (x * y).
Definition div (x y : double) : option double :=
  if Qeq_bool y 0 then None else Some (fl (x / y)).

(** [rint] in the default rounding mode: to nearest, ties to even. *)
Definition rint (x : double) : double := inject_Z (round_even x).

(** Truncation towards zero. *)
Definition trunc (q : Q) : Z := Z.quot (Qnum q) (Zpos (Qden q)).

(** Conversion of a double to [int]: the fractional part is discarded.
    A value outside the range of [int] is not defined by C; the embedding
    returns [INT_MIN], as the x86 conversion instruction does. *)
Definition to_int (x : double) : Z :=
  let t := trunc x in
  if ((CInt.INT_MIN <=? t) && (t <=? CInt.INT_MAX))%Z then t else CInt.INT_MIN.

End CDouble.

(** The same expressions with the operations of [SpecFloat], the Standard
    Library's specification of IEEE 754 arithmetic, at the format of a
    [double].  They are what the arithmetic above is checked against on
    sample values. *)

Module Binary64.

Definition prec : Z := 53.
Definition emax : Z := 1024.

Definition of_int (z : Z) : spec_float := binary_normalize prec emax z 0 false.

Definition to_Q (x : spec_float) : option Q :=
  match x with
  | S754_zero _ => Some 0%Q
  | S754_finite s m e =>
      Some (Qred ((if s then - (1) else 1) * inject_Z (Zpos m) * 2 ^ e)%Q)
  | _ => None
  end.

(** [start - (start - end) * (double)pt / pt_sum] *)
Definition dole (start end_ pt pt_sum : Z) : option Q :=
  to_Q (SFsub prec emax (of_int start)
          (SFdiv prec emax (SFmul prec emax (of_int (start - end_)) (of_int pt))
                 (of_int pt_sum))).

(** [start + (end - start) / (double)pressure_time * acc_pressure_time] *)
Definition interpolate (start end_ pressure_time acc_pressure_time : Z) : option Q :=
  to_Q (SFadd prec emax (of_int start)
          (SFmul prec emax (SFdiv prec emax (of_int (end_ - start)) (of_int pressure_time))
                 (of_int acc_pressure_time))).

End Binary64.

(** ** Data model *)

(** What the headers that are not part of the sources supply: the size of
    the cylinder table and its diluent slot (dive.h), the depth below which
    no gas is counted, and the depth model. *)
Class Headers := {
  dive : Type;
  MAX_CYLINDERS : nat;
  DILUENT_CYLINDER : Z;
  SURFACE_THRESHOLD : Z;
  depth_to_mbar : Z -> dive -> Z
}.

(** Modelled from the spec: [struct plot_data] is declared in profile.h,
    which is not part of the sources.  The fields are those that
    gaspressures.c reads and writes; the two-element arrays [pressure] and
    [diluentpressure] hold the reported sensor value, at index [SENSOR_PR],
    and the interpolated value, at index [INTERPOLATED_PR].  The macros
    [SENSOR_PRESSURE] and [DILUENT_PRESSURE] read the reported values. *)
Record plot_data := mk_plot_data {
  cylinderindex : Z;
  sec : Z;
  pressure : Z * Z;
  diluentpressure : Z * Z;
  depth : Z;
  pressure_time : Z
}.

Definition SENSOR_PRESSURE (entry : plot_data) : Z := fst (pressure entry).
Definition INTERPOLATED_PRESSURE (entry : plot_data) : Z := snd (pressure entry).
Definition DILUENT_PRESSURE (entry : plot_data) : Z := fst (diluentpressure entry).
Definition INTERPOLATED_DILUENT_PRESSURE (entry : plot_data) : Z :=
  snd (diluentpressure entry).

(** The two slots of one tracked quantity. *)
Inductive pr_slot := SENSOR_PR | INTERPOLATED_PR.

Definition set_slot (slot : pr_slot) (v : Z) (p : Z * Z) : Z * Z :=
  match slot with
  | SENSOR_PR => (v, snd p)
  | INTERPOLATED_PR => (fst p, v)
  end.

Definition set_pressure (slot : pr_slot) (v : Z) (e : plot_data) : plot_data :=
  mk_plot_data (cylinderindex e) (sec e) (set_slot slot v (pressure e))
               (diluentpressure e) (depth e) (pressure_time e).

Definition set_diluentpressure (slot : pr_slot) (v : Z) (e : plot_data) : plot_data :=
  mk_plot_data (cylinderindex e) (sec e) (pressure e)
               (set_slot slot v (diluentpressure e)) (depth e) (pressure_time e).

Definition set_pressure_time (v : Z) (e : plot_data) : plot_data :=
  mk_plot_data (cylinderindex e) (sec e) (pressure e) (diluentpressure e)
               (depth e) v.

(** [struct plot_info]: the array [entry] of [nr] elements. *)
Abbreviation plot_info := (list plot_data).

(** Modelled from the spec: [pr_track_t] is declared in gaspressures.h,
    which is not part of the sources.  It is one segment, with the fields
    that [pr_track_alloc] initialises; the [next] pointer is the tail of the
    list the segment is an element of. *)
Module pr_track.
Record t := mk {
  start : Z;
  end_ : Z;
  t_start : Z;
  t_end : Z;
  pressure_time : Z
}.
Definition set_start (v : Z) (s : t) : t :=
  mk v (end_ s) (t_start s) (t_end s) (pressure_time s).
Definition set_end (v : Z) (s : t) : t :=
  mk (start s) v (t_start s) (t_end s) (pressure_time s).
Definition set_t_end (v : Z) (s : t) : t :=
  mk (start s) (end_ s) (t_start s) v (pressure_time s).
Definition set_pressure_time (v : Z) (s : t) : t :=
  mk (start s) (end_ s) (t_start s) (t_end s) v.
End pr_track.

(** Modelled from the spec: [pr_interpolate_t], declared in gaspressures.h
    as well, with the fields that [get_pr_interpolate_data] fills. *)
Module pr_interpolate.
Record t := mk {
  start : Z;
  end_ : Z;
  pressure_time : Z;
  acc_pressure_time : Z
}.
End pr_interpolate.

(** ** The segment lists *)

Definition pr_track_alloc (start t_start : Z) : pr_track.t :=
  pr_track.mk start 0 t_start t_start 0.

Fixpoint list_last (chain : list pr_track.t) : option pr_track.t :=
  match chain with
  | [] => None
  | tail :: [] => Some tail
  | _ :: next => list_last next
  end.

Fixpoint list_add (chain : list pr_track.t) (element : pr_track.t) : list pr_track.t :=
  match chain with
  | [] => [element]
  | tail :: next => tail :: list_add next element
  end.

(** ** fill_missing_segment_pressures *)

(** The pressure at the end of a segment: [pressure = start], and
    [pressure -= (start - end) * (double)pt / pt_sum] when [pt_sum] is not
    zero.  The compound assignment computes in [double] and converts the
    difference back to [int]. *)
Definition dole_pressure (start end_ pt pt_sum : Z) : option Z :=
  if pt_sum =? 0 then Some start
  else
    q ← CDouble.div (CDouble.mul (CDouble.of_int (CInt.sub start end_))
                                 (CDouble.of_int pt))
                    (CDouble.of_int pt_sum);
    Some (CDouble.to_int (CDouble.sub (CDouble.of_int start) q)).

(** The first inner loop: from [tmp], sum the pressure-times up to the first
    segment with an end pressure, or to the last segment.  The result is
    [pt_sum], [end] and the number of [tmp = tmp->next] steps taken. *)
Fixpoint scan_run (start pt_sum : Z) (tmp : pr_track.t) (next : list pr_track.t)
  : Z * Z * nat :=
  let pt_sum := CInt.add pt_sum (pr_track.pressure_time tmp) in
  let end_ := pr_track.end_ tmp in
  if negb (end_ =? 0) then (pt_sum, end_, O)
  else
    let end_ := start in
    match next with
    | [] => (pt_sum, end_, O)
    | tmp' :: next' =>
        let '(pt_sum', end', steps) := scan_run start pt_sum tmp' next' in
        (pt_sum', end', S steps)
    end.

(** The second inner loop: dole out the pressures from [cur] to [tmp], which
    is [steps] segments further.  The result is the segments written and the
    rest of the list, [tmp->next]. *)
Fixpoint dole_run (start end_ pt_sum pt : Z) (cur : pr_track.t) (steps : nat)
    (next : list pr_track.t) : option (list pr_track.t * list pr_track.t) :=
  let pt := CInt.add pt (pr_track.pressure_time cur) in
  pressure ← dole_pressure start end_ pt pt_sum;
  let cur := pr_track.set_end pressure cur in
  match steps, next with
  | O, _ => Some ([cur], next)
  | S steps', cur' :: next' =>
      '(done, rest) ← dole_run start end_ pt_sum pt
                         (pr_track.set_start pressure cur') steps' next';
      Some (cur :: done, rest)
  | S _, [] => None
  end.

(** The outer loop, one set of segments per round.  [fuel] bounds the number
    of rounds. *)
Fixpoint fill_segments (fuel : nat) (chain : list pr_track.t)
  : option (list pr_track.t) :=
  match chain with
  | [] => Some []
  | head :: next =>
      match fuel with
      | O => None
      | S fuel' =>
          let start := pr_track.start head in
          let '(pt_sum, end_, steps) := scan_run start 0 head next in
          let start := if start =? 0 then end_ else start in
          (* list->start = start; tmp->end = end; *)
          match alter (pr_track.set_end end_) steps
                      (pr_track.set_start start head :: next) with
          | [] => None
          | head' :: next' =>
              '(done, rest) ← dole_run start end_ pt_sum 0 head' steps next';
              rest' ← fill_segments fuel' rest;
              Some (done ++ rest')
          end
      end
  end.

Definition fill_missing_segment_pressures (chain : list pr_track.t)
  : option (list pr_track.t) :=
  fill_segments (length chain) chain.

(** ** get_pr_interpolate_data *)

Definition tracked_pressure (diluent_flag : bool) (entry : plot_data) : Z :=
  if diluent_flag then DILUENT_PRESSURE entry else SENSOR_PRESSURE entry.

(** The loop over [pi->entry], from index [i] on. *)
Fixpoint interpolate_loop (segment : pr_track.t) (cur : nat) (diluent_flag : bool)
    (entries : list plot_data) (i : nat) (interpolate : pr_interpolate.t)
  : pr_interpolate.t :=
  match entries with
  | [] => interpolate
  | entry :: entries' =>
      let 'pr_interpolate.mk istart iend ipt iacc := interpolate in
      let pressure := tracked_pressure diluent_flag entry in
      let ept := pressure_time entry in
      if sec entry <? pr_track.t_start segment then
        interpolate_loop segment cur diluent_flag entries' (S i) interpolate
      else if pr_track.t_end segment <=? sec entry then
        pr_interpolate.mk istart iend (CInt.add ipt ept) iacc
      else if sec entry =? pr_track.t_start segment then
        interpolate_loop segment cur diluent_flag entries' (S i)
          (pr_interpolate.mk (if negb (pressure =? 0) then pressure else istart)
                             iend 0 0)
      else if (i <? cur)%nat then
        interpolate_loop segment cur diluent_flag entries' (S i)
          (if negb (pressure =? 0)
           then pr_interpolate.mk pressure iend 0 0
           else pr_interpolate.mk istart iend (CInt.add ipt ept) (CInt.add iacc ept))
      else if (i =? cur)%nat then
        interpolate_loop segment cur diluent_flag entries' (S i)
          (pr_interpolate.mk istart iend (CInt.add ipt ept) (CInt.add iacc ept))
      else
        let ipt := CInt.add ipt ept in
        if negb (pressure =? 0) then pr_interpolate.mk istart pressure ipt iacc
        else interpolate_loop segment cur diluent_flag entries' (S i)
               (pr_interpolate.mk istart iend ipt iacc)
  end.

Definition get_pr_interpolate_data (segment : pr_track.t) (pi : plot_info)
    (cur : nat) (diluent_flag : bool) : pr_interpolate.t :=
  interpolate_loop segment cur diluent_flag pi 0
    (pr_interpolate.mk (pr_track.start segment) (pr_track.end_ segment) 0 0).

(** ** fill_missing_tank_pressures *)

(** [for (i = first; i < first + n; i++) body], with a state threaded
    through the rounds and an error stopping the loop. *)
Fixpoint for_loop {St : Type} (n : nat) (i : nat) (body : nat -> St -> option St)
    (st : St) : option St :=
  match n with
  | O => Some st
  | S n' => st' ← body i st; for_loop n' (S i) body st'
  end.

(** The [while] loop that finds the segment of a point in time. *)
Fixpoint find_segment (segment : list pr_track.t) (sec : Z) : option pr_track.t :=
  match segment with
  | [] => None
  | s :: next =>
      if pr_track.t_end s <? sec then find_segment next sec else Some s
  end.

(** The new current pressure of a cylinder: unchanged when the interpolation
    data has no pressure-time, else
    [magic = (end - start) / (double)pressure_time] and
    [rint(start + magic * acc_pressure_time)]. *)
Definition interpolated_pressure (interpolate : pr_interpolate.t) (cur_pr : Z)
  : option Z :=
  let 'pr_interpolate.mk istart iend ipt iacc := interpolate in
  if ipt =? 0 then Some cur_pr
  else
    magic ← CDouble.div (CDouble.of_int (CInt.sub iend istart)) (CDouble.of_int ipt);
    Some (CDouble.to_int
            (CDouble.rint
               (CDouble.add (CDouble.of_int istart)
                            (CDouble.mul magic (CDouble.of_int iacc))))).

(** Write through [save_pressure] or [save_interpolated]. *)
Definition save (diluent_flag : bool) (slot : pr_slot) (v : Z) (entry : plot_data)
  : plot_data :=
  if diluent_flag then set_diluentpressure slot v entry
  else set_pressure slot v entry.

Section WithHeaders.
Context `{Headers}.

(** An [int] used as an index into an array of [MAX_CYLINDERS] elements. *)
Definition cylinder_slot (cyl : Z) : option nat :=
  if (0 <=? cyl) && (cyl <? Z.of_nat MAX_CYLINDERS) then Some (Z.to_nat cyl)
  else None.

(** The state of the loops of [fill_missing_tank_pressures]. *)
Record fill_state := mk_fill_state {
  fs_entry : plot_info;
  fs_track_pr : list (list pr_track.t);
  fs_cur_pr : list Z
}.

(** The body of the first loop, over the cylinders. *)
Definition fill_cylinder (cyl : nat) (st : fill_state) : option fill_state :=
  chain ← fs_track_pr st !! cyl;
  match chain with
  | [] => Some (mk_fill_state (fs_entry st) (fs_track_pr st)
                              (<[cyl := -1]> (fs_cur_pr st)))
  | _ =>
      chain' ← fill_missing_segment_pressures chain;
      first ← head chain';
      Some (mk_fill_state (fs_entry st) (<[cyl := chain']> (fs_track_pr st))
                          (<[cyl := pr_track.start first]> (fs_cur_pr st)))
  end.

(** The body of the second loop, over the points of the profile. *)
Definition fill_entry (diluent_flag : bool) (i : nat) (st : fill_state)
  : option fill_state :=
  entry ← fs_entry st !! i;
  cyl ← cylinder_slot (if diluent_flag then DILUENT_CYLINDER
                       else cylinderindex entry);
  let pressure := tracked_pressure diluent_flag entry in
  if negb (pressure =? 0) then
    Some (mk_fill_state (fs_entry st) (fs_track_pr st)
                        (<[cyl := pressure]> (fs_cur_pr st)))
  else
    chain ← fs_track_pr st !! cyl;
    cur ← fs_cur_pr st !! cyl;
    let no_segment :=
      Some (mk_fill_state (<[i := save diluent_flag SENSOR_PR cur entry]> (fs_entry st))
                          (fs_track_pr st) (fs_cur_pr st)) in
    match find_segment chain (sec entry) with
    | None => no_segment
    | Some segment =>
        if pr_track.pressure_time segment =? 0 then no_segment
        else
          let interpolate :=
            get_pr_interpolate_data segment (fs_entry st) i diluent_flag in
          cur' ← interpolated_pressure interpolate cur;
          Some (mk_fill_state
                  (<[i := save diluent_flag INTERPOLATED_PR cur' entry]> (fs_entry st))
                  (fs_track_pr st) (<[cyl := cur']> (fs_cur_pr st)))
    end.

Definition fill_missing_tank_pressures (d : dive) (pi : plot_info)
    (track_pr : list (list pr_track.t)) (diluent_flag : bool)
  : option fill_state :=
  st ← for_loop MAX_CYLINDERS 0 fill_cylinder
         (mk_fill_state pi track_pr (replicate MAX_CYLINDERS 0));
  for_loop (length pi - 1) 1 (fill_entry diluent_flag) st.

(** ** calc_pressure_time *)

Definition calc_pressure_time (d : dive) (a b : plot_data) : Z :=
  let time := CInt.sub (sec b) (sec a) in
  let depth := CInt.div (CInt.add (depth a) (depth b)) 2 in
  if depth <=? SURFACE_THRESHOLD then 0
  else CInt.mul (depth_to_mbar depth d) time.

(** ** populate_pressure_information *)

(** The state of the scan.  [current], when not NULL, points to the
    segment that was appended last, the tail of one of the lists of
    [track_pr]: it is the index of that list. *)
Record scan_state := mk_scan_state {
  ss_entry : plot_info;
  ss_track_pr : list (list pr_track.t);
  ss_cylinderindex : Z;
  ss_current : option nat;
  ss_missing_pr : bool
}.

(** A write through [current]. *)
Fixpoint alter_tail (f : pr_track.t -> pr_track.t) (chain : list pr_track.t)
  : list pr_track.t :=
  match chain with
  | [] => []
  | tail :: [] => [f tail]
  | s :: next => s :: alter_tail f next
  end.

(** [current = pr_track_alloc(pressure, entry->sec);
     track_pr[cylinderindex] = list_add(track_pr[cylinderindex], current);] *)
Definition new_segment (cylinderindex : Z) (pressure sec : Z)
    (track_pr : list (list pr_track.t)) : option (list (list pr_track.t) * nat) :=
  cyl ← cylinder_slot cylinderindex;
  chain ← track_pr !! cyl;
  Some (<[cyl := list_add chain (pr_track_alloc pressure sec)]> track_pr, cyl).

Definition scan_entry (d : dive) (i : nat) (st : scan_state) : option scan_state :=
  entry ← ss_entry st !! i;
  let pressure := SENSOR_PRESSURE entry in
  (* discrete integration of pressure over time *)
  '(entries, track_pr, entry) ←
    match ss_current st with
    | None => Some (ss_entry st, ss_track_pr st, entry)
    | Some cur =>
        prev ← (match i with O => None | S j => ss_entry st !! j end);
        let pt := calc_pressure_time d prev entry in
        let entry := set_pressure_time pt entry in
        Some (<[i := entry]> (ss_entry st),
              alter (alter_tail (fun current =>
                       pr_track.set_t_end (sec entry)
                         (pr_track.set_pressure_time
                            (CInt.add (pr_track.pressure_time current) pt)
                            current))) cur (ss_track_pr st),
              entry)
    end;
  (* track the segments per cylinder *)
  if negb (cylinderindex entry =? ss_cylinderindex st) then
    '(track_pr, cur) ← new_segment (cylinderindex entry) pressure (sec entry) track_pr;
    Some (mk_scan_state entries track_pr (cylinderindex entry) (Some cur)
                        (ss_missing_pr st))
  else if pressure =? 0 then
    Some (mk_scan_state entries track_pr (ss_cylinderindex st) (ss_current st) true)
  else
    cur ← ss_current st;
    let track_pr := alter (alter_tail (pr_track.set_end pressure)) cur track_pr in
    prev ← (match i with O => None | S j => entries !! j end);
    (* Was it continuous? *)
    if negb (SENSOR_PRESSURE prev =? 0) then
      Some (mk_scan_state entries track_pr (ss_cylinderindex st) (ss_current st)
                          (ss_missing_pr st))
    else
      (* transmitter changed its working status *)
      '(track_pr, cur) ← new_segment (ss_cylinderindex st) pressure (sec entry) track_pr;
      Some (mk_scan_state entries track_pr (ss_cylinderindex st) (Some cur)
                          (ss_missing_pr st)).

(** The scan alone: the segment lists and the flag before the gap filler
    runs. *)
Definition build_segments (d : dive) (pi : plot_info) : option scan_state :=
  for_loop (length pi) 0 (scan_entry d)
    (mk_scan_state pi (replicate MAX_CYLINDERS []) (-1) None false).

Definition populate_pressure_information (d : dive) (pi : plot_info)
  : option plot_info :=
  st ← build_segments d pi;
  if ss_missing_pr st then
    st' ← fill_missing_tank_pressures d (ss_entry st) (ss_track_pr st) false;
    Some (fs_entry st')
  else Some (ss_entry st).

End WithHeaders.

(** ** Segment-level redistribution, as the specification words it

    The chain is cut into maximal runs, a run ending at the first segment
    with a known end pressure or at the end of the chain.  Every run has a
    [start], an [end] and a total pressure-time, and the end pressure of
    each of its segments is [start - (start - end) * pt / pt_sum], with the
    fraction discarded, for the running pressure-time [pt]. *)

Fixpoint runs (chain : list pr_track.t) : list (list pr_track.t) :=
  match chain with
  | [] => []
  | s :: next =>
      if negb (pr_track.end_ s =? 0) then [s] :: runs next
      else match runs next with
           | [] => [[s]]
           | run :: others => (s :: run) :: others
           end
  end.

(** The first run of the chain [tmp :: next], and the chain after it. *)
Fixpoint split_run (tmp : pr_track.t) (next : list pr_track.t)
  : list pr_track.t * list pr_track.t :=
  if negb (pr_track.end_ tmp =? 0) then ([tmp], next)
  else match next with
       | [] => ([tmp], [])
       | tmp' :: next' =>
           let '(run, rest) := split_run tmp' next' in (tmp :: run, rest)
       end.

(** The end pressure a run closes with, 0 when the chain ends first. *)
Definition run_known_end (run : list pr_track.t) : Z :=
  match last run with
  | Some s => pr_track.end_ s
  | None => 0
  end.

Definition run_start (run : list pr_track.t) : Z :=
  match run with
  | s :: _ => if pr_track.start s =? 0 then run_known_end run else pr_track.start s
  | [] => 0
  end.

Definition run_end (run : list pr_track.t) : Z :=
  if run_known_end run =? 0 then run_start run else run_known_end run.

Definition run_pressure_time (run : list pr_track.t) : Z :=
  foldr (fun s acc => pr_track.pressure_time s + acc) 0 run.

(** [start - (start - end) * pt / pt_sum] as an exact fraction, truncated. *)
Definition reconciled (start end_ pt pt_sum : Z) : Z :=
  if pt_sum =? 0 then start
  else Z.quot (start * pt_sum - (start - end_) * pt) pt_sum.

(** The second walk over a run: [pt] is the pressure-time before the
    segment, [pressure] the start pressure it receives. *)
Fixpoint reconcile (start end_ pt_sum pt pressure : Z) (run : list pr_track.t)
  : list pr_track.t :=
  match run with
  | [] => []
  | s :: next =>
      let pt := pt + pr_track.pressure_time s in
      let pressure' := reconciled start end_ pt pt_sum in
      pr_track.mk pressure pressure' (pr_track.t_start s) (pr_track.t_end s)
                  (pr_track.pressure_time s)
        :: reconcile start end_ pt_sum pt pressure' next
  end.

Definition reconcile_run (run : list pr_track.t) : list pr_track.t :=
  reconcile (run_start run) (run_end run) (run_pressure_time run) 0
            (run_start run) run.

Definition redistribute (chain : list pr_track.t) : list pr_track.t :=
  concat (map reconcile_run (runs chain)).

(** The same walk with the arithmetic of the code: the pressure-times are
    added as [int]s, and the end pressure of a segment is the expression
    [start - (start - end) * (double)pt / pt_sum] of [dole_pressure],
    evaluated in [double] and converted to [int]. *)
Definition int_pressure_time (acc : Z) (run : list pr_track.t) : Z :=
  foldl (fun acc s => CInt.add acc (pr_track.pressure_time s)) acc run.

Fixpoint reconcile_double (start end_ pt_sum pt pressure : Z) (run : list pr_track.t)
  : option (list pr_track.t) :=
  match run with
  | [] => Some []
  | s :: next =>
      let pt := CInt.add pt (pr_track.pressure_time s) in
      pressure' ← dole_pressure start end_ pt pt_sum;
      rest ← reconcile_double start end_ pt_sum pt pressure' next;
      Some (pr_track.mk pressure pressure' (pr_track.t_start s) (pr_track.t_end s)
                        (pr_track.pressure_time s) :: rest)
  end.

Definition reconcile_run_double (run : list pr_track.t) : option (list pr_track.t) :=
  reconcile_double (run_start run) (run_end run) (int_pressure_time 0 run) 0
                   (run_start run) run.

Fixpoint reconcile_runs_double (rs : list (list pr_track.t))
  : option (list pr_track.t) :=
  match rs with
  | [] => Some []
  | run :: rs' =>
      done ← reconcile_run_double run;
      rest ← reconcile_runs_double rs';
      Some (done ++ rest)
  end.

Definition redistribute_double (chain : list pr_track.t) : option (list pr_track.t) :=
  reconcile_runs_double (runs chain).

(** What [reconcile] reads of a segment: its times and its pressure-time. *)
Definition times (s : pr_track.t) : Z * Z * Z :=
  (pr_track.t_start s, pr_track.t_end s, pr_track.pressure_time s).

(** The chains for which neither the [int] nor the [double] arithmetic of
    the redistribution loses anything: pressures up to [2^20] in absolute
    value, pressure-times that are not negative and add up to at most
    [2^30]. *)
Definition chain_in_range (chain : list pr_track.t) : Prop :=
  Forall (fun s => Z.abs (pr_track.start s) <= 2 ^ 20 /\
                   Z.abs (pr_track.end_ s) <= 2 ^ 20 /\
                   0 <= pr_track.pressure_time s) chain
  /\ run_pressure_time chain <= 2 ^ 30.

(** ** The pipeline, as the specification words it *)

Section PipelineSpec.
Context `{Headers}.

(** Every cylinder index of the profile is an index of the table. *)
Definition valid_profile (pi : plot_info) : Prop :=
  Forall (fun e => 0 <= cylinderindex e < Z.of_nat MAX_CYLINDERS) pi.

(** The profile with the pressure-time of every entry but the first set to
    the contribution of the interval that ends at it. *)
Definition integrate (d : dive) (pi : plot_info) : plot_info :=
  imap (fun i e =>
          match i with
          | O => e
          | S j => match pi !! j with
                   | Some prev => set_pressure_time (calc_pressure_time d prev e) e
                   | None => e
                   end
          end) pi.

(** An entry that opens a new segment: the first one, one on another
    cylinder than the entry before it, or one whose reading comes back. *)
Definition opens_segment (pi : plot_info) (i : nat) : Prop :=
  match i with
  | O => True
  | S j =>
      exists prev entry,
        pi !! j = Some prev /\ pi !! i = Some entry /\
        (cylinderindex entry <> cylinderindex prev \/
         (SENSOR_PRESSURE entry <> 0 /\ SENSOR_PRESSURE prev = 0))
  end.

(** What holds of the state of the scan before entry [i]: the entries
    before [i] are integrated and the others untouched, [current] is the
    last segment of the cylinder of the entry before, and a set flag comes
    from an entry without reading that opens no segment. *)
Definition scan_invariant (d : dive) (pi : plot_info) (i : nat) (s : scan_state)
  : Prop :=
  length (ss_entry s) = length pi /\
  (forall k : nat,
      ss_entry s !! k = if (k <? i)%nat then integrate d pi !! k else pi !! k) /\
  length (ss_track_pr s) = MAX_CYLINDERS /\
  match i with
  | O => ss_cylinderindex s = -1 /\ ss_current s = None
  | S j =>
      exists prev cur,
        pi !! j = Some prev /\ ss_cylinderindex s = cylinderindex prev /\
        ss_current s = Some cur /\ cylinder_slot (cylinderindex prev) = Some cur
  end /\
  (ss_missing_pr s = true ->
   exists (k : nat) e,
     (k < i)%nat /\ pi !! k = Some e /\ SENSOR_PRESSURE e = 0 /\
     ~ opens_segment pi k).

End PipelineSpec.

(** Two entries alike in everything but the pressure-time. *)
Definition same_readings (e e' : plot_data) : Prop :=
  cylinderindex e' = cylinderindex e /\ sec e' = sec e /\ depth e' = depth e /\
  pressure e' = pressure e /\ diluentpressure e' = diluentpressure e.

(** What the pipeline may do to an entry: nothing to its cylinder, time,
    depth and diluent pressures, nothing to its pressures when it has a
    reading, and a write to one of the two pressure slots at most. *)
Definition gap_filled (e e' : plot_data) : Prop :=
  cylinderindex e' = cylinderindex e /\ sec e' = sec e /\ depth e' = depth e /\
  diluentpressure e' = diluentpressure e /\
  (SENSOR_PRESSURE e <> 0 -> pressure e' = pressure e) /\
  (SENSOR_PRESSURE e' = SENSOR_PRESSURE e \/
   INTERPOLATED_PRESSURE e' = INTERPOLATED_PRESSURE e).

(** The pressures that a pass of the gap filler tracks, and the others. *)
Definition tracked_pair (diluent_flag : bool) (e : plot_data) : Z * Z :=
  if diluent_flag then diluentpressure e else pressure e.
Definition other_pair (diluent_flag : bool) (e : plot_data) : Z * Z :=
  if diluent_flag then pressure e else diluentpressure e.

(** What one pass of the gap filler may do to an entry. *)
Definition pass_filled (diluent_flag : bool) (e e' : plot_data) : Prop :=
  cylinderindex e' = cylinderindex e /\ sec e' = sec e /\ depth e' = depth e /\
  pressure_time e' = pressure_time e /\
  other_pair diluent_flag e' = other_pair diluent_flag e /\
  (tracked_pressure diluent_flag e <> 0 ->
   tracked_pair diluent_flag e' = tracked_pair diluent_flag e) /\
  (fst (tracked_pair diluent_flag e') = fst (tracked_pair diluent_flag e) \/
   snd (tracked_pair diluent_flag e') = snd (tracked_pair diluent_flag e)).

(** The diluent pass seen as a main pass: the entry with its two pairs of
    pressures exchanged, on the cylinder of the diluent. *)
Definition diluent_view `{Headers} (e : plot_data) : plot_data :=
  mk_plot_data DILUENT_CYLINDER (sec e) (diluentpressure e) (pressure e)
               (depth e) (pressure_time e).

Definition fill_state_view `{Headers} (st : fill_state) : fill_state :=
  mk_fill_state (diluent_view <$> fs_entry st) (fs_track_pr st) (fs_cur_pr st).

(** What holds of the entries before the round for entry [i] of a pass over
    the profile [pi]: the entries that had their round are filled, the others
    untouched. *)
Definition fill_invariant (diluent_flag : bool) (pi : plot_info) (i : nat)
    (st : fill_state) : Prop :=
  length (fs_entry st) = length pi /\
  forall (k : nat) e,
    pi !! k = Some e ->
    exists e', fs_entry st !! k = Some e' /\ pass_filled diluent_flag e e' /\
               ((i <= k)%nat -> e' = e).

(** ** Sample data *)

(** Three segments in one run, from 200 to 199. *)
Definition sample_run : list pr_track.t :=
  [pr_track.mk 200 0 0 10 3; pr_track.mk 0 0 10 20 4; pr_track.mk 0 199 20 30 3].

(** One segment with both pressures and no pressure-time. *)
Definition flat_segment : list pr_track.t := [pr_track.mk 200 170 0 10 0].

(** One segment beyond the range, from 738432838 to 511555 with a
    pressure-time of 987745430. *)
Definition large_segment : list pr_track.t :=
  [pr_track.mk 738432838 511555 0 10 987745430].

(** A sample of what the headers supply: eight cylinders, the diluent in
    slot 1, a surface threshold of 750 mm, and one bar of pressure at the
    surface plus one bar every ten metres of depth. *)
#[export] Instance sample_headers : Headers := {|
  dive := unit;
  MAX_CYLINDERS := 8;
  DILUENT_CYLINDER := 1;
  SURFACE_THRESHOLD := 750;
  depth_to_mbar := fun depth _ => 1013 + depth / 10
|}.

Definition sample_dive : @dive sample_headers := tt.

(** Two samples ten seconds apart at a depth of 20 m. *)
Definition sample_a : plot_data := mk_plot_data 0 0 (200, 0) (0, 0) 20000 0.
Definition sample_b : plot_data := mk_plot_data 0 10 (0, 0) (0, 0) 20000 0.

(** The scenario of the specification: cylinder 0 with readings 200 at
    t = 0 and 170 at t = 30, none at t = 10 and t = 20, and pressure-time
    contributions 5, 5 and 10.  The segments are those that the scan makes of
    these readings: one from 200 to 170 with pressure-time 20, and the one
    opened when the reading comes back. *)
Definition scenario_profile : plot_info :=
  [mk_plot_data 0 0 (200, 0) (0, 0) 0 0;
   mk_plot_data 0 10 (0, 0) (0, 0) 0 5;
   mk_plot_data 0 20 (0, 0) (0, 0) 0 5;
   mk_plot_data 0 30 (170, 0) (0, 0) 0 10].

Definition scenario_track_pr : list (list pr_track.t) :=
  [pr_track.mk 200 170 0 30 20; pr_track.mk 170 0 30 30 0] :: replicate 7 [].

(** A profile with a reading at every entry. *)
Definition resolved_profile : plot_info :=
  [mk_plot_data 0 0 (200, 0) (0, 0) 0 0;
   mk_plot_data 0 10 (190, 0) (0, 0) 20000 0;
   mk_plot_data 1 20 (150, 0) (0, 0) 20000 0;
   mk_plot_data 1 30 (140, 0) (0, 0) 5000 0].

(** A profile whose readings are missing where a segment opens only: at the
    first entry and at the switch to cylinder 1. *)
Definition switching_profile : plot_info :=
  [mk_plot_data 0 0 (0, 0) (0, 0) 0 0;
   mk_plot_data 0 10 (190, 0) (0, 0) 20000 0;
   mk_plot_data 1 20 (0, 0) (0, 0) 20000 0;
   mk_plot_data 1 30 (140, 0) (0, 0) 5000 0].

(** Two entries at the surface, the second without reading, and the state
    of the gap filler before its round for the second entry: one segment
    without pressure-time, the last known pressure 200. *)
Definition flat_profile : plot_info :=
  [mk_plot_data 0 0 (200, 0) (0, 0) 0 0; mk_plot_data 0 10 (0, 0) (0, 0) 0 0].

Definition flat_state : fill_state :=
  mk_fill_state flat_profile
                ([pr_track.mk 200 200 0 10 0] :: replicate 7 [])
                (200 :: replicate 7 (-1)).

(** The same profile in two more states, both with the last known pressure
    180 for cylinder 0: one whose table has no segment at all, and one whose
    segment has pressure-time while the entries have none. *)
Definition bare_state : fill_state :=
  mk_fill_state flat_profile (replicate 8 []) (180 :: replicate 7 (-1)).

Definition idle_state : fill_state :=
  mk_fill_state flat_profile
                ([pr_track.mk 200 170 0 10 5] :: replicate 7 [])
                (180 :: replicate 7 (-1)).

(** A rebreather profile: the readings of the cylinder and of the diluent
    are both missing at t = 10 and t = 20. *)
Definition rebreather_profile : plot_info :=
  [mk_plot_data 0 0 (200, 0) (150, 0) 20000 0;
   mk_plot_data 0 10 (0, 0) (0, 0) 20000 0;
   mk_plot_data 0 20 (0, 0) (0, 0) 20000 0;
   mk_plot_data 0 30 (170, 0) (120, 0) 20000 0].

(** A table with the segments of the diluent of [rebreather_profile] in the
    diluent slot. *)
Definition diluent_track_pr : list (list pr_track.t) :=
  [[]; [pr_track.mk 150 120 0 30 90390; pr_track.mk 120 0 30 30 0]]
    ++ replicate 6 [].

(** ** Further definitions *)

(** The pressure-time of a whole profile. *)
Definition total_pressure_time (pi : plot_info) : Z :=
  foldr (fun e acc => pressure_time e + acc) 0 pi.

(** ** One round of the scan, chain by chain

    What a round of the loop of [populate_pressure_information] does to the
    chain of one cylinder, written as a function of the entry of the round and
    of the entry before it: the pressure-time of the interval goes to the
    last segment of the cylinder of the entry before, a reading on the same
    cylinder becomes the end pressure of that segment, and an entry that
    opens a segment appends it to the chain of its own cylinder. *)

Definition same_cylinder (prev entry : plot_data) : bool :=
  cylinderindex entry =? cylinderindex prev.

Definition opens_segmentb (prev : option plot_data) (entry : plot_data) : bool :=
  match prev with
  | None => true
  | Some prev =>
      negb (same_cylinder prev entry)
      || (negb (SENSOR_PRESSURE entry =? 0) && (SENSOR_PRESSURE prev =? 0))
  end.

(** [current->pressure_time += entry->pressure_time; current->t_end = entry->sec;]
    and, for a reading on the same cylinder, [current->end = pressure;] *)
Definition close_segment (pt : Z) (reading : bool) (entry : plot_data)
    (current : pr_track.t) : pr_track.t :=
  let current :=
    pr_track.set_t_end (sec entry)
      (pr_track.set_pressure_time (CInt.add (pr_track.pressure_time current) pt)
                                  current) in
  if reading then pr_track.set_end (SENSOR_PRESSURE entry) current else current.

Definition chain_after `{Headers} (d : dive) (prev : option plot_data)
    (entry : plot_data) (c : nat) (chain : list pr_track.t) : list pr_track.t :=
  let chain :=
    match prev with
    | Some prev =>
        if Z.of_nat c =? cylinderindex prev
        then alter_tail (close_segment (calc_pressure_time d prev entry)
                           (same_cylinder prev entry
                            && negb (SENSOR_PRESSURE entry =? 0)) entry) chain
        else chain
    | None => chain
    end in
  if opens_segmentb prev entry && (Z.of_nat c =? cylinderindex entry)
  then list_add chain (pr_track_alloc (SENSOR_PRESSURE entry) (sec entry))
  else chain.

(** The entry before entry [i]. *)
Definition entry_before (pi : plot_info) (i : nat) : option plot_data :=
  match i with O => None | S j => pi !! j end.

(** A profile whose times do not decrease. *)
Definition sorted_profile (pi : plot_info) : Prop :=
  forall (j : nat) prev e, pi !! j = Some prev -> pi !! S j = Some e -> sec prev <= sec e.

(** A chain whose segments follow each other in time between [lo] and
    [hi]: no segment ends before it starts, and none starts before the one
    before it has ended. *)
Fixpoint time_ordered (lo hi : Z) (chain : list pr_track.t) : Prop :=
  match chain with
  | [] => lo <= hi
  | s :: next =>
      lo <= pr_track.t_start s /\ pr_track.t_start s <= pr_track.t_end s /\
      time_ordered (pr_track.t_end s) hi next
  end.

(** [sorted_profile], decided. *)
Fixpoint sorted_profileb (pi : plot_info) : bool :=
  match pi with
  | [] => true
  | a :: rest =>
      match rest with
      | [] => true
      | b :: _ => (sec a <=? sec b) && sorted_profileb rest
      end
  end.

(** [valid_profile], decided. *)
Definition valid_profileb `{Headers} (pi : plot_info) : bool :=
  forallb (fun e => (0 <=? cylinderindex e) && (cylinderindex e <? Z.of_nat MAX_CYLINDERS))
          pi.

(** The pressure-time charged to cylinder [c] by a profile: the
    contributions of the intervals between two entries whose first entry is on
    the cylinder. *)
Fixpoint charged `{Headers} (d : dive) (c : nat) (pi : plot_info) : Z :=
  match pi with
  | [] => 0
  | a :: rest =>
      match rest with
      | [] => 0
      | b :: _ =>
          (if Z.of_nat c =? cylinderindex a then calc_pressure_time d a b else 0)
          + charged d c rest
      end
  end.

(** ** The pressure carried forward

    The cylinder that a pass of the gap filler looks at for an entry, and
    the current pressure of cylinder [c] after a walk over [entries] that
    starts with the current pressure [cur]: the reading of the last entry on
    the cylinder that has one. *)
Definition cylinder_of `{Headers} (diluent_flag : bool) (entry : plot_data) : Z :=
  if diluent_flag then DILUENT_CYLINDER else cylinderindex entry.

Fixpoint carried `{Headers} (diluent_flag : bool) (c : nat) (cur : Z)
    (entries : plot_info) : Z :=
  match entries with
  | [] => cur
  | entry :: rest =>
      carried diluent_flag c
        (if (Z.of_nat c =? cylinder_of diluent_flag entry)
            && negb (tracked_pressure diluent_flag entry =? 0)
         then tracked_pressure diluent_flag entry else cur)
        rest
  end.

(** * Properties *)

(** ** [int] arithmetic without overflow *)

Module CIntFacts.
Import CInt.

Lemma wrap_small z : in_range z -> wrap z = z.
Proof.
  unfold in_range, INT_MIN, INT_MAX, wrap; intros Hz.
  rewrite Z.mod_small; lia.
Qed.

Lemma wrap_in_range z : in_range (wrap z).
Proof.
  unfold in_range, INT_MIN, INT_MAX, wrap.
  pose proof (Z.mod_pos_bound (z + 2 ^ 31) (2 ^ 32)); lia.
Qed.

Lemma add_small a b : in_range (a + b) -> add a b = a + b.
Proof. apply wrap_small. Qed.

Lemma sub_small a b : in_range (a - b) -> sub a b = a - b.
Proof. apply wrap_small. Qed.

Lemma mul_small a b : in_range (a * b) -> mul a b = a * b.
Proof. apply wrap_small. Qed.

End CIntFacts.

(** ** Rounding to a double *)

Module CDoubleFacts.
Import CDouble.
Local Open Scope Q_scope.

Lemma round_even_bounds q :
  inject_Z (round_even q) - (1 # 2) <= q <= inject_Z (round_even q) + (1 # 2).
Proof.
  unfold round_even.
  pose proof (Qfloor_le q) as Hlo. pose proof (Qlt_floor q) as Hhi.
  rewrite inject_Z_plus in Hhi. change (inject_Z 1) with 1 in Hhi.
  destruct (Qcompare_spec (q - inject_Z (Qfloor q)) (1 # 2)) as [He|Hl|Hg].
  - destruct (Z.even (Qfloor q)); rewrite ?inject_Z_plus; change (inject_Z 1) with 1; lra.
  - lra.
  - rewrite inject_Z_plus. change (inject_Z 1) with 1. lra.
Qed.

Lemma round_even_int z : round_even (inject_Z z) = z.
Proof.
  unfold round_even. rewrite Qfloor_Z.
  destruct (Qcompare_spec (inject_Z z - inject_Z z) (1 # 2)) as [He|Hl|Hg];
    [exfalso; lra | reflexivity | exfalso; lra].
Qed.

#[export] Instance round_even_comp : Proper (Qeq ==> eq) round_even.
Proof.
  intros x y Hxy. unfold round_even.
  rewrite (Qfloor_comp _ _ Hxy).
  assert (Hc : (x - inject_Z (Qfloor y) ?= 1 # 2) = (y - inject_Z (Qfloor y) ?= 1 # 2)).
  { apply Qcompare_comp; [rewrite Hxy|]; reflexivity. }
  rewrite Hc. reflexivity.
Qed.

Lemma pow2_pos e : 0 < 2 ^ e.
Proof. apply Qpower_0_lt. reflexivity. Qed.

Lemma pow2_succ e : 2 ^ (e + 1) == 2 * 2 ^ e.
Proof. rewrite Qpower_plus by discriminate. change (2 ^ 1) with 2. ring. Qed.

Lemma pow2_inv e : 2 ^ e * 2 ^ (- e) == 1.
Proof. rewrite <- Qpower_plus by discriminate. rewrite Z.add_opp_diag_r. reflexivity. Qed.

Lemma pow2_Z n : (0 <= n)%Z -> inject_Z (2 ^ n) == 2 ^ n.
Proof. intros. apply (Zpower_Qpower 2 n). assumption. Qed.

(** The exponent of a rational that is not 0. *)
Lemma ilog2_spec q : ~ q == 0 -> 2 ^ ilog2 q <= Qabs q < 2 ^ (ilog2 q + 1).
Proof.
  intros Hq. unfold ilog2.
  set (n := Z.abs (Qnum q)). set (d := Zpos (Qden q)).
  assert (Hn : (0 < n)%Z).
  { unfold n. destruct q as [[|p|p] dq]; simpl; try lia. exfalso; apply Hq; reflexivity. }
  assert (Hd : (0 < d)%Z) by (unfold d; lia).
  assert (Habs : Qabs q == inject_Z n / inject_Z d).
  { destruct q as [qn qd]. unfold n, d. simpl Qnum. simpl Qden.
    rewrite <- Zabs_Qabs. rewrite Qmake_Qdiv. reflexivity. }
  pose proof (Z.log2_spec n Hn) as [Hn1 Hn2].
  pose proof (Z.log2_spec d Hd) as [Hd1 Hd2].
  pose proof (Z.log2_nonneg n) as Hln. pose proof (Z.log2_nonneg d) as Hld.
  set (a := Z.log2 n) in *. set (b := Z.log2 d) in *.
  assert (Hdq : 0 < inject_Z d) by (change 0 with (inject_Z 0); rewrite <- Zlt_Qlt; lia).
  assert (Ha1 : 2 ^ a <= inject_Z n).
  { rewrite <- pow2_Z by lia. rewrite <- Zle_Qle. lia. }
  assert (Ha2 : inject_Z n < 2 * 2 ^ a).
  { rewrite <- pow2_succ. rewrite <- pow2_Z by lia. rewrite <- Zlt_Qlt. replace (a + 1)%Z with (Z.succ a) by lia. lia. }
  assert (Hb1 : 2 ^ b <= inject_Z d).
  { rewrite <- pow2_Z by lia. rewrite <- Zle_Qle. lia. }
  assert (Hb2 : inject_Z d < 2 * 2 ^ b).
  { rewrite <- pow2_succ. rewrite <- pow2_Z by lia. rewrite <- Zlt_Qlt. replace (b + 1)%Z with (Z.succ b) by lia. lia. }
  assert (Hab : 2 ^ (a - b) * 2 ^ b == 2 ^ a).
  { rewrite <- Qpower_plus by discriminate. replace (a - b + b)%Z with a by lia. reflexivity. }
  pose proof (pow2_pos (a - b)) as Hpab. pose proof (pow2_pos b) as Hpb.
  pose proof (pow2_pos a) as Hpa.
  (* |q| * d = n *)
  assert (Hqd : Qabs q * inject_Z d == inject_Z n).
  { rewrite Habs. field. lra. }
  pose proof (Qabs_nonneg q) as Hq0.
  destruct (Qle_bool (2 ^ (a - b)) (Qabs q)) eqn:Hle.
  - apply Qle_bool_iff in Hle. split; [exact Hle|].
    rewrite pow2_succ.
    generalize dependent (2 ^ (a - b)). generalize dependent (2 ^ a).
    generalize dependent (2 ^ b). generalize dependent (Qabs q).
    generalize dependent (inject_Z d). generalize dependent (inject_Z n).
    clear. intros. nra.
  - assert (Hlt : Qabs q < 2 ^ (a - b)).
    { apply Qnot_le_lt. intros Hc. apply Qle_bool_iff in Hc. congruence. }
    replace (a - b - 1 + 1)%Z with (a - b)%Z by lia. split; [|exact Hlt].
    assert (Hs : 2 * 2 ^ (a - b - 1) == 2 ^ (a - b)).
    { rewrite <- pow2_succ. replace (a - b - 1 + 1)%Z with (a - b)%Z by lia. reflexivity. }
    pose proof (pow2_pos (a - b - 1)) as Hp1.
    generalize dependent (2 ^ (a - b - 1)).
    generalize dependent (2 ^ (a - b)). generalize dependent (2 ^ a).
    generalize dependent (2 ^ b). generalize dependent (Qabs q).
    generalize dependent (inject_Z d). generalize dependent (inject_Z n).
    clear. intros. nra.
Qed.

Lemma pow2_le e1 e2 : (e1 <= e2)%Z -> 2 ^ e1 <= 2 ^ e2.
Proof. intros. apply Qpower_le_compat_l; [assumption | lra]. Qed.

Lemma ilog2_unique q e : 2 ^ e <= Qabs q < 2 ^ (e + 1) -> ilog2 q = e.
Proof.
  intros [H1 H2].
  assert (Hq : ~ q == 0).
  { intros Hc. rewrite Hc in H1. pose proof (pow2_pos e). change (Qabs 0) with 0 in H1. lra. }
  destruct (ilog2_spec q Hq) as [H3 H4].
  destruct (Z.lt_trichotomy (ilog2 q) e) as [Hlt|[Heq|Hgt]]; [exfalso|exact Heq|exfalso].
  - pose proof (pow2_le (ilog2 q + 1) e ltac:(lia)). lra.
  - pose proof (pow2_le (e + 1) (ilog2 q) ltac:(lia)). lra.
Qed.

Lemma ilog2_comp x y : ~ x == 0 -> x == y -> ilog2 x = ilog2 y.
Proof.
  intros Hx Hxy. symmetry. apply ilog2_unique. rewrite <- Hxy.
  apply ilog2_spec, Hx.
Qed.

#[export] Instance fl_comp : Proper (Qeq ==> eq) fl.
Proof.
  intros x y Hxy. unfold fl.
  rewrite <- (Qeqb_comp x y Hxy 0 0 ltac:(reflexivity)).
  destruct (Qeq_bool x 0) eqn:E; [reflexivity|].
  apply Qeq_bool_neq in E. rewrite <- (ilog2_comp x y E Hxy).
  set (s := (52 - ilog2 x)%Z).
  assert (Hs : x * 2 ^ s == y * 2 ^ s) by (apply Qmult_comp; [exact Hxy|reflexivity]).
  rewrite (round_even_comp _ _ Hs). reflexivity.
Qed.

Lemma fl_0 : fl 0 = 0.
Proof. reflexivity. Qed.

(** A rational whose significand is an integer is a double. *)
Lemma fl_exact q k :
  ~ q == 0 -> q * 2 ^ (52 - ilog2 q) == inject_Z k -> fl q == q.
Proof.
  intros Hq Hk. unfold fl.
  destruct (Qeq_bool q 0) eqn:E; [apply Qeq_bool_eq in E; contradiction|].
  rewrite Qred_correct, Hk, round_even_int, <- Hk.
  rewrite <- Qmult_assoc, pow2_inv. ring.
Qed.

(** The integers below [2^53] are doubles. *)
Lemma fl_int z : (Z.abs z < 2 ^ 53)%Z -> fl (inject_Z z) = inject_Z z.
Proof.
  intros Hz. rewrite <- (inject_Z_Qred z) at 2.
  destruct (Z.eq_dec z 0%Z) as [->|Hnz]; [reflexivity|].
  assert (Hq : ~ inject_Z z == 0).
  { change 0 with (inject_Z 0). rewrite inject_Z_injective. exact Hnz. }
  rewrite <- (Qred_complete (fl (inject_Z z)) (inject_Z z)).
  { unfold fl. destruct (Qeq_bool (inject_Z z) 0) eqn:E.
    - apply Qeq_bool_eq in E. contradiction.
    - rewrite Qcanon.Qred_involutive. reflexivity. }
  destruct (ilog2_spec _ Hq) as [H1 _].
  assert (He : (ilog2 (inject_Z z) <= 52)%Z).
  { destruct (Z_le_gt_dec (ilog2 (inject_Z z)) 52) as [Hle|Hgt]; [exact Hle|exfalso].
    pose proof (pow2_le 53 (ilog2 (inject_Z z)) ltac:(lia)) as Hp.
    assert (Ha : Qabs (inject_Z z) == inject_Z (Z.abs z)).
    { unfold inject_Z. rewrite <- Zabs_Qabs. reflexivity. }
    assert (Hb : inject_Z (Z.abs z) < 2 ^ 53).
    { rewrite <- (pow2_Z 53) by lia. rewrite <- Zlt_Qlt. exact Hz. }
    lra. }
  apply (fl_exact _ (z * 2 ^ (52 - ilog2 (inject_Z z)))); [exact Hq|].
  rewrite inject_Z_mult, pow2_Z by lia. reflexivity.
Qed.

(** The relative error of a rounding is at most [2^-53]. *)
Lemma fl_error q : Qabs (fl q - q) * 2 ^ 53 <= Qabs q.
Proof.
  destruct (Qeq_dec q 0) as [H0|Hq].
  - rewrite (fl_comp _ _ H0), fl_0, H0. vm_compute. discriminate.
  - unfold fl. destruct (Qeq_bool q 0) eqn:E; [apply Qeq_bool_eq in E; contradiction|].
    rewrite Qred_correct.
    destruct (ilog2_spec q Hq) as [H1 _].
    set (e := ilog2 q) in *. set (s := (52 - e)%Z).
    pose proof (round_even_bounds (q * 2 ^ s)) as [Hlo Hhi].
    set (m := inject_Z (round_even (q * 2 ^ s))) in *.
    assert (Hd : m * 2 ^ (- s) - q == (m - q * 2 ^ s) * 2 ^ (- s)).
    { transitivity (m * 2 ^ (- s) - q * (2 ^ s * 2 ^ (- s))); [rewrite pow2_inv; ring | ring]. }
    rewrite Hd, Qabs_Qmult.
    assert (Hm : Qabs (m - q * 2 ^ s) <= 1 # 2) by (apply Qabs_Qle_condition; split; lra).
    pose proof (pow2_pos (- s)) as Hps. rewrite (Qabs_pos (2 ^ (- s))) by lra.
    assert (Hpe : 2 ^ (- s) * 2 ^ 53 == 2 * 2 ^ e).
    { rewrite <- Qpower_plus by discriminate. rewrite <- pow2_succ.
      unfold s. replace (- (52 - e) + 53)%Z with (e + 1)%Z by lia. reflexivity. }
    pose proof (Qabs_nonneg (m - q * 2 ^ s)) as Hn.
    pose proof (pow2_pos e) as Hpe0.
    generalize dependent (Qabs (m - q * 2 ^ s)). generalize dependent (2 ^ (- s)).
    generalize dependent (2 ^ e). generalize dependent (Qabs q).
    generalize dependent (2 ^ 53).
    clear. intros. nra.
Qed.

End CDoubleFacts.

(** ** Conversion of a double to [int] *)

Module TruncFacts.
Import CDouble CDoubleFacts.
Local Open Scope Q_scope.

Lemma trunc_int z : trunc (inject_Z z) = z.
Proof. unfold trunc. simpl. apply Z.quot_1_r. Qed.

Lemma trunc_unique_pos q k :
  (0 <= k)%Z -> inject_Z k <= q < inject_Z (k + 1) -> trunc q = k.
Proof.
  intros Hk [H1 H2]. destruct q as [n d]. unfold trunc, Qle, Qlt in *. simpl in *.
  symmetry. apply Z.quot_unique with (r := (n - k * Z.pos d)%Z); nia.
Qed.

Lemma trunc_unique_neg q k :
  (k <= 0)%Z -> inject_Z (k - 1) < q <= inject_Z k -> trunc q = k.
Proof.
  intros Hk [H1 H2]. destruct q as [n d]. unfold trunc, Qle, Qlt in *. simpl in *.
  assert (Hq : Z.quot (- n) (Z.pos d) = (- k)%Z).
  { symmetry. apply Z.quot_unique with (r := (- n + k * Z.pos d)%Z); nia. }
  rewrite Z.quot_opp_l in Hq by lia. lia.
Qed.

Lemma to_int_trunc q : CInt.in_range (trunc q) -> to_int q = trunc q.
Proof.
  unfold to_int, CInt.in_range. intros [H1 H2].
  destruct (Z.leb_spec CInt.INT_MIN (trunc q)); [|lia].
  destruct (Z.leb_spec (trunc q) CInt.INT_MAX); [|lia]. reflexivity.
Qed.

(** Two roundings in a row stay within [(|a| + 3|u|) / 2^53] of the exact
    difference [a - u]. *)
Lemma sub_fl_error a u :
  Qabs (fl (a - fl u) - (a - u)) * 2 ^ 53 <= Qabs a + 3 * Qabs u.
Proof.
  pose proof (fl_error u) as E1. pose proof (fl_error (a - fl u)) as E2.
  set (r := fl u) in *. set (w := fl (a - r)) in *.
  pose proof (Qabs_triangle (w - (a - r)) (u - r)) as T1.
  assert (Hz : w - (a - r) + (u - r) == w - (a - u)) by ring.
  rewrite Hz in T1.
  pose proof (Qabs_triangle a (- r)) as T2.
  assert (Hz2 : a + - r == a - r) by ring. rewrite Hz2, Qabs_opp in T2.
  pose proof (Qabs_triangle (r - u) u) as T3.
  assert (Hz3 : r - u + u == r) by ring. rewrite Hz3 in T3.
  rewrite (Qabs_Qminus u r) in T1.
  pose proof (Qabs_nonneg (r - u)). pose proof (Qabs_nonneg u).
  pose proof (Qabs_nonneg a). pose proof (Qabs_nonneg (w - (a - r))).
  assert (HP : 2 ^ 53 == 9007199254740992) by reflexivity.
  rewrite HP in *.
  generalize dependent (Qabs (w - (a - u))). generalize dependent (Qabs (w - (a - r))).
  generalize dependent (Qabs (a - r)). generalize dependent (Qabs (r - u)).
  generalize dependent (Qabs r). generalize dependent (Qabs u). generalize dependent (Qabs a).
  clear. intros. lra.
Qed.

End TruncFacts.

(** The model on some values whose doubles are well known: 0.1 and 1/3, an
    integer beyond [2^53], halves rounded by [rint], and conversions. *)
Example fl_tenth :
  CDouble.fl (1 # 10) = (3602879701896397 # 36028797018963968)%Q.
Proof. vm_compute. reflexivity. Qed.

Example fl_third :
  CDouble.fl (1 # 3) = (6004799503160661 # 18014398509481984)%Q.
Proof. vm_compute. reflexivity. Qed.

Example fl_beyond_53_bits :
  CDouble.fl (inject_Z (2 ^ 53 + 1)) = inject_Z (2 ^ 53) /\
  CDouble.fl (inject_Z (2 ^ 53 + 3)) = inject_Z (2 ^ 53 + 4).
Proof. split; vm_compute; reflexivity. Qed.

Example rint_halves :
  CDouble.rint (385 # 2) = inject_Z 192 /\ CDouble.rint (387 # 2) = inject_Z 194 /\
  CDouble.rint (-385 # 2) = inject_Z (-192).
Proof. repeat split. Qed.

Example to_int_truncates :
  CDouble.to_int (399 # 2) = 199 /\ CDouble.to_int (-399 # 2) = -199 /\
  CDouble.to_int (inject_Z (2 ^ 31)) = CInt.INT_MIN.
Proof. repeat split. Qed.


(** The arithmetic agrees with the Standard Library's specification of
    IEEE 754 on the expressions of the code, within and beyond the range in
    which they are exact. *)
Example dole_agrees_with_binary64 :
  Forall (fun '(start, end_, pt, pt_sum) =>
            Binary64.dole start end_ pt pt_sum
            = (q ← CDouble.div (CDouble.mul (CDouble.of_int (start - end_))
                                            (CDouble.of_int pt))
                               (CDouble.of_int pt_sum);
               Some (Qred (CDouble.sub (CDouble.of_int start) q))))
         [(200, 199, 3, 10); (200, 170, 7, 20); (250000, 31000, 123456789, 987654321);
          (738432838, 511555, 987745430, 987745430);
          (2011083772, 227121, 1355500775, 1355500775);
          (-5, 1000000007, 1, 3)].
Proof. repeat constructor. Qed.

Example interpolate_agrees_with_binary64 :
  Forall (fun '(start, end_, pt, acc) =>
            Binary64.interpolate start end_ pt acc
            = (magic ← CDouble.div (CDouble.of_int (end_ - start)) (CDouble.of_int pt);
               Some (Qred (CDouble.add (CDouble.of_int start)
                                       (CDouble.mul magic (CDouble.of_int acc))))))
         [(200, 170, 20, 5); (200, 170, 20, 10); (200, 170, 90390, 30130);
          (250000, 31000, 987654321, 123456789);
          (3, 2000000011, 7, 2147483647)].
Proof. repeat constructor. Qed.


(** ** The pressure doled out to one segment *)

Section DolePressure.
Import CDouble CDoubleFacts TruncFacts.

Lemma inject_Z_abs z : (Qabs (inject_Z z) == inject_Z (Z.abs z))%Q.
Proof. unfold inject_Z. rewrite <- Zabs_Qabs. reflexivity. Qed.

Lemma between_pos (w S k T r : Q) :
  (0 < S -> T - 1 < w * S -> w * S < T + 1 -> T == S * k + r ->
   1 <= r -> r <= S - 1 -> k <= w < k + 1)%Q.
Proof.
  intros HS H1 H2 HT Hr1 Hr2.
  split; [apply Qlt_le_weak|]; apply (Qmult_lt_r _ _ S HS); nra.
Qed.

Lemma between_neg (w S k T r : Q) :
  (0 < S -> T - 1 < w * S -> w * S < T + 1 -> T == S * k + r ->
   r <= - (1) -> 1 - S <= r -> k + - (1) < w <= k)%Q.
Proof.
  intros HS H1 H2 HT Hr1 Hr2.
  split; [|apply Qlt_le_weak]; apply (Qmult_lt_r _ _ S HS); nra.
Qed.

Lemma dole_pressure_exact start end_ pt pt_sum :
  0 < pt_sum ->
  CInt.in_range (start - end_) ->
  3 * Z.abs ((start - end_) * pt) + Z.abs (start * pt_sum) < 2 ^ 53 ->
  CInt.in_range (Z.quot (start * pt_sum - (start - end_) * pt) pt_sum) ->
  dole_pressure start end_ pt pt_sum =
    Some (Z.quot (start * pt_sum - (start - end_) * pt) pt_sum).
Proof.
  intros HS Hx Hb Hr. unfold dole_pressure.
  destruct (Z.eqb_spec pt_sum 0) as [?|_]; [lia|].
  rewrite CIntFacts.sub_small by exact Hx.
  set (x := start - end_) in *. set (N := x * pt) in *.
  set (T := start * pt_sum - N) in *. set (k := Z.quot T pt_sum) in *.
  unfold CDouble.mul, CDouble.div, CDouble.sub, of_int.
  rewrite <- inject_Z_mult. fold N. rewrite fl_int by lia.
  assert (HqS : (0 < inject_Z pt_sum)%Q).
  { change 0%Q with (inject_Z 0). rewrite <- Zlt_Qlt. exact HS. }
  destruct (Qeq_bool (inject_Z pt_sum) 0) eqn:E.
  { apply Qeq_bool_eq in E. rewrite E in HqS. exfalso. revert HqS. apply Qlt_irrefl. }
  cbn [mbind option_bind]. f_equal.
  set (u := (inject_Z N / inject_Z pt_sum)%Q).
  enough (Ht : trunc (fl (inject_Z start - fl u)) = k).
  { rewrite to_int_trunc; rewrite Ht; [reflexivity | exact Hr]. }
  destruct (Z.eq_dec (Z.rem N pt_sum) 0) as [Hdiv|Hndiv].
  - (* the quotient is an integer: every step is exact *)
    assert (HN : N = pt_sum * Z.quot N pt_sum) by (apply Z.quot_exact; [lia|exact Hdiv]).
    set (c := Z.quot N pt_sum) in *.
    assert (Hu : (u == inject_Z c)%Q).
    { unfold u. rewrite HN, inject_Z_mult. field. lra. }
    assert (Hc : Z.abs c <= Z.abs N) by nia.
    assert (Hs : Z.abs start <= Z.abs (start * pt_sum)) by nia.
    rewrite (fl_comp _ _ Hu), fl_int by lia.
    assert (Hd : (inject_Z start - inject_Z c)%Q = inject_Z (start - c)).
    { unfold Qminus. rewrite <- inject_Z_opp, <- inject_Z_plus. reflexivity. }
    rewrite Hd, fl_int by lia.
    rewrite trunc_int. unfold k, T. rewrite HN.
    replace (start * pt_sum - pt_sum * c) with ((start - c) * pt_sum) by ring.
    symmetry. apply Z.quot_mul. lia.
  - (* the quotient is at least [1 / pt_sum] away from the integers, the
       rounding errors add up to less *)
    pose proof (sub_fl_error (inject_Z start) u) as He.
    set (w := fl (inject_Z start - fl u)) in *. clearbody w.
    assert (HuS : (u * inject_Z pt_sum == inject_Z N)%Q) by (unfold u; field; lra).
    clearbody u.
    assert (HtS : ((inject_Z start - u) * inject_Z pt_sum == inject_Z T)%Q).
    { unfold T. unfold Z.sub. rewrite inject_Z_plus, inject_Z_opp, inject_Z_mult.
      rewrite <- HuS. ring. }
    assert (HaN : (Qabs u * inject_Z pt_sum == inject_Z (Z.abs N))%Q).
    { rewrite <- inject_Z_abs, <- HuS, Qabs_Qmult, (Qabs_pos (inject_Z pt_sum)) by lra.
      reflexivity. }
    assert (Has : (Qabs (inject_Z start) * inject_Z pt_sum == inject_Z (Z.abs (start * pt_sum)))%Q).
    { rewrite <- inject_Z_abs, inject_Z_mult, Qabs_Qmult, (Qabs_pos (inject_Z pt_sum)) by lra.
      reflexivity. }
    assert (Hbq : (3 * inject_Z (Z.abs N) + inject_Z (Z.abs (start * pt_sum)) < 2 ^ 53)%Q).
    { change 3%Q with (inject_Z 3). rewrite <- inject_Z_mult, <- inject_Z_plus.
      rewrite <- (pow2_Z 53) by lia. rewrite <- Zlt_Qlt. exact Hb. }
    assert (HP : (2 ^ 53 == 9007199254740992)%Q) by reflexivity.
    rewrite HP in He, Hbq.
    (* |w - t| * pt_sum < 1 *)
    assert (Herr : (Qabs (w - (inject_Z start - u)) * inject_Z pt_sum < 1)%Q).
    { pose proof (Qabs_nonneg (w - (inject_Z start - u))).
      pose proof (Qabs_nonneg u). pose proof (Qabs_nonneg (inject_Z start)).
      generalize dependent (Qabs (w - (inject_Z start - u))).
      generalize dependent (Qabs u). generalize dependent (Qabs (inject_Z start)).
      generalize dependent (inject_Z (Z.abs N)).
      generalize dependent (inject_Z (Z.abs (start * pt_sum))).
      generalize dependent (inject_Z pt_sum). clear. intros. nra. }
    assert (Hlo : (inject_Z T - 1 < w * inject_Z pt_sum)%Q /\
                  (w * inject_Z pt_sum < inject_Z T + 1)%Q).
    { rewrite <- HtS.
      pose proof (Qle_Qabs (w - (inject_Z start - u))) as A1.
      pose proof (Qle_Qabs (- (w - (inject_Z start - u)))) as A2.
      rewrite Qabs_opp in A2.
      generalize dependent (Qabs (w - (inject_Z start - u))).
      generalize dependent (inject_Z pt_sum). generalize dependent (inject_Z start).
      clear. intros. nra. }
    destruct Hlo as [Hlo Hhi].
    assert (Hrem : T = pt_sum * k + Z.rem T pt_sum) by (apply Z.quot_rem; lia).
    assert (Hrem0 : Z.rem T pt_sum <> 0).
    { intros Hc. apply Hndiv. 
      assert (HT : (pt_sum | T)) by (apply Z.rem_divide; [lia|exact Hc]).
      apply Z.rem_divide; [lia|].
      replace N with (start * pt_sum - T) by (unfold T; ring).
      apply Z.divide_sub_r; [apply Z.divide_factor_r | exact HT]. }
    assert (HTq : (inject_Z T == inject_Z pt_sum * inject_Z k + inject_Z (Z.rem T pt_sum))%Q).
    { rewrite <- inject_Z_mult, <- inject_Z_plus, <- Hrem. reflexivity. }
    destruct (Z_lt_le_dec T 0) as [Hneg|Hpos].
    + pose proof (Z.rem_bound_abs T pt_sum ltac:(lia)) as Hrb.
      pose proof (Z.rem_nonpos T pt_sum ltac:(lia) ltac:(lia)) as Hrn.
      assert (Hk0 : k <= 0) by (unfold k; apply Z.quot_le_upper_bound; lia).
      apply trunc_unique_neg; [exact Hk0|].
      assert (Hr1 : (inject_Z (Z.rem T pt_sum) <= - (1))%Q).
      { change (- (1))%Q with (inject_Z (-1)). rewrite <- Zle_Qle. lia. }
      assert (Hr2 : (1 - inject_Z pt_sum <= inject_Z (Z.rem T pt_sum))%Q).
      { change 1%Q with (inject_Z 1). unfold Qminus. rewrite <- inject_Z_opp, <- inject_Z_plus, <- Zle_Qle. lia. }
      unfold Z.sub. rewrite inject_Z_plus. change (inject_Z (-1)) with (- (1))%Q.
      exact (between_neg _ _ _ _ _ HqS Hlo Hhi HTq Hr1 Hr2).
    + pose proof (Z.rem_bound_pos T pt_sum Hpos HS) as Hrb.
      assert (Hk0 : 0 <= k) by (unfold k; apply Z.quot_pos; lia).
      apply trunc_unique_pos; [exact Hk0|].
      assert (Hr1 : (1 <= inject_Z (Z.rem T pt_sum))%Q).
      { change 1%Q with (inject_Z 1). rewrite <- Zle_Qle. lia. }
      assert (Hr2 : (inject_Z (Z.rem T pt_sum) <= inject_Z pt_sum - 1)%Q).
      { change 1%Q with (inject_Z 1). unfold Qminus. rewrite <- inject_Z_opp, <- inject_Z_plus, <- Zle_Qle. lia. }
      rewrite inject_Z_plus. change (inject_Z 1) with 1%Q.
      exact (between_pos _ _ _ _ _ HqS Hlo Hhi HTq Hr1 Hr2).
Qed.
End DolePressure.

(** ** The redistribution loop against its specification *)

Section Redistribution.
Import CIntFacts.

Lemma runs_split tmp next :
  runs (tmp :: next) = fst (split_run tmp next) :: runs (snd (split_run tmp next)).
Proof.
  revert tmp. induction next as [|t next' IH]; intros tmp; cbn [runs split_run].
  - destruct (negb (pr_track.end_ tmp =? 0)); reflexivity.
  - destruct (negb (pr_track.end_ tmp =? 0)) eqn:E; [reflexivity|].
    specialize (IH t). cbn [runs] in IH. rewrite IH.
    destruct (split_run t next') as [run rest]. reflexivity.
Qed.

Lemma split_run_app tmp next :
  fst (split_run tmp next) ++ snd (split_run tmp next) = tmp :: next.
Proof.
  revert tmp. induction next as [|t next' IH]; intros tmp; cbn [split_run].
  - destruct (negb (pr_track.end_ tmp =? 0)); reflexivity.
  - destruct (negb (pr_track.end_ tmp =? 0)); [reflexivity|].
    specialize (IH t). destruct (split_run t next') as [run rest].
    cbn in *. rewrite IH. reflexivity.
Qed.

Lemma split_run_cons tmp next :
  exists run', fst (split_run tmp next) = tmp :: run'.
Proof.
  destruct next as [|t next']; cbn [split_run].
  - destruct (negb (pr_track.end_ tmp =? 0)); exists []; reflexivity.
  - destruct (negb (pr_track.end_ tmp =? 0)); [exists []; reflexivity|].
    destruct (split_run t next') as [run rest]. exists run. reflexivity.
Qed.

Lemma run_pressure_time_app l1 l2 :
  run_pressure_time (l1 ++ l2) = run_pressure_time l1 + run_pressure_time l2.
Proof.
  induction l1 as [|s l1 IH]; cbn; [reflexivity|].
  unfold run_pressure_time in IH. rewrite IH. unfold run_pressure_time. lia.
Qed.

Lemma run_pressure_time_nonneg l :
  Forall (fun s => 0 <= pr_track.pressure_time s) l -> 0 <= run_pressure_time l.
Proof.
  induction 1 as [|s l Hs _ IH]; cbn; [lia|]. unfold run_pressure_time in IH. lia.
Qed.

(** The first loop finds the total pressure-time, the end pressure and the
    length of the first run. *)
Lemma scan_run_spec start acc tmp next :
  0 <= acc ->
  Forall (fun s => 0 <= pr_track.pressure_time s) (tmp :: next) ->
  acc + run_pressure_time (tmp :: next) <= 2 ^ 30 ->
  let run := fst (split_run tmp next) in
  scan_run start acc tmp next =
    (acc + run_pressure_time run,
     if run_known_end run =? 0 then start else run_known_end run,
     pred (length run)).
Proof.
  revert acc tmp. induction next as [|t next' IH]; intros acc tmp Hacc Hpt Hsum;
    cbn [scan_run split_run].
  - inversion_clear Hpt as [|? ? Ht _]. cbn in Hsum.
    rewrite add_small by (unfold CInt.in_range, CInt.INT_MIN, CInt.INT_MAX; lia).
    destruct (pr_track.end_ tmp =? 0) eqn:E; cbn [negb fst];
      unfold run_known_end; cbn; rewrite E, Z.add_0_r; reflexivity.
  - inversion Hpt as [|? ? Ht Hnext]; subst.
    pose proof (run_pressure_time_nonneg _ Hnext) as Hnn.
    change (run_pressure_time (tmp :: t :: next'))
      with (pr_track.pressure_time tmp + run_pressure_time (t :: next')) in Hsum.
    rewrite add_small by (unfold CInt.in_range, CInt.INT_MIN, CInt.INT_MAX; lia).
    destruct (pr_track.end_ tmp =? 0) eqn:E; cbn [negb fst].
    + rewrite IH by (try assumption; lia).
      destruct (split_run_cons t next') as [run' Hrun'].
      destruct (split_run t next') as [run rest]. cbn [fst] in *. subst run.
      apply pair_equal_spec; split; [apply pair_equal_spec; split|].
      * change (run_pressure_time (tmp :: t :: run'))
          with (pr_track.pressure_time tmp + run_pressure_time (t :: run')). lia.
      * reflexivity.
      * reflexivity.
    + unfold run_known_end. cbn. rewrite E, Z.add_0_r. reflexivity.
Qed.

(** Within the range of [chain_in_range] the double arithmetic of
    [dole_pressure] gives the exact fraction, truncated. *)
Lemma dole_pressure_reconciled start end_ pt pt_sum :
  Z.abs start <= 2 ^ 20 -> Z.abs end_ <= 2 ^ 20 ->
  0 <= pt <= pt_sum -> pt_sum <= 2 ^ 30 ->
  dole_pressure start end_ pt pt_sum = Some (reconciled start end_ pt pt_sum).
Proof.
  intros Hs He Hpt HS. unfold reconciled.
  destruct (Z.eqb_spec pt_sum 0) as [->|Hnz]; [reflexivity|].
  assert (Hx : Z.abs (start - end_) <= 2 ^ 21) by lia.
  assert (HN : Z.abs ((start - end_) * pt) <= 2 ^ 21 * 2 ^ 30).
  { rewrite Z.abs_mul, (Z.abs_eq pt) by lia. apply Z.mul_le_mono_nonneg; lia. }
  assert (HsS : Z.abs (start * pt_sum) <= 2 ^ 20 * 2 ^ 30).
  { rewrite Z.abs_mul, (Z.abs_eq pt_sum) by lia. apply Z.mul_le_mono_nonneg; lia. }
  apply dole_pressure_exact; [lia | | lia | ].
  - unfold CInt.in_range, CInt.INT_MIN, CInt.INT_MAX. lia.
  - (* the fraction lies between [start] and [end] *)
    set (T := start * pt_sum - (start - end_) * pt).
    assert (HT : Z.abs T <= 2 ^ 20 * pt_sum).
    { replace T with (start * (pt_sum - pt) + end_ * pt) by (unfold T; ring).
      eapply Z.le_trans; [apply Z.abs_triangle|].
      rewrite !Z.abs_mul, (Z.abs_eq pt), (Z.abs_eq (pt_sum - pt)) by lia.
      nia. }
    assert (Hq : Z.abs (Z.quot T pt_sum) <= 2 ^ 20).
    { rewrite <- Z.quot_abs by lia. rewrite (Z.abs_eq pt_sum) by lia.
      apply Z.quot_le_upper_bound; [lia|]. rewrite Z.mul_comm. exact HT. }
    unfold CInt.in_range, CInt.INT_MIN, CInt.INT_MAX. lia.
Qed.

(** The second loop writes the reconciled pressures of a run. *)
Lemma dole_run_spec start end_ pt_sum pt cur steps next :
  Z.abs start <= 2 ^ 20 -> Z.abs end_ <= 2 ^ 20 -> pt_sum <= 2 ^ 30 ->
  0 <= pt ->
  (steps <= length next)%nat ->
  Forall (fun s => 0 <= pr_track.pressure_time s) (take (S steps) (cur :: next)) ->
  pt + run_pressure_time (take (S steps) (cur :: next)) <= pt_sum ->
  dole_run start end_ pt_sum pt cur steps next =
    Some (reconcile start end_ pt_sum pt (pr_track.start cur)
                    (take (S steps) (cur :: next)),
          drop steps next).
Proof.
  intros Hs He HS. revert pt cur next.
  induction steps as [|steps IH]; intros pt cur next Hpt Hlen Hnn Hsum.
  - cbn [take drop] in *. rewrite take_0 in *. inversion_clear Hnn as [|? ? Hc _].
    unfold run_pressure_time in Hsum. cbn [foldr] in Hsum. cbn [dole_run reconcile].
    rewrite add_small by (unfold CInt.in_range, CInt.INT_MIN, CInt.INT_MAX; lia).
    rewrite dole_pressure_reconciled by lia. reflexivity.
  - destruct next as [|cur' next']; [cbn in Hlen; lia|].
    change (take (S (S steps)) (cur :: cur' :: next'))
      with (cur :: take (S steps) (cur' :: next')) in *.
    inversion Hnn as [|? ? Hc Hnn']; subst.
    change (run_pressure_time (cur :: take (S steps) (cur' :: next')))
      with (pr_track.pressure_time cur
            + run_pressure_time (take (S steps) (cur' :: next'))) in Hsum.
    pose proof (run_pressure_time_nonneg _ Hnn') as Hrest.
    change (take (S steps) (cur' :: next')) with (cur' :: take steps next') in *.
    cbn [dole_run reconcile drop].
    rewrite add_small by (unfold CInt.in_range, CInt.INT_MIN, CInt.INT_MAX; lia).
    rewrite dole_pressure_reconciled by lia. cbn [mbind option_bind].
    set (p := reconciled start end_ (pt + pr_track.pressure_time cur) pt_sum).
    rewrite IH; [reflexivity | lia | cbn in Hlen; lia | | ].
    + inversion_clear Hnn' as [|? ? Hc' Hn'']. constructor; assumption.
    + change (take (S steps) (pr_track.set_start p cur' :: next'))
        with (pr_track.set_start p cur' :: take steps next').
      unfold run_pressure_time in Hsum |- *.
      cbn [foldr pr_track.set_start pr_track.pressure_time] in Hsum |- *. lia.
Qed.

Lemma reconcile_ext start end_ pt_sum pt pressure (l l' : list pr_track.t) :
  times <$> l = times <$> l' ->
  reconcile start end_ pt_sum pt pressure l =
  reconcile start end_ pt_sum pt pressure l'.
Proof.
  revert pt pressure l'. induction l as [|s l IH]; intros pt pressure [|s' l'] H;
    try discriminate; [reflexivity|].
  cbn in H. injection H as H1 H2 H3 H4. cbn [reconcile].
  rewrite H1, H2, H3. f_equal. apply IH. exact H4.
Qed.

Lemma times_alter_set_end v (i : nat) (l : list pr_track.t) :
  times <$> alter (pr_track.set_end v) i l = times <$> l.
Proof.
  revert i. induction l as [|s l IH]; intros [|i]; cbn; try reflexivity.
  f_equal. apply IH.
Qed.

Lemma run_pressure_time_ext (l l' : list pr_track.t) :
  times <$> l = times <$> l' -> run_pressure_time l = run_pressure_time l'.
Proof.
  revert l'. induction l as [|s l IH]; intros [|s' l'] H; try discriminate;
    [reflexivity|].
  cbn in H. injection H as _ _ H3 H4. unfold run_pressure_time in *.
  cbn [foldr]. rewrite H3, (IH _ H4). reflexivity.
Qed.

Lemma pressure_time_nonneg_ext (l l' : list pr_track.t) :
  times <$> l = times <$> l' ->
  Forall (fun s => 0 <= pr_track.pressure_time s) l ->
  Forall (fun s => 0 <= pr_track.pressure_time s) l'.
Proof.
  revert l'. induction l as [|s l IH]; intros [|s' l'] H Hl; try discriminate;
    [constructor|].
  cbn in H. injection H as _ _ H3 H4. inversion_clear Hl as [|? ? Hs Hl'].
  constructor; [rewrite <- H3; exact Hs | exact (IH _ H4 Hl')].
Qed.

Lemma run_known_end_bound run :
  Forall (fun s => Z.abs (pr_track.start s) <= 2 ^ 20 /\
                   Z.abs (pr_track.end_ s) <= 2 ^ 20 /\
                   0 <= pr_track.pressure_time s) run ->
  Z.abs (run_known_end run) <= 2 ^ 20.
Proof.
  intros H. unfold run_known_end. destruct (last run) as [s|] eqn:E; [|cbn; lia].
  apply last_Some_elem_of in E. rewrite Forall_forall in H.
  destruct (H s E) as (_ & He & _). exact He.
Qed.

Lemma chain_in_range_app l1 l2 :
  chain_in_range (l1 ++ l2) -> chain_in_range l1 /\ chain_in_range l2.
Proof.
  unfold chain_in_range. rewrite Forall_app, run_pressure_time_app.
  intros [[H1 H2] Hs].
  assert (0 <= run_pressure_time l1).
  { apply run_pressure_time_nonneg. eapply Forall_impl; [exact H1|]. cbn. tauto. }
  assert (0 <= run_pressure_time l2).
  { apply run_pressure_time_nonneg. eapply Forall_impl; [exact H2|]. cbn. tauto. }
  repeat split; try assumption; lia.
Qed.

Lemma fill_segments_spec fuel chain :
  (length chain <= fuel)%nat -> chain_in_range chain ->
  fill_segments fuel chain = Some (redistribute chain).
Proof.
  revert chain. induction fuel as [|fuel IH]; intros [|head next] Hlen Hr;
    try reflexivity; [cbn in Hlen; lia|].
  cbn [fill_segments].
  pose proof (split_run_app head next) as Happ.
  pose proof (runs_split head next) as Hruns.
  destruct (split_run_cons head next) as [run' Hrun].
  destruct (split_run head next) as [run rest] eqn:Hsplit. cbn [fst snd] in *. subst run.
  rewrite <- Happ in Hr. destruct (chain_in_range_app _ _ Hr) as [Hrun Hrest].
  destruct Hrun as [Hall Hsum].
  assert (Hnn : Forall (fun s => 0 <= pr_track.pressure_time s) (head :: next)).
  { rewrite <- Happ. destruct Hr as [Hr _]. eapply Forall_impl; [exact Hr|]. cbn. tauto. }
  assert (Htot : 0 + run_pressure_time (head :: next) <= 2 ^ 30).
  { rewrite <- Happ. destruct Hr as [_ Hr]. lia. }
  rewrite (scan_run_spec _ 0 head next ltac:(lia) Hnn Htot).
  rewrite Hsplit. cbn [fst length pred]. rewrite Z.add_0_l.
  set (S_ := run_pressure_time (head :: run')).
  set (endc := if run_known_end (head :: run') =? 0 then pr_track.start head
               else run_known_end (head :: run')).
  set (startc := if pr_track.start head =? 0 then endc else pr_track.start head).
  assert (Hstart : startc = run_start (head :: run')).
  { unfold startc, endc, run_start.
    destruct (Z.eqb_spec (pr_track.start head) 0) as [H0|H0]; [|reflexivity].
    destruct (Z.eqb_spec (run_known_end (head :: run')) 0); congruence. }
  assert (Hend : endc = run_end (head :: run')).
  { unfold endc, run_end, run_start.
    destruct (Z.eqb_spec (run_known_end (head :: run')) 0) as [H0|H0]; [|reflexivity].
    destruct (Z.eqb_spec (pr_track.start head) 0); congruence. }
  pose proof (run_known_end_bound _ Hall) as Hke.
  assert (Hhead : Z.abs (pr_track.start head) <= 2 ^ 20).
  { inversion_clear Hall as [|? ? (H1 & _) _]. exact H1. }
  assert (Hsb : Z.abs startc <= 2 ^ 20 /\ Z.abs endc <= 2 ^ 20).
  { unfold startc, endc.
    destruct (pr_track.start head =? 0), (run_known_end (head :: run') =? 0); lia. }
  destruct Hsb as [Hsb Heb].
  assert (Htake : take (S (length run')) (head :: next) = head :: run').
  { rewrite <- Happ. apply take_app_length'. reflexivity. }
  assert (Hdrop : drop (S (length run')) (head :: next) = rest).
  { rewrite <- Happ. apply drop_app_length'. reflexivity. }
  assert (Hsteps : (length run' <= length next)%nat).
  { apply (f_equal length) in Happ. rewrite length_app in Happ. cbn in Happ. lia. }
  destruct (alter (pr_track.set_end endc) (length run')
                  (pr_track.set_start startc head :: next)) as [|head' next'] eqn:Halt.
  { apply (f_equal length) in Halt. rewrite length_alter in Halt. discriminate. }
  assert (Htimes : times <$> (head' :: next') = times <$> (head :: next)).
  { rewrite <- Halt, times_alter_set_end. reflexivity. }
  assert (Hlen' : length next' = length next).
  { apply (f_equal length) in Htimes. rewrite !length_fmap in Htimes. cbn in Htimes. lia. }
  assert (Hs' : pr_track.start head' = startc).
  { destruct (length run'); cbn in Halt; injection Halt as <- _; reflexivity. }
  assert (Hdrop' : drop (length run') next' = rest).
  { rewrite <- Hdrop. change (drop (S (length run')) (head :: next))
      with (drop (length run') next).
    change (drop (length run') next') with (drop (S (length run')) (head' :: next')).
    rewrite <- Halt. rewrite drop_alter_lt by lia. reflexivity. }
  assert (Htake' : times <$> take (S (length run')) (head' :: next')
                   = times <$> (head :: run')).
  { rewrite fmap_take, Htimes, <- fmap_take, Htake. reflexivity. }
  rewrite dole_run_spec; try assumption; try lia.
  - cbn [mbind option_bind]. rewrite Hdrop'.
    rewrite IH; [| | exact Hrest].
    + cbn [mbind option_bind]. f_equal. unfold redistribute at 2.
      rewrite Hruns. cbn [map concat]. f_equal.
      unfold reconcile_run. rewrite <- Hstart, <- Hend, Hs'.
      apply reconcile_ext. exact Htake'.
    + apply (f_equal length) in Happ. rewrite length_app in Happ. cbn in Happ, Hlen. lia.
  - apply (pressure_time_nonneg_ext (head :: run')); [symmetry; exact Htake'|].
    eapply Forall_impl; [exact Hall|]. cbn. tauto.
  - rewrite (run_pressure_time_ext _ _ Htake'). fold S_. lia.
Qed.

Lemma fill_missing_segment_pressures_spec chain :
  chain_in_range chain ->
  fill_missing_segment_pressures chain = Some (redistribute chain).
Proof. apply fill_segments_spec. reflexivity. Qed.

End Redistribution.

(** ** The redistribution loop on every chain *)

Section RedistributionDouble.

Lemma scan_run_runs start acc tmp next :
  scan_run start acc tmp next =
    (int_pressure_time acc (fst (split_run tmp next)),
     if run_known_end (fst (split_run tmp next)) =? 0 then start
     else run_known_end (fst (split_run tmp next)),
     pred (length (fst (split_run tmp next)))).
Proof.
  revert acc tmp. induction next as [|t next' IH]; intros acc tmp;
    cbn [scan_run split_run].
  - destruct (pr_track.end_ tmp =? 0) eqn:E; cbn [negb fst];
      unfold run_known_end; cbn; rewrite E; reflexivity.
  - destruct (pr_track.end_ tmp =? 0) eqn:E; cbn [negb fst].
    + rewrite IH. destruct (split_run_cons t next') as [run' Hrun'].
      destruct (split_run t next') as [run rest]. cbn [fst] in *. subst run.
      reflexivity.
    + unfold run_known_end. cbn. rewrite E. reflexivity.
Qed.

Lemma dole_run_runs start end_ pt_sum pt cur (steps : nat) next :
  (steps <= length next)%nat ->
  dole_run start end_ pt_sum pt cur steps next =
    (done ← reconcile_double start end_ pt_sum pt (pr_track.start cur)
                             (take (S steps) (cur :: next));
     Some (done, drop steps next)).
Proof.
  revert pt cur next. induction steps as [|steps IH]; intros pt cur next Hlen.
  - cbn [take drop dole_run]. rewrite take_0. cbn [reconcile_double].
    destruct (dole_pressure _ _ _ _); reflexivity.
  - destruct next as [|cur' next']; [cbn in Hlen; lia|].
    change (take (S (S steps)) (cur :: cur' :: next'))
      with (cur :: take (S steps) (cur' :: next')).
    cbn [dole_run reconcile_double drop].
    destruct (dole_pressure _ _ _ _) as [p|]; [|reflexivity].
    cbn [mbind option_bind]. rewrite IH by (cbn in Hlen; lia).
    change (take (S steps) (pr_track.set_start p cur' :: next'))
      with (pr_track.set_start p cur' :: take steps next').
    change (take (S steps) (cur' :: next')) with (cur' :: take steps next').
    cbn [reconcile_double pr_track.set_start pr_track.start pr_track.t_start
         pr_track.t_end pr_track.pressure_time].
    destruct (dole_pressure _ _ _ _) as [p'|]; [|reflexivity].
    cbn [mbind option_bind].
    destruct (reconcile_double _ _ _ _ _ (take steps next')); reflexivity.
Qed.

Lemma reconcile_double_ext start end_ pt_sum pt pressure (l l' : list pr_track.t) :
  times <$> l = times <$> l' ->
  reconcile_double start end_ pt_sum pt pressure l =
  reconcile_double start end_ pt_sum pt pressure l'.
Proof.
  revert pt pressure l'. induction l as [|s l IH]; intros pt pressure [|s' l'] Heq;
    try discriminate; [reflexivity|].
  cbn in Heq. injection Heq as H1 H2 H3 H4. cbn [reconcile_double].
  rewrite H1, H2, H3. destruct (dole_pressure _ _ _ _) as [p|]; [|reflexivity].
  cbn [mbind option_bind]. rewrite (IH _ _ _ H4). reflexivity.
Qed.

Lemma int_pressure_time_ext acc (l l' : list pr_track.t) :
  times <$> l = times <$> l' -> int_pressure_time acc l = int_pressure_time acc l'.
Proof.
  revert acc l'. induction l as [|s l IH]; intros acc [|s' l'] Heq; try discriminate;
    [reflexivity|].
  cbn in Heq. injection Heq as _ _ H3 H4. unfold int_pressure_time in *.
  cbn [foldl]. rewrite H3. apply IH. exact H4.
Qed.

(** On every chain the loops compute, run by run, what the walk with the
    arithmetic of the code gives. *)
Lemma fill_segments_runs fuel chain :
  (length chain <= fuel)%nat ->
  fill_segments fuel chain = redistribute_double chain.
Proof.
  revert chain. induction fuel as [|fuel IH]; intros [|head next] Hlen;
    try reflexivity; [cbn in Hlen; lia|].
  cbn [fill_segments]. unfold redistribute_double.
  rewrite runs_split, scan_run_runs. cbn [reconcile_runs_double].
  pose proof (split_run_app head next) as Happ.
  destruct (split_run_cons head next) as [run' Hrun].
  destruct (split_run head next) as [run rest] eqn:Hsplit. cbn [fst snd] in *. subst run.
  cbn [length pred].
  set (endc := if run_known_end (head :: run') =? 0 then pr_track.start head
               else run_known_end (head :: run')).
  set (startc := if pr_track.start head =? 0 then endc else pr_track.start head).
  assert (Hstart : startc = run_start (head :: run')).
  { unfold startc, endc, run_start.
    destruct (Z.eqb_spec (pr_track.start head) 0) as [H0|H0]; [|reflexivity].
    destruct (Z.eqb_spec (run_known_end (head :: run')) 0); congruence. }
  assert (Hend : endc = run_end (head :: run')).
  { unfold endc, run_end, run_start.
    destruct (Z.eqb_spec (run_known_end (head :: run')) 0) as [H0|H0]; [|reflexivity].
    destruct (Z.eqb_spec (pr_track.start head) 0); congruence. }
  assert (Htake : take (S (length run')) (head :: next) = head :: run').
  { rewrite <- Happ. apply take_app_length'. reflexivity. }
  assert (Hdrop : drop (S (length run')) (head :: next) = rest).
  { rewrite <- Happ. apply drop_app_length'. reflexivity. }
  assert (Hsteps : (length run' <= length next)%nat).
  { apply (f_equal length) in Happ. rewrite length_app in Happ. cbn in Happ. lia. }
  destruct (alter (pr_track.set_end endc) (length run')
                  (pr_track.set_start startc head :: next)) as [|head' next'] eqn:Halt.
  { apply (f_equal length) in Halt. rewrite length_alter in Halt. discriminate. }
  assert (Htimes : times <$> (head' :: next') = times <$> (head :: next)).
  { rewrite <- Halt, times_alter_set_end. reflexivity. }
  assert (Hlen' : length next' = length next).
  { apply (f_equal length) in Htimes. rewrite !length_fmap in Htimes. cbn in Htimes. lia. }
  assert (Hs' : pr_track.start head' = startc).
  { destruct (length run'); cbn in Halt; injection Halt as <- _; reflexivity. }
  assert (Hdrop' : drop (length run') next' = rest).
  { rewrite <- Hdrop. change (drop (S (length run')) (head :: next))
      with (drop (length run') next).
    change (drop (length run') next') with (drop (S (length run')) (head' :: next')).
    rewrite <- Halt. rewrite drop_alter_lt by lia. reflexivity. }
  assert (Htake' : times <$> take (S (length run')) (head' :: next')
                   = times <$> (head :: run')).
  { rewrite fmap_take, Htimes, <- fmap_take, Htake. reflexivity. }
  rewrite dole_run_runs by lia.
  rewrite (reconcile_double_ext _ _ _ _ _ _ _ Htake'), Hs', Hdrop'.
  unfold reconcile_run_double. rewrite <- Hstart, <- Hend.
  destruct (reconcile_double startc endc _ 0 startc (head :: run')) as [done|];
    [|reflexivity].
  cbn [mbind option_bind]. rewrite IH.
  - reflexivity.
  - apply (f_equal length) in Happ. rewrite length_app in Happ. cbn in Happ, Hlen. lia.
Qed.

End RedistributionDouble.

(** ** The shape of a redistributed chain *)

Section RedistributeFacts.

Lemma redistribute_cons head next :
  redistribute (head :: next) =
    reconcile_run (fst (split_run head next))
      ++ redistribute (snd (split_run head next)).
Proof. unfold redistribute. rewrite runs_split. reflexivity. Qed.

Lemma length_reconcile start end_ pt_sum pt pressure run :
  length (reconcile start end_ pt_sum pt pressure run) = length run.
Proof.
  revert pt pressure. induction run as [|s run IH]; intros pt pressure;
    cbn [reconcile length]; [reflexivity|]. rewrite IH. reflexivity.
Qed.

Lemma split_run_length tmp next :
  (length (snd (split_run tmp next)) <= length next)%nat.
Proof.
  pose proof (split_run_app tmp next) as Happ.
  destruct (split_run_cons tmp next) as [run' Hrun]. rewrite Hrun in Happ.
  apply (f_equal length) in Happ. rewrite length_app in Happ. cbn in Happ. lia.
Qed.

Lemma length_redistribute chain : length (redistribute chain) = length chain.
Proof.
  remember (length chain) as n eqn:Hn. revert chain Hn.
  induction (lt_wf n) as [n _ IH]; intros [|head next] Hn; [subst n; reflexivity|].
  rewrite redistribute_cons, length_app.
  unfold reconcile_run. rewrite length_reconcile.
  pose proof (split_run_length head next) as Hlen.
  rewrite (IH (length (snd (split_run head next)))
              ltac:(cbn in Hn; lia) _ eq_refl).
  rewrite <- length_app, split_run_app. symmetry. exact Hn.
Qed.

(** The last end pressure that [reconcile] writes. *)
Lemma last_reconcile start end_ pt_sum pt pressure run s' :
  last (reconcile start end_ pt_sum pt pressure run) = Some s' ->
  pr_track.end_ s' = reconciled start end_ (pt + run_pressure_time run) pt_sum.
Proof.
  revert pt pressure. induction run as [|s run IH]; intros pt pressure H;
    [discriminate|].
  cbn [reconcile] in H. destruct run as [|s2 run].
  - cbn in H. injection H as <-. cbn. f_equal. lia.
  - change (run_pressure_time (s :: s2 :: run))
      with (pr_track.pressure_time s + run_pressure_time (s2 :: run)).
    rewrite Z.add_assoc. eapply IH. cbn [reconcile] in H |- *. exact H.
Qed.

Lemma reconciled_total start end_ pt_sum :
  pt_sum <> 0 -> reconciled start end_ pt_sum pt_sum = end_.
Proof.
  intros H. unfold reconciled. destruct (Z.eqb_spec pt_sum 0); [contradiction|].
  replace (start * pt_sum - (start - end_) * pt_sum) with (end_ * pt_sum) by ring.
  apply Z.quot_mul. exact H.
Qed.

Lemma runs_nil chain : runs chain = [] -> chain = [].
Proof.
  destruct chain as [|s next]; [reflexivity|]. rewrite runs_split. discriminate.
Qed.

(** The last run ends where the chain ends, and so does its
    redistribution. *)
Lemma last_run chain run :
  last (runs chain) = Some run ->
  last run = last chain /\ last (redistribute chain) = last (reconcile_run run).
Proof.
  remember (length chain) as n eqn:Hn. revert chain Hn.
  induction (lt_wf n) as [n _ IH]; intros [|head next] Hn; [discriminate|].
  rewrite runs_split, redistribute_cons.
  pose proof (split_run_length head next) as Hlen.
  pose proof (split_run_app head next) as Happ.
  destruct (split_run_cons head next) as [run' Hrun].
  destruct (split_run head next) as [r rest]. cbn [fst snd] in *. subst r.
  destruct rest as [|t rest'].
  - cbn [runs last]. intros [= <-]. rewrite app_nil_r in *. rewrite Happ. auto.
  - intros Hlast.
    assert (Hr : last (runs (t :: rest')) = Some run).
    { destruct (runs (t :: rest')) as [|r2 rs] eqn:E;
        [apply runs_nil in E; discriminate|]. exact Hlast. }
    destruct (IH (length (t :: rest')) ltac:(cbn in *; lia) _ eq_refl Hr) as [H1 H2].
    rewrite <- Happ. rewrite !last_app.
    rewrite H1, <- H2.
    assert (Hne : redistribute (t :: rest') <> []).
    { intros Hc. apply (f_equal length) in Hc. rewrite length_redistribute in Hc.
      discriminate. }
    destruct (redistribute (t :: rest')) as [|r0 rr] eqn:E; [contradiction|].
    split; [cbn [last]; destruct (last (t :: rest')) eqn:E2; [reflexivity|]|].
    + apply last_None in E2. discriminate.
    + destruct (last (r0 :: rr)) eqn:E3; [reflexivity|].
      apply last_None in E3. discriminate.
Qed.

End RedistributeFacts.

Lemma chain_in_range_dec chain :
  forallb (fun s => (Z.abs (pr_track.start s) <=? 2 ^ 20)
                    && (Z.abs (pr_track.end_ s) <=? 2 ^ 20)
                    && (0 <=? pr_track.pressure_time s)) chain
  && (run_pressure_time chain <=? 2 ^ 30) = true ->
  chain_in_range chain.
Proof.
  intros H. apply andb_prop in H as [H1 H2]. split; [|apply Z.leb_le, H2].
  rewrite forallb_forall in H1. apply Forall_forall. intros s Hs.
  apply list_elem_of_In in Hs. specialize (H1 s Hs).
  apply andb_prop in H1 as [H1 H3]. apply andb_prop in H1 as [H1 H4].
  repeat split; apply Z.leb_le; assumption.
Qed.

Section WorkloadScaling.

Lemma reconciled_zero start end_ pt_sum : reconciled start end_ 0 pt_sum = start.
Proof.
  unfold reconciled. destruct (Z.eqb_spec pt_sum 0); [reflexivity|].
  rewrite Z.mul_0_r, Z.sub_0_r. apply Z.quot_mul. assumption.
Qed.

(** The pressures at the two ends of the [i]th segment of a run. *)
Lemma reconcile_lookup start end_ pt_sum pt run (i : nat) s' :
  Forall (fun s => 0 <= pr_track.pressure_time s) run ->
  reconcile start end_ pt_sum pt (reconciled start end_ pt pt_sum) run !! i = Some s' ->
  exists P,
    pt <= P /\ 0 <= pr_track.pressure_time s' /\
    P + pr_track.pressure_time s' <= pt + run_pressure_time run /\
    pr_track.start s' = reconciled start end_ P pt_sum /\
    pr_track.end_ s' = reconciled start end_ (P + pr_track.pressure_time s') pt_sum.
Proof.
  intros Hnn. revert pt i. induction Hnn as [|s run Hs Hnn IH]; intros pt i H;
    [destruct i; discriminate|].
  pose proof (run_pressure_time_nonneg _ Hnn) as Hrest.
  change (run_pressure_time (s :: run))
    with (pr_track.pressure_time s + run_pressure_time run).
  cbn [reconcile] in H. destruct i as [|i].
  - cbn in H. injection H as <-. exists pt. cbn. repeat split; try reflexivity; lia.
  - cbn [lookup list_lookup] in H. change (reconcile start end_ pt_sum (pt + pr_track.pressure_time s)
       (reconciled start end_ (pt + pr_track.pressure_time s) pt_sum) run !! i = Some s') in H.
    destruct (IH _ _ H) as (P & H1 & H2 & H3 & H4 & H5).
    exists P. repeat split; try assumption; lia.
Qed.

Lemma drop_bound s e S_ P a Q b :
  0 <= e < s -> 0 <= P -> 0 <= Q -> 0 <= b < a ->
  P + a <= S_ -> Q + b <= S_ ->
  reconciled s e Q S_ - reconciled s e (Q + b) S_ - 1
    <= reconciled s e P S_ - reconciled s e (P + a) S_.
Proof.
  intros Hse HP HQ Hba HPa HQb. unfold reconciled.
  destruct (Z.eqb_spec S_ 0) as [?|_]; [lia|].
  assert (HS : 0 < S_) by lia.
  assert (HT : forall p, 0 <= p <= S_ -> 0 <= s * S_ - (s - e) * p) by (intros; nia).
  rewrite !Z.quot_div_nonneg by (try apply HT; lia).
  pose proof (Z.div_mod (s * S_ - (s - e) * Q) S_ ltac:(lia)) as D1.
  pose proof (Z.mod_pos_bound (s * S_ - (s - e) * Q) S_ HS) as M1.
  pose proof (Z.div_mod (s * S_ - (s - e) * (Q + b)) S_ ltac:(lia)) as D2.
  pose proof (Z.mod_pos_bound (s * S_ - (s - e) * (Q + b)) S_ HS) as M2.
  pose proof (Z.div_mod (s * S_ - (s - e) * P) S_ ltac:(lia)) as D3.
  pose proof (Z.mod_pos_bound (s * S_ - (s - e) * P) S_ HS) as M3.
  pose proof (Z.div_mod (s * S_ - (s - e) * (P + a)) S_ ltac:(lia)) as D4.
  pose proof (Z.mod_pos_bound (s * S_ - (s - e) * (P + a)) S_ HS) as M4.
  set (d1 := (s * S_ - (s - e) * Q) / S_) in *.
  set (d2 := (s * S_ - (s - e) * (Q + b)) / S_) in *.
  set (d3 := (s * S_ - (s - e) * P) / S_) in *.
  set (d4 := (s * S_ - (s - e) * (P + a)) / S_) in *.
  set (m1 := (s * S_ - (s - e) * Q) mod S_) in *.
  set (m2 := (s * S_ - (s - e) * (Q + b)) mod S_) in *.
  set (m3 := (s * S_ - (s - e) * P) mod S_) in *.
  set (m4 := (s * S_ - (s - e) * (P + a)) mod S_) in *.
  assert (Hab : (s - e) * b <= (s - e) * a) by nia.
  assert (K : S_ * (d1 - d2 - 2) < S_ * (d3 - d4)) by nia.
  apply Z.mul_lt_mono_pos_l in K; lia.
Qed.

End WorkloadScaling.

Lemma length_concat_reconcile rs :
  length (concat (map reconcile_run rs)) = length (concat rs).
Proof.
  induction rs as [|r rs IH]; [reflexivity|].
  cbn [map concat]. rewrite !length_app, IH. unfold reconcile_run.
  rewrite length_reconcile. reflexivity.
Qed.

Lemma concat_runs chain : concat (runs chain) = chain.
Proof.
  remember (length chain) as n eqn:Hn. revert chain Hn.
  induction (lt_wf n) as [n _ IH]; intros [|head next] Hn; [reflexivity|].
  rewrite runs_split. cbn [concat].
  pose proof (split_run_length head next) as Hlen.
  rewrite (IH (length (snd (split_run head next))) ltac:(cbn in Hn; lia) _ eq_refl).
  apply split_run_app.
Qed.

(** ** Claims about the segment-level redistribution *)

(** The pressures at the two ends of the [i]th segment of a reconciled
    run, by the pressure-time of the run up to that segment. *)
Lemma reconcile_lookup_formula start end_ pt_sum pt pressure run (i : nat) s' :
  reconcile start end_ pt_sum pt pressure run !! i = Some s' ->
  pr_track.end_ s'
  = reconciled start end_ (pt + run_pressure_time (take (S i) run)) pt_sum /\
  pr_track.start s'
  = match i with
    | O => pressure
    | S j => reconciled start end_ (pt + run_pressure_time (take (S j) run)) pt_sum
    end.
Proof.
  revert pt pressure i. induction run as [|s run IH]; intros pt pressure i H;
    [destruct i; discriminate|].
  cbn [reconcile] in H. destruct i as [|i].
  - cbn in H. injection H as <-. cbn [pr_track.end_ pr_track.start].
    unfold run_pressure_time. cbn. rewrite Z.add_0_r. split; reflexivity.
  - cbn [lookup list_lookup] in H.
    change (reconcile start end_ pt_sum (pt + pr_track.pressure_time s)
              (reconciled start end_ (pt + pr_track.pressure_time s) pt_sum) run !! i
            = Some s') in H.
    destruct (IH _ _ _ H) as [He Hs].
    change (take (S (S i)) (s :: run)) with (s :: take (S i) run).
    change (run_pressure_time (s :: take (S i) run))
      with (pr_track.pressure_time s + run_pressure_time (take (S i) run)).
    rewrite Z.add_assoc. split; [exact He|].
    rewrite Hs. destruct i as [|j].
    + unfold run_pressure_time. cbn. rewrite Z.add_0_r. reflexivity.
    + change (take (S (S j)) (s :: run)) with (s :: take (S j) run).
      change (run_pressure_time (s :: take (S j) run))
        with (pr_track.pressure_time s + run_pressure_time (take (S j) run)).
      rewrite Z.add_assoc. reflexivity.
Qed.

(** C4, amended: in a chain within range the redistribution gives every
    segment of every maximal run the end pressure
    [start - (start - end) * pt / pt_sum], the fraction taken exactly and
    truncated towards zero, with [start] the first start pressure of the run
    (or, when that is 0, the end pressure the run closes with), [end] the end
    pressure the run closes with (or [start] when there is none), [pt] the
    pressure-time of the run up to and with the segment and [pt_sum] the
    pressure-time of the run; the end pressure is [start] when [pt_sum] is 0;
    the first segment of the run starts at [start], and every other segment
    at the end pressure of the segment before it. *)
Theorem redistribution_formula chain :
  chain_in_range chain ->
  exists chain',
    fill_missing_segment_pressures chain = Some chain' /\
    length chain' = length chain /\
    forall rs1 run rs2,
      runs chain = rs1 ++ run :: rs2 ->
      forall (i : nat) A,
        (i < length run)%nat ->
        chain' !! (length (concat rs1) + i)%nat = Some A ->
        let start := run_start run in
        let end_ := run_end run in
        let pt_sum := run_pressure_time run in
        let pt := run_pressure_time (take (S i) run) in
        pr_track.end_ A
        = (if pt_sum =? 0 then start
           else Z.quot (start * pt_sum - (start - end_) * pt) pt_sum) /\
        (i = 0%nat -> pr_track.start A = start) /\
        (forall B,
            (S i < length run)%nat ->
            chain' !! (length (concat rs1) + S i)%nat = Some B ->
            pr_track.start B = pr_track.end_ A).
Proof.
  intros Hr.
  exists (redistribute chain). split; [apply fill_missing_segment_pressures_spec, Hr|].
  split; [apply length_redistribute|].
  intros rs1 run rs2 Hruns i A Hi HA.
  assert (Hlook : forall (j : nat),
             (j < length run)%nat ->
             redistribute chain !! (length (concat rs1) + j)%nat
             = reconcile_run run !! j).
  { intros j Hj. unfold redistribute. rewrite Hruns, map_app, concat_app.
    cbn [map concat]. rewrite <- length_concat_reconcile.
    rewrite lookup_app_r, Nat.add_comm, Nat.add_sub by lia.
    apply lookup_app_l. unfold reconcile_run. rewrite length_reconcile. exact Hj. }
  rewrite (Hlook i Hi) in HA. unfold reconcile_run in HA.
  destruct (reconcile_lookup_formula _ _ _ _ _ _ _ _ HA) as [He Hs].
  rewrite Z.add_0_l in He. cbn zeta. split; [exact He|]. split.
  - intros ->. exact Hs.
  - intros B Hi' HB. rewrite (Hlook (S i) Hi') in HB. unfold reconcile_run in HB.
    destruct (reconcile_lookup_formula _ _ _ _ _ _ _ _ HB) as [_ Hs'].
    rewrite Z.add_0_l in Hs'. rewrite Hs', He. reflexivity.
Qed.

Lemma redistribution_formula_witness :
  exists chain',
    fill_missing_segment_pressures sample_run = Some chain' /\
    length chain' = length sample_run /\
    forall rs1 run rs2,
      runs sample_run = rs1 ++ run :: rs2 ->
      forall (i : nat) A,
        (i < length run)%nat ->
        chain' !! (length (concat rs1) + i)%nat = Some A ->
        let start := run_start run in
        let end_ := run_end run in
        let pt_sum := run_pressure_time run in
        let pt := run_pressure_time (take (S i) run) in
        pr_track.end_ A
        = (if pt_sum =? 0 then start
           else Z.quot (start * pt_sum - (start - end_) * pt) pt_sum) /\
        (i = 0%nat -> pr_track.start A = start) /\
        (forall B,
            (S i < length run)%nat ->
            chain' !! (length (concat rs1) + S i)%nat = Some B ->
            pr_track.start B = pr_track.end_ A).
Proof.
  apply (redistribution_formula sample_run).
  apply chain_in_range_dec. reflexivity.
Defined.

(** C4 as stated fails: [large_segment] is one run from 738432838 to 511555
    whose only segment has all of the pressure-time, so that the formula gives
    the end pressure 511555 without any remainder; the roundings of the
    [double] arithmetic make the code assign 511554. *)
Lemma redistribution_formula_counterexample :
  exists chain' A,
    runs large_segment = [large_segment] /\
    fill_missing_segment_pressures large_segment = Some chain' /\
    chain' !! 0%nat = Some A /\
    let start := run_start large_segment in
    let end_ := run_end large_segment in
    let pt_sum := run_pressure_time large_segment in
    let pt := run_pressure_time (take 1 large_segment) in
    pt_sum <> 0 /\
    start * pt_sum - (start - end_) * pt = 511555 * pt_sum /\
    Z.quot (start * pt_sum - (start - end_) * pt) pt_sum = 511555 /\
    pr_track.end_ A = 511554.
Proof.
  exists [pr_track.mk 738432838 511554 0 10 987745430],
         (pr_track.mk 738432838 511554 0 10 987745430).
  split; [reflexivity|]. split; [vm_compute; reflexivity|]. split; [reflexivity|].
  cbn zeta. split; [discriminate|]. split; [reflexivity|]. split; reflexivity.
Qed.

(** C3, amended: when the first start pressure and the last end pressure
    of a chain within range are known, the redistribution keeps the first
    start pressure; it keeps the last end pressure when the last run has a
    pressure-time that is not 0, and sets it to the start pressure of that run
    when the pressure-time is 0. *)
Theorem boundary_exactness chain first final :
  chain_in_range chain ->
  head chain = Some first -> last chain = Some final ->
  pr_track.start first <> 0 -> pr_track.end_ final <> 0 ->
  exists chain' run,
    fill_missing_segment_pressures chain = Some chain' /\
    last (runs chain) = Some run /\
    pr_track.start <$> head chain' = Some (pr_track.start first) /\
    pr_track.end_ <$> last chain'
      = Some (if run_pressure_time run =? 0 then run_start run
              else pr_track.end_ final).
Proof.
  intros Hr Hfirst Hfinal Hs He.
  destruct chain as [|head next]; [discriminate|]. injection Hfirst as ->.
  destruct (last (runs (first :: next))) as [run|] eqn:Hlast.
  2:{ apply last_None, runs_nil in Hlast. discriminate. }
  exists (redistribute (first :: next)), run.
  split; [apply fill_missing_segment_pressures_spec, Hr|]. split; [reflexivity|].
  split.
  - rewrite redistribute_cons.
    destruct (split_run_cons first next) as [run' ->].
    unfold reconcile_run. cbn [reconcile app head fmap option_fmap option_map run_start].
    destruct (Z.eqb_spec (pr_track.start first) 0); [contradiction|reflexivity].
  - destruct (last_run _ _ Hlast) as [H1 H2]. rewrite H2.
    assert (Hke : run_known_end run = pr_track.end_ final).
    { unfold run_known_end. rewrite H1, Hfinal. reflexivity. }
    assert (Hre : run_end run = pr_track.end_ final).
    { unfold run_end. rewrite Hke. destruct (Z.eqb_spec (pr_track.end_ final) 0);
        [contradiction|reflexivity]. }
    destruct (last (reconcile_run run)) as [s'|] eqn:Hs'.
    + cbn. f_equal. unfold reconcile_run in Hs'. apply last_reconcile in Hs'.
      rewrite Hs', Z.add_0_l.
      destruct (Z.eqb_spec (run_pressure_time run) 0) as [H0|Hpt].
      * rewrite H0. reflexivity.
      * rewrite reconciled_total, Hre by exact Hpt. reflexivity.
    + apply last_None in Hs'. apply (f_equal length) in Hs'.
      unfold reconcile_run in Hs'. rewrite length_reconcile in Hs'.
      destruct run; [|discriminate]. rewrite Hfinal in H1. discriminate.
Qed.

Lemma boundary_exactness_witness :
  exists chain' run,
    fill_missing_segment_pressures sample_run = Some chain' /\
    last (runs sample_run) = Some run /\
    pr_track.start <$> head chain' = Some 200 /\
    pr_track.end_ <$> last chain'
      = Some (if run_pressure_time run =? 0 then run_start run else 199).
Proof.
  apply (boundary_exactness sample_run (pr_track.mk 200 0 0 10 3)
                            (pr_track.mk 0 199 20 30 3)).
  - apply chain_in_range_dec. reflexivity.
  - reflexivity.
  - reflexivity.
  - discriminate.
  - discriminate.
Defined.

(** C3 as stated fails: a segment from 200 to 170 without pressure-time
    ends at 200 after the redistribution. *)
Lemma boundary_exactness_counterexample :
  exists first final chain',
    head flat_segment = Some first /\ last flat_segment = Some final /\
    pr_track.start first <> 0 /\ pr_track.end_ final <> 0 /\
    fill_missing_segment_pressures flat_segment = Some chain' /\
    pr_track.end_ <$> last chain' <> Some (pr_track.end_ final).
Proof.
  exists (pr_track.mk 200 170 0 10 0), (pr_track.mk 200 170 0 10 0),
         [pr_track.mk 200 200 0 10 0].
  repeat split; try discriminate; reflexivity.
Qed.

(** Beyond the range the roundings of the double arithmetic show: a segment
    from 738432838 to 511555 with a pressure-time of 987745430 ends one unit
    low. *)
Example boundary_rounding_beyond_range :
  fill_missing_segment_pressures [pr_track.mk 738432838 511555 0 10 987745430]
  = Some [pr_track.mk 738432838 511554 0 10 987745430].
Proof. vm_compute. reflexivity. Qed.

(** C6, amended: in a run of a chain within range whose pressure falls from
    [start] to an [end] that is not negative, a segment with strictly more
    pressure-time than another is assigned a pressure drop that is at most
    one unit smaller than the drop of the other. *)
Theorem workload_scaling chain rs1 run rs2 :
  chain_in_range chain ->
  runs chain = rs1 ++ run :: rs2 ->
  0 <= run_end run < run_start run ->
  exists chain',
    fill_missing_segment_pressures chain = Some chain' /\
    forall (i j : nat) A B,
      (i < length run)%nat -> (j < length run)%nat ->
      chain' !! (length (concat rs1) + i)%nat = Some A ->
      chain' !! (length (concat rs1) + j)%nat = Some B ->
      pr_track.pressure_time B < pr_track.pressure_time A ->
      (pr_track.start B - pr_track.end_ B) - 1
        <= pr_track.start A - pr_track.end_ A.
Proof.
  intros Hr Hruns Hdec.
  exists (redistribute chain). split; [apply fill_missing_segment_pressures_spec, Hr|].
  intros i j A B Hi Hj HA HB Hpt.
  unfold redistribute in HA, HB. rewrite Hruns, map_app, concat_app in HA, HB.
  cbn [map concat] in HA, HB.
  rewrite <- length_concat_reconcile in HA, HB.
  rewrite lookup_app_r, Nat.add_comm, Nat.add_sub in HA, HB by lia.
  rewrite lookup_app_l in HA, HB
    by (unfold reconcile_run; rewrite length_reconcile; assumption).
  assert (Hnn : Forall (fun s => 0 <= pr_track.pressure_time s) run).
  { destruct Hr as [Hall _]. rewrite <- (concat_runs chain), Hruns in Hall.
    rewrite concat_app, Forall_app in Hall. destruct Hall as [_ Hall].
    cbn [concat] in Hall. rewrite Forall_app in Hall. destruct Hall as [Hall _].
    eapply Forall_impl; [exact Hall|]. cbn. tauto. }
  unfold reconcile_run in HA, HB.
  rewrite <- (reconciled_zero (run_start run) (run_end run) (run_pressure_time run))
    in HA at 2.
  rewrite <- (reconciled_zero (run_start run) (run_end run) (run_pressure_time run))
    in HB at 2.
  destruct (reconcile_lookup _ _ _ _ _ _ _ Hnn HA) as (P & HP1 & HP2 & HP3 & HP4 & HP5).
  destruct (reconcile_lookup _ _ _ _ _ _ _ Hnn HB) as (Q & HQ1 & HQ2 & HQ3 & HQ4 & HQ5).
  rewrite HP4, HP5, HQ4, HQ5.
  apply drop_bound; lia.
Qed.

Lemma workload_scaling_witness :
  exists chain',
    fill_missing_segment_pressures sample_run = Some chain' /\
    forall (i j : nat) A B,
      (i < 3)%nat -> (j < 3)%nat ->
      chain' !! (0 + i)%nat = Some A -> chain' !! (0 + j)%nat = Some B ->
      pr_track.pressure_time B < pr_track.pressure_time A ->
      (pr_track.start B - pr_track.end_ B) - 1
        <= pr_track.start A - pr_track.end_ A.
Proof.
  apply (workload_scaling sample_run [] sample_run []).
  - apply chain_in_range_dec. reflexivity.
  - reflexivity.
  - vm_compute. split; [discriminate | reflexivity].
Defined.

(** C6 as stated fails: of the three segments of [sample_run], with
    pressure-times 3, 4 and 3 for a fall from 200 to 199, the first gets the
    whole drop and the second, with the largest pressure-time, none. *)
Lemma workload_scaling_counterexample :
  exists chain' A B,
    runs sample_run = [sample_run] /\
    run_end sample_run < run_start sample_run /\
    fill_missing_segment_pressures sample_run = Some chain' /\
    chain' !! 1%nat = Some A /\ chain' !! 0%nat = Some B /\
    pr_track.pressure_time B < pr_track.pressure_time A /\
    ~ (pr_track.start B - pr_track.end_ B <= pr_track.start A - pr_track.end_ A).
Proof.
  exists [pr_track.mk 200 199 0 10 3; pr_track.mk 199 199 10 20 4;
          pr_track.mk 199 199 20 30 3],
         (pr_track.mk 199 199 10 20 4), (pr_track.mk 200 199 0 10 3).
  repeat split; try reflexivity. cbn. lia.
Qed.

(** ** Claims about the workload integrator *)

(** C1, amended: without [int] overflow, the pressure-time of two
    consecutive entries is the ambient pressure at their mean depth times the
    elapsed time, the mean depth not being a factor; it is zero whenever the
    mean depth does not exceed the surface threshold. *)
Theorem pressure_time_contribution `{Headers} (d : dive) (a b : plot_data) :
  let mean_depth := Z.quot (depth a + depth b) 2 in
  let elapsed := sec b - sec a in
  CInt.in_range (depth a + depth b) -> CInt.in_range elapsed ->
  (mean_depth <= SURFACE_THRESHOLD -> calc_pressure_time d a b = 0) /\
  (SURFACE_THRESHOLD < mean_depth ->
   CInt.in_range (depth_to_mbar mean_depth d * elapsed) ->
   calc_pressure_time d a b = depth_to_mbar mean_depth d * elapsed).
Proof.
  intros mean_depth elapsed Hd He. unfold calc_pressure_time.
  rewrite CIntFacts.add_small, CIntFacts.sub_small by assumption.
  assert (Hq : CInt.div (depth a + depth b) 2 = mean_depth).
  { unfold CInt.div. apply CIntFacts.wrap_small.
    unfold CInt.in_range, CInt.INT_MIN, CInt.INT_MAX in *.
    pose proof (Z.quot_rem' (depth a + depth b) 2).
    pose proof (Z.rem_bound_abs (depth a + depth b) 2 ltac:(lia)).
    fold mean_depth in H0. lia. }
  rewrite Hq. fold elapsed. split.
  - intros Hle. destruct (Z.leb_spec mean_depth SURFACE_THRESHOLD); [reflexivity|lia].
  - intros Hlt Hr. destruct (Z.leb_spec mean_depth SURFACE_THRESHOLD); [lia|].
    apply CIntFacts.mul_small, Hr.
Qed.

Lemma pressure_time_contribution_witness :
  (Z.quot (depth sample_a + depth sample_b) 2 <= SURFACE_THRESHOLD ->
   calc_pressure_time sample_dive sample_a sample_b = 0) /\
  (SURFACE_THRESHOLD < Z.quot (depth sample_a + depth sample_b) 2 ->
   CInt.in_range (depth_to_mbar (Z.quot (depth sample_a + depth sample_b) 2) sample_dive
                  * (sec sample_b - sec sample_a)) ->
   calc_pressure_time sample_dive sample_a sample_b
   = depth_to_mbar (Z.quot (depth sample_a + depth sample_b) 2) sample_dive
     * (sec sample_b - sec sample_a)).
Proof.
  apply (pressure_time_contribution sample_dive sample_a sample_b);
    unfold CInt.in_range, CInt.INT_MIN, CInt.INT_MAX; cbn; lia.
Defined.

(** C1 as stated fails: at 20 m for ten seconds the contribution is
    3013 * 10, not 20000 * 10 * 3013. *)
Lemma pressure_time_contribution_counterexample :
  let mean_depth := Z.quot (depth sample_a + depth sample_b) 2 in
  let elapsed := sec sample_b - sec sample_a in
  SURFACE_THRESHOLD < mean_depth /\
  CInt.in_range (mean_depth * elapsed * depth_to_mbar mean_depth sample_dive) /\
  calc_pressure_time sample_dive sample_a sample_b
    <> mean_depth * elapsed * depth_to_mbar mean_depth tt.
Proof. vm_compute. repeat split; discriminate. Qed.

(** ** Loops *)

Section Loops.
Context {St : Type}.

(** An invariant that every round keeps, without error, holds after the
    loop, which ends without error. *)
Lemma for_loop_invariant (P : nat -> St -> Prop) body n i st :
  P i st ->
  (forall k s, (i <= k < i + n)%nat -> P k s ->
               exists s', body k s = Some s' /\ P (S k) s') ->
  exists st', for_loop n i body st = Some st' /\ P (i + n)%nat st'.
Proof.
  revert i st. induction n as [|n IH]; intros i st HP Hstep.
  - exists st. rewrite Nat.add_0_r. split; [reflexivity|exact HP].
  - destruct (Hstep i st ltac:(lia) HP) as (s' & Hb & HP').
    destruct (IH (S i) s' HP') as (st' & Hl & HP'').
    { intros k s Hk. apply Hstep. lia. }
    exists st'. cbn [for_loop]. rewrite Hb. cbn [mbind option_bind].
    split; [exact Hl|]. replace (i + S n)%nat with (S i + n)%nat by lia. exact HP''.
Qed.

(** The same for a loop that is known to end without error. *)
Lemma for_loop_preserves (P : nat -> St -> Prop) body n i st st' :
  P i st ->
  (forall k s s', (i <= k < i + n)%nat -> P k s -> body k s = Some s' -> P (S k) s') ->
  for_loop n i body st = Some st' -> P (i + n)%nat st'.
Proof.
  revert i st. induction n as [|n IH]; intros i st HP Hstep Hl.
  - cbn in Hl. injection Hl as <-. rewrite Nat.add_0_r. exact HP.
  - cbn [for_loop] in Hl. destruct (body i st) as [s'|] eqn:Hb; [|discriminate].
    cbn [mbind option_bind] in Hl.
    replace (i + S n)%nat with (S i + n)%nat by lia.
    apply (IH (S i) s'); [ | | exact Hl].
    + apply (Hstep i st s'); [lia | exact HP | exact Hb].
    + intros k s s2 Hk. apply Hstep. lia.
Qed.

End Loops.

(** ** The scan of populate_pressure_information *)

Section Scan.
Context `{Headers}.

Lemma cylinder_slot_valid cyl :
  0 <= cyl < Z.of_nat MAX_CYLINDERS ->
  exists c, cylinder_slot cyl = Some c /\ (c < MAX_CYLINDERS)%nat.
Proof.
  intros Hc. unfold cylinder_slot.
  destruct (Z.leb_spec 0 cyl); [|lia]. destruct (Z.ltb_spec cyl (Z.of_nat MAX_CYLINDERS)); [|lia].
  exists (Z.to_nat cyl). split; [reflexivity|lia].
Qed.

Lemma cylinder_slot_Some cyl c :
  cylinder_slot cyl = Some c -> 0 <= cyl /\ (c < MAX_CYLINDERS)%nat.
Proof.
  unfold cylinder_slot.
  destruct (Z.leb_spec 0 cyl); [|discriminate].
  destruct (Z.ltb_spec cyl (Z.of_nat MAX_CYLINDERS)); [|discriminate].
  intros [= <-]. lia.
Qed.

(** [calc_pressure_time] reads the times and depths only. *)
Lemma calc_pressure_time_ext d a a' b b' :
  sec a' = sec a -> depth a' = depth a -> sec b' = sec b -> depth b' = depth b ->
  calc_pressure_time d a' b' = calc_pressure_time d a b.
Proof. intros H1 H2 H3 H4. unfold calc_pressure_time. rewrite H1, H2, H3, H4. reflexivity. Qed.

Lemma integrate_lookup_0 d (pi : plot_info) : integrate d pi !! 0%nat = pi !! 0%nat.
Proof. unfold integrate. rewrite list_lookup_imap. destruct (pi !! 0%nat); reflexivity. Qed.

Lemma integrate_lookup_S d (pi : plot_info) (j : nat) prev e :
  pi !! j = Some prev -> pi !! S j = Some e ->
  integrate d pi !! S j = Some (set_pressure_time (calc_pressure_time d prev e) e).
Proof.
  intros Hp He. unfold integrate. rewrite list_lookup_imap, He. cbn. rewrite Hp. reflexivity.
Qed.

Lemma integrate_same_readings d (pi : plot_info) (k : nat) e :
  pi !! k = Some e -> exists e', integrate d pi !! k = Some e' /\ same_readings e e'.
Proof.
  intros He. unfold integrate. rewrite list_lookup_imap, He. cbn.
  destruct k as [|j]; [|destruct (pi !! j)]; eexists; (split; [reflexivity|]);
    repeat split.
Qed.

Lemma length_integrate d (pi : plot_info) : length (integrate d pi) = length pi.
Proof. unfold integrate. apply length_imap. Qed.

Lemma track_lookup (track_pr : list (list pr_track.t)) (c : nat) :
  length track_pr = MAX_CYLINDERS -> (c < MAX_CYLINDERS)%nat ->
  exists chain, track_pr !! c = Some chain.
Proof. intros Hl Hc. apply lookup_lt_is_Some. lia. Qed.

Lemma new_segment_valid cyl pressure t (track_pr : list (list pr_track.t)) :
  0 <= cyl < Z.of_nat MAX_CYLINDERS -> length track_pr = MAX_CYLINDERS ->
  exists track_pr' c,
    new_segment cyl pressure t track_pr = Some (track_pr', c) /\
    cylinder_slot cyl = Some c /\ length track_pr' = MAX_CYLINDERS.
Proof.
  intros Hc Hl. destruct (cylinder_slot_valid cyl Hc) as (c & Hs & Hlt).
  destruct (track_lookup track_pr c Hl Hlt) as [chain Hch].
  unfold new_segment. rewrite Hs. cbn [mbind option_bind]. rewrite Hch.
  cbn [mbind option_bind]. eexists _, c. split; [reflexivity|].
  split; [reflexivity|]. rewrite length_insert. exact Hl.
Qed.

(** One round of the scan keeps the invariant. *)
Lemma scan_entry_invariant d (pi : plot_info) (i : nat) s :
  valid_profile pi -> (i < length pi)%nat ->
  scan_invariant d pi i s ->
  exists s', scan_entry d i s = Some s' /\ scan_invariant d pi (S i) s'.
Proof.
  intros Hvalid Hi (Hlen & Hent & Htr & Hcur & Hmiss).
  destruct (lookup_lt_is_Some_2 pi i Hi) as [e He].
  assert (Hve : 0 <= cylinderindex e < Z.of_nat MAX_CYLINDERS).
  { unfold valid_profile in Hvalid. rewrite Forall_forall in Hvalid.
    apply Hvalid. eapply list_elem_of_lookup_2. exact He. }
  assert (Hei : ss_entry s !! i = Some e).
  { rewrite Hent, Nat.ltb_irrefl. exact He. }
  unfold scan_entry. rewrite Hei. cbn [mbind option_bind].
  destruct i as [|j].
  - (* the first entry opens the first segment *)
    destruct Hcur as [Hcyl Hnone]. rewrite Hnone, Hcyl. cbn [mbind option_bind].
    destruct (Z.eqb_spec (cylinderindex e) (-1)) as [?|_]; [lia|]. cbn [negb].
    destruct (new_segment_valid (cylinderindex e) (SENSOR_PRESSURE e) (sec e)
                (ss_track_pr s) Hve Htr) as (tr' & c & Hnew & Hslot & Hltr).
    rewrite Hnew. cbn [mbind option_bind]. eexists. split; [reflexivity|].
    repeat split; cbn [ss_entry ss_track_pr ss_cylinderindex ss_current ss_missing_pr].
    + exact Hlen.
    + intros k. rewrite Hent. destruct k as [|k]; cbn.
      * rewrite integrate_lookup_0. reflexivity.
      * reflexivity.
    + exact Hltr.
    + exists e, c. auto.
    + intros Hm. destruct (Hmiss Hm) as (k & _ & Hk & _). lia.
  - destruct Hcur as (prevo & cur & Hprevo & Hcyl & Hcurrent & Hslot).
    destruct (integrate_same_readings d pi j prevo Hprevo)
      as (prev & Hprev & _ & Hsec & Hdepth & Hpr & _).
    assert (Hpj : ss_entry s !! j = Some prev).
    { rewrite Hent. destruct (Nat.ltb_spec j (S j)); [exact Hprev|lia]. }
    rewrite Hcurrent, Hpj. cbn [mbind option_bind].
    rewrite (calc_pressure_time_ext d prevo prev e e Hsec Hdepth eq_refl eq_refl).
    set (e' := set_pressure_time (calc_pressure_time d prevo e) e).
    assert (He' : integrate d pi !! S j = Some e')
      by (apply integrate_lookup_S; assumption).
    set (entries := <[S j := e']> (ss_entry s)).
    assert (HlenE : length entries = length pi)
      by (unfold entries; rewrite length_insert; exact Hlen).
    assert (HentE : forall k : nat,
               entries !! k = if (k <? S (S j))%nat then integrate d pi !! k else pi !! k).
    { intros k. unfold entries. destruct (Nat.eq_dec k (S j)) as [->|Hne].
      - rewrite list_lookup_insert_eq by lia.
        destruct (Nat.ltb_spec (S j) (S (S j))); [symmetry; exact He'|lia].
      - rewrite list_lookup_insert_ne by congruence. rewrite Hent.
        destruct (Nat.ltb_spec k (S j)), (Nat.ltb_spec k (S (S j))); try reflexivity; lia. }
    set (track := alter _ cur (ss_track_pr s)).
    assert (HlenT : length track = MAX_CYLINDERS)
      by (unfold track; rewrite length_alter; exact Htr).
    change (cylinderindex e') with (cylinderindex e).
    change (sec e') with (sec e).
    destruct (Z.eqb_spec (cylinderindex e) (ss_cylinderindex s)) as [Hsame|Hdiff];
      cbn [negb].
    + destruct (Z.eqb_spec (SENSOR_PRESSURE e) 0) as [Hzero|Hpress].
      * (* no reading on the same cylinder: the flag is set *)
        eexists. split; [reflexivity|].
        repeat split; cbn [ss_entry ss_track_pr ss_cylinderindex ss_current ss_missing_pr];
          try assumption.
        -- exists e, cur. repeat split; try assumption; congruence.
        -- intros _. exists (S j), e. repeat split; try assumption; [lia|].
           cbn. intros (p2 & e2 & Hp2 & He2 & Hor).
           rewrite Hprevo in Hp2. rewrite He in He2.
           injection Hp2 as <-. injection He2 as <-.
           destruct Hor as [Hor|[Hor _]]; [congruence|contradiction].
      * cbn [mbind option_bind].
        assert (Hpj' : entries !! j = Some prev).
        { unfold entries. rewrite list_lookup_insert_ne by lia. exact Hpj. }
        rewrite Hpj'. cbn [mbind option_bind].
        destruct (Z.eqb_spec (SENSOR_PRESSURE prev) 0) as [Hdark|Hcont]; cbn [negb].
        -- (* the reading has come back: a new segment *)
           set (track2 := alter _ cur track).
           assert (HlenT2 : length track2 = MAX_CYLINDERS)
             by (unfold track2; rewrite length_alter; exact HlenT).
           assert (Hvs : 0 <= ss_cylinderindex s < Z.of_nat MAX_CYLINDERS) by congruence.
           destruct (new_segment_valid (ss_cylinderindex s) (SENSOR_PRESSURE e) (sec e)
                       track2 Hvs HlenT2) as (tr' & c & Hnew & Hslot' & Hltr).
           rewrite Hnew. cbn [mbind option_bind]. eexists. split; [reflexivity|].
           repeat split;
             cbn [ss_entry ss_track_pr ss_cylinderindex ss_current ss_missing_pr];
             try assumption.
           ++ exists e, c. repeat split; try assumption; congruence.
           ++ intros Hm. destruct (Hmiss Hm) as (k & e0 & Hk & Hrest).
              exists k, e0. split; [lia|exact Hrest].
        -- eexists. split; [reflexivity|].
           repeat split;
             cbn [ss_entry ss_track_pr ss_cylinderindex ss_current ss_missing_pr];
             try assumption.
           ++ rewrite length_alter. exact HlenT.
           ++ exists e, cur. repeat split; try assumption; congruence.
           ++ intros Hm. destruct (Hmiss Hm) as (k & e0 & Hk & Hrest).
              exists k, e0. split; [lia|exact Hrest].
    + (* another cylinder: a new segment *)
      destruct (new_segment_valid (cylinderindex e) (SENSOR_PRESSURE e) (sec e)
                  track Hve HlenT) as (tr' & c & Hnew & Hslot' & Hltr).
      rewrite Hnew. cbn [mbind option_bind]. eexists. split; [reflexivity|].
      repeat split;
        cbn [ss_entry ss_track_pr ss_cylinderindex ss_current ss_missing_pr];
        try assumption.
      * exists e, c. auto.
      * intros Hm. destruct (Hmiss Hm) as (k & e0 & Hk & Hrest).
        exists k, e0. split; [lia|exact Hrest].
Qed.

End Scan.

Section ScanResult.
Context `{Headers}.

(** The scan ends without error; it integrates the profile, fills the
    table of segment lists, and sets the flag only for an entry without
    reading that opens no segment. *)
Lemma build_segments_spec d (pi : plot_info) :
  valid_profile pi ->
  exists st,
    build_segments d pi = Some st /\
    ss_entry st = integrate d pi /\
    length (ss_track_pr st) = MAX_CYLINDERS /\
    (ss_missing_pr st = true ->
     exists (k : nat) e,
       pi !! k = Some e /\ SENSOR_PRESSURE e = 0 /\ ~ opens_segment pi k).
Proof.
  intros Hvalid. unfold build_segments.
  destruct (for_loop_invariant (scan_invariant d pi) (scan_entry d) (length pi) 0
              (mk_scan_state pi (replicate MAX_CYLINDERS []) (-1) None false))
    as (st & Hloop & Hlen & Hent & Htr & _ & Hmiss).
  - repeat split; cbn; try reflexivity; [apply length_replicate | discriminate].
  - intros k s [_ Hk]. apply scan_entry_invariant; [exact Hvalid | lia].
  - exists st. split; [exact Hloop|]. split; [|split; [exact Htr|]].
    + apply list_eq. intros k. rewrite Hent. cbn [Nat.add].
      destruct (Nat.ltb_spec k (length pi)) as [Hlt|Hge]; [reflexivity|].
      rewrite (lookup_ge_None_2 pi) by lia.
      rewrite lookup_ge_None_2 by (rewrite length_integrate; lia). reflexivity.
    + intros Hm. destruct (Hmiss Hm) as (k & e & _ & Hrest). exists k, e. exact Hrest.
Qed.

Lemma integrate_Forall2 d (pi : plot_info) : Forall2 same_readings pi (integrate d pi).
Proof.
  apply Forall2_same_length_lookup. split; [symmetry; apply length_integrate|].
  intros k e e' He He'.
  destruct (integrate_same_readings d pi k e He) as (e2 & He2 & Hsame).
  congruence.
Qed.

Lemma integrate_valid d (pi : plot_info) : valid_profile pi -> valid_profile (integrate d pi).
Proof.
  unfold valid_profile. intros Hv.
  pose proof (integrate_Forall2 d pi) as HF.
  induction HF as [|e e' l l' (Hc & _) _ IH]; [constructor|].
  inversion_clear Hv. constructor; [rewrite Hc; assumption|auto].
Qed.

(** Integrating twice changes nothing more. *)
Lemma integrate_idempotent d (pi : plot_info) :
  integrate d (integrate d pi) = integrate d pi.
Proof.
  apply list_eq. intros k. destruct (pi !! k) as [e|] eqn:He.
  2:{ rewrite !lookup_ge_None_2; [reflexivity| |];
      rewrite ?length_integrate; apply lookup_ge_None_1; exact He. }
  destruct k as [|j]; [rewrite !integrate_lookup_0; reflexivity|].
  assert (Hj : is_Some (pi !! j)).
  { apply lookup_lt_is_Some. apply lookup_lt_Some in He. lia. }
  destruct Hj as [p Hp].
  destruct (integrate_same_readings d pi j p Hp) as (p' & Hp' & _ & Hs & Hd & _).
  rewrite (integrate_lookup_S d pi j p e Hp He).
  rewrite (integrate_lookup_S d (integrate d pi) j p' _ Hp'
             (integrate_lookup_S d pi j p e Hp He)).
  f_equal. unfold set_pressure_time. cbn.
  f_equal. apply calc_pressure_time_ext; assumption || reflexivity.
Qed.

End ScanResult.

(** ** Claims about profiles that need no gap filling *)

Section NoGap.
Context `{Headers}.

(** Without an entry that lacks a reading and opens no segment, the
    pipeline is the scan alone. *)
Lemma populate_without_gap d (pi : plot_info) :
  valid_profile pi ->
  (forall (k : nat) e,
      pi !! k = Some e -> SENSOR_PRESSURE e = 0 -> opens_segment pi k) ->
  exists st,
    build_segments d pi = Some st /\ ss_missing_pr st = false /\
    ss_entry st = integrate d pi /\
    populate_pressure_information d pi = Some (ss_entry st).
Proof.
  intros Hvalid Hopen.
  destruct (build_segments_spec d pi Hvalid) as (st & Hb & He & _ & Hm).
  assert (Hflag : ss_missing_pr st = false).
  { destruct (ss_missing_pr st); [|reflexivity].
    destruct (Hm eq_refl) as (k & e & Hk & H0 & Hno). exfalso. eauto. }
  exists st. repeat split; try assumption.
  unfold populate_pressure_information. rewrite Hb. cbn [mbind option_bind].
  rewrite Hflag. reflexivity.
Qed.

End NoGap.

Lemma same_readings_sensor (l l' : plot_info) :
  Forall2 same_readings l l' ->
  Forall (fun e => SENSOR_PRESSURE e <> 0) l ->
  Forall (fun e => SENSOR_PRESSURE e <> 0) l'.
Proof.
  induction 1 as [|e e' l l' (_ & _ & _ & Hpr & _) _ IH]; intros Hall; [constructor|].
  inversion_clear Hall. constructor; [unfold SENSOR_PRESSURE; rewrite Hpr; assumption|auto].
Qed.

(** C7: on a profile of valid cylinder indices in which every entry has a
    reading, the pipeline ends without error, leaves the reported and the
    interpolated pressures of every entry as they were, and a second run on
    its result changes nothing at all. *)
Theorem resolved_profile_unchanged `{Headers} (d : dive) (pi : plot_info) :
  valid_profile pi ->
  Forall (fun e => SENSOR_PRESSURE e <> 0) pi ->
  exists pi',
    populate_pressure_information d pi = Some pi' /\
    Forall2 same_readings pi pi' /\
    populate_pressure_information d pi' = Some pi'.
Proof.
  intros Hvalid Hall.
  assert (Hopen : forall pi0 : plot_info,
             Forall (fun e => SENSOR_PRESSURE e <> 0) pi0 ->
             forall (k : nat) e,
               pi0 !! k = Some e -> SENSOR_PRESSURE e = 0 -> opens_segment pi0 k).
  { intros pi0 H0 k e Hk Hz. rewrite Forall_forall in H0.
    exfalso. exact (H0 e (list_elem_of_lookup_2 _ _ _ Hk) Hz). }
  destruct (populate_without_gap d pi Hvalid (Hopen pi Hall)) as (st & _ & _ & He & Hp).
  exists (integrate d pi). rewrite <- He. split; [exact Hp|]. rewrite He.
  split; [apply integrate_Forall2|].
  assert (Hall' : Forall (fun e => SENSOR_PRESSURE e <> 0) (integrate d pi)).
  { apply (same_readings_sensor pi); [apply integrate_Forall2 | exact Hall]. }
  destruct (populate_without_gap d (integrate d pi) (integrate_valid d pi Hvalid)
              (Hopen _ Hall')) as (st' & _ & _ & He' & Hp').
  rewrite Hp', He', integrate_idempotent. reflexivity.
Qed.

Lemma resolved_profile_unchanged_witness :
  exists pi',
    populate_pressure_information sample_dive resolved_profile = Some pi' /\
    Forall2 same_readings resolved_profile pi' /\
    populate_pressure_information sample_dive pi' = Some pi'.
Proof.
  apply (resolved_profile_unchanged sample_dive resolved_profile).
  - repeat constructor; cbn; lia.
  - repeat constructor; cbn; discriminate.
Defined.

(** C10: on a profile of valid cylinder indices in which every entry
    without a reading opens a new segment, the scan ends with the flag
    unset, the pipeline returns the entries of the scan without running the
    gap filler, and the reported and interpolated pressures of every entry
    are as they were. *)
Theorem gap_filling_skipped `{Headers} (d : dive) (pi : plot_info) :
  valid_profile pi ->
  (forall (k : nat) e,
      pi !! k = Some e -> SENSOR_PRESSURE e = 0 -> opens_segment pi k) ->
  exists st,
    build_segments d pi = Some st /\
    ss_missing_pr st = false /\
    populate_pressure_information d pi = Some (ss_entry st) /\
    Forall2 same_readings pi (ss_entry st).
Proof.
  intros Hvalid Hopen.
  destruct (populate_without_gap d pi Hvalid Hopen) as (st & Hb & Hm & He & Hp).
  exists st. repeat split; try assumption. rewrite He. apply integrate_Forall2.
Qed.

Lemma gap_filling_skipped_witness :
  exists st,
    build_segments sample_dive switching_profile = Some st /\
    ss_missing_pr st = false /\
    populate_pressure_information sample_dive switching_profile = Some (ss_entry st) /\
    Forall2 same_readings switching_profile (ss_entry st).
Proof.
  apply (gap_filling_skipped sample_dive switching_profile).
  - repeat constructor; cbn; lia.
  - intros [|[|[|[|k]]]] e Hk Hz; cbn in Hk; try discriminate;
      injection Hk as <-; try discriminate Hz.
    + exact I.
    + cbn. eexists _, _. split; [reflexivity|]. split; [reflexivity|].
      left. cbn. discriminate.
Defined.

(** ** The gap filler ends without error *)

Section FillTotal.

Lemma double_div_Some x z :
  z <> 0 -> exists q, CDouble.div x (CDouble.of_int z) = Some q.
Proof.
  intros Hz. unfold CDouble.div, CDouble.of_int.
  destruct (Qeq_bool (inject_Z z) 0) eqn:E; [|eexists; reflexivity].
  apply Qeq_bool_eq in E. exfalso. apply Hz.
  apply inject_Z_injective. exact E.
Qed.

(** The division of [dole_pressure] is guarded. *)
Lemma dole_pressure_total start end_ pt pt_sum :
  exists pressure, dole_pressure start end_ pt pt_sum = Some pressure.
Proof.
  unfold dole_pressure. destruct (Z.eqb_spec pt_sum 0) as [|Hnz]; [eexists; reflexivity|].
  destruct (double_div_Some
              (CDouble.mul (CDouble.of_int (CInt.sub start end_)) (CDouble.of_int pt))
              pt_sum Hnz) as [q ->].
  eexists. reflexivity.
Qed.

(** The division of [interpolated_pressure] is guarded. *)
Lemma interpolated_pressure_total interpolate cur_pr :
  exists pressure, interpolated_pressure interpolate cur_pr = Some pressure.
Proof.
  destruct interpolate as [istart iend ipt iacc]. unfold interpolated_pressure.
  destruct (Z.eqb_spec ipt 0) as [|Hnz]; [eexists; reflexivity|].
  destruct (double_div_Some (CDouble.of_int (CInt.sub iend istart)) ipt Hnz) as [q ->].
  eexists. reflexivity.
Qed.

Lemma scan_run_steps start acc tmp next :
  (snd (scan_run start acc tmp next) <= length next)%nat.
Proof.
  revert acc tmp. induction next as [|t next IH]; intros acc tmp; cbn [scan_run].
  - destruct (negb (pr_track.end_ tmp =? 0)); cbn; lia.
  - destruct (negb (pr_track.end_ tmp =? 0)); [cbn; lia|].
    specialize (IH (CInt.add acc (pr_track.pressure_time tmp)) t).
    destruct (scan_run start (CInt.add acc (pr_track.pressure_time tmp)) t next)
      as [[a b] c]. cbn in *. lia.
Qed.

Lemma dole_run_total start end_ pt_sum pt cur steps next :
  (steps <= length next)%nat ->
  exists done,
    dole_run start end_ pt_sum pt cur steps next = Some (done, drop steps next) /\
    length done = S steps.
Proof.
  revert pt cur next. induction steps as [|steps IH]; intros pt cur next Hlen;
    cbn [dole_run].
  - destruct (dole_pressure_total start end_ (CInt.add pt (pr_track.pressure_time cur))
                pt_sum) as [p ->].
    cbn [mbind option_bind]. eexists. split; reflexivity.
  - destruct (dole_pressure_total start end_ (CInt.add pt (pr_track.pressure_time cur))
                pt_sum) as [p ->].
    cbn [mbind option_bind]. destruct next as [|cur' next']; [cbn in Hlen; lia|].
    destruct (IH (CInt.add pt (pr_track.pressure_time cur))
                 (pr_track.set_start p cur') next' ltac:(cbn in Hlen; lia))
      as (done & -> & Hd).
    cbn [mbind option_bind]. eexists. split; [reflexivity|]. cbn. rewrite Hd. reflexivity.
Qed.

(** With one unit of fuel for every segment the outer loop ends, and the
    chain keeps its length. *)
Lemma fill_segments_total fuel chain :
  (length chain <= fuel)%nat ->
  exists chain', fill_segments fuel chain = Some chain' /\ length chain' = length chain.
Proof.
  revert chain. induction fuel as [|fuel IH]; intros [|head next] Hlen;
    try (exists []; split; reflexivity); [cbn in Hlen; lia|].
  cbn [fill_segments].
  pose proof (scan_run_steps (pr_track.start head) 0 head next) as Hsteps.
  destruct (scan_run (pr_track.start head) 0 head next) as [[pt_sum end_] steps].
  cbn [snd] in Hsteps.
  set (start := if pr_track.start head =? 0 then end_ else pr_track.start head).
  destruct (alter (pr_track.set_end end_) steps (pr_track.set_start start head :: next))
    as [|head' next'] eqn:Halt.
  { apply (f_equal length) in Halt. rewrite length_alter in Halt. discriminate. }
  assert (Hlen' : length next' = length next).
  { apply (f_equal length) in Halt. rewrite length_alter in Halt. cbn in Halt. lia. }
  destruct (dole_run_total start end_ pt_sum 0 head' steps next' ltac:(lia))
    as (done & -> & Hd).
  cbn [mbind option_bind].
  destruct (IH (drop steps next')) as (rest' & -> & Hr).
  { rewrite length_drop. cbn in Hlen. lia. }
  cbn [mbind option_bind]. eexists. split; [reflexivity|].
  rewrite length_app, Hd, Hr, length_drop. cbn. lia.
Qed.

Lemma fill_missing_segment_pressures_total chain :
  exists chain',
    fill_missing_segment_pressures chain = Some chain' /\
    length chain' = length chain.
Proof. apply fill_segments_total. reflexivity. Qed.

End FillTotal.

(** ** One round of the point-level interpolation *)

Section FillEntry.
Context `{Headers}.

Lemma pass_filled_refl flag e : pass_filled flag e e.
Proof. repeat split; auto. Qed.

Lemma pass_filled_save flag slot v e :
  tracked_pressure flag e = 0 -> pass_filled flag e (save flag slot v e).
Proof.
  intros Hz. destruct flag, slot; repeat split; cbn; auto;
    intros Hc; contradiction.
Qed.

(** A round that ends without error writes to its own entry only, and
    there to one slot of the tracked pressures at most. *)
Lemma fill_entry_frame (flag : bool) (i : nat) st st' :
  fill_entry flag i st = Some st' ->
  exists e e',
    fs_entry st !! i = Some e /\
    fs_entry st' = <[i := e']> (fs_entry st) /\
    pass_filled flag e e' /\
    fs_track_pr st' = fs_track_pr st /\
    length (fs_cur_pr st') = length (fs_cur_pr st).
Proof.
  unfold fill_entry. intros Hf.
  destruct (fs_entry st !! i) as [e|] eqn:He; [|discriminate].
  cbn [mbind option_bind] in Hf.
  destruct (cylinder_slot _) as [cyl|]; [|discriminate].
  cbn [mbind option_bind] in Hf.
  destruct (Z.eqb_spec (tracked_pressure flag e) 0) as [Hz|Hnz]; cbn [negb] in Hf.
  - destruct (fs_track_pr st !! cyl) as [chain|]; [|discriminate].
    cbn [mbind option_bind] in Hf.
    destruct (fs_cur_pr st !! cyl) as [cur|]; [|discriminate].
    cbn [mbind option_bind] in Hf.
    destruct (find_segment chain (sec e)) as [segment|].
    + destruct (pr_track.pressure_time segment =? 0).
      * injection Hf as <-. exists e. eexists. cbn.
        split; [reflexivity|]. split; [reflexivity|].
        split; [apply pass_filled_save, Hz|]. split; reflexivity.
      * destruct (interpolated_pressure _ cur) as [cur'|]; [|discriminate].
        cbn [mbind option_bind] in Hf. injection Hf as <-. exists e. eexists. cbn.
        split; [reflexivity|]. split; [reflexivity|].
        split; [apply pass_filled_save, Hz|]. split; [reflexivity|].
        apply length_insert.
    + injection Hf as <-. exists e. eexists. cbn.
      split; [reflexivity|]. split; [reflexivity|].
      split; [apply pass_filled_save, Hz|]. split; reflexivity.
  - injection Hf as <-. exists e, e. cbn.
    split; [reflexivity|]. split; [symmetry; apply list_insert_id, He|].
    split; [apply pass_filled_refl|]. split; [reflexivity|]. apply length_insert.
Qed.

(** A round ends without error when the cylinder of its entry has a slot in
    the tables. *)
Lemma fill_entry_total (flag : bool) (i : nat) st e cyl :
  fs_entry st !! i = Some e ->
  cylinder_slot (if flag then DILUENT_CYLINDER else cylinderindex e) = Some cyl ->
  length (fs_track_pr st) = MAX_CYLINDERS ->
  length (fs_cur_pr st) = MAX_CYLINDERS ->
  exists st', fill_entry flag i st = Some st'.
Proof.
  intros He Hcyl Htr Hcur. unfold fill_entry.
  rewrite He. cbn [mbind option_bind]. rewrite Hcyl. cbn [mbind option_bind].
  destruct (negb (tracked_pressure flag e =? 0)); [eexists; reflexivity|].
  destruct (cylinder_slot_Some _ _ Hcyl) as [_ Hlt].
  destruct (lookup_lt_is_Some_2 (fs_track_pr st) cyl ltac:(lia)) as [chain ->].
  destruct (lookup_lt_is_Some_2 (fs_cur_pr st) cyl ltac:(lia)) as [cur ->].
  cbn [mbind option_bind].
  destruct (find_segment chain (sec e)) as [segment|]; [|eexists; reflexivity].
  destruct (pr_track.pressure_time segment =? 0); [eexists; reflexivity|].
  destruct (interpolated_pressure_total
              (get_pr_interpolate_data segment (fs_entry st) i flag) cur) as [p ->].
  eexists. reflexivity.
Qed.

(** The slot that a round writes for an entry without reading: the reported
    one when the entry has no segment or a segment without pressure-time, the
    interpolated one else. *)
Lemma fill_entry_slot (flag : bool) (i : nat) st st' e :
  fill_entry flag i st = Some st' ->
  fs_entry st !! i = Some e ->
  tracked_pressure flag e = 0 ->
  exists cyl chain cur,
    cylinder_slot (if flag then DILUENT_CYLINDER else cylinderindex e) = Some cyl /\
    fs_track_pr st !! cyl = Some chain /\
    fs_cur_pr st !! cyl = Some cur /\
    match find_segment chain (sec e) with
    | Some segment =>
        if pr_track.pressure_time segment =? 0
        then fs_entry st' = <[i := save flag SENSOR_PR cur e]> (fs_entry st)
        else exists v,
            interpolated_pressure
              (get_pr_interpolate_data segment (fs_entry st) i flag) cur = Some v /\
            fs_entry st' = <[i := save flag INTERPOLATED_PR v e]> (fs_entry st)
    | None => fs_entry st' = <[i := save flag SENSOR_PR cur e]> (fs_entry st)
    end.
Proof.
  unfold fill_entry. intros Hf He Hz. rewrite He in Hf.
  cbn [mbind option_bind] in Hf.
  destruct (cylinder_slot _) as [cyl|] eqn:Hcyl; [|discriminate].
  cbn [mbind option_bind] in Hf. rewrite Hz in Hf. cbn [Z.eqb negb] in Hf.
  destruct (fs_track_pr st !! cyl) as [chain|] eqn:Hchain; [|discriminate].
  cbn [mbind option_bind] in Hf.
  destruct (fs_cur_pr st !! cyl) as [cur|] eqn:Hcur; [|discriminate].
  cbn [mbind option_bind] in Hf.
  exists cyl, chain, cur. split; [reflexivity|]. split; [exact Hchain|].
  split; [exact Hcur|].
  destruct (find_segment chain (sec e)) as [segment|].
  - destruct (pr_track.pressure_time segment =? 0).
    + injection Hf as <-. reflexivity.
    + destruct (interpolated_pressure _ cur) as [v|]; [|discriminate].
      cbn [mbind option_bind] in Hf. injection Hf as <-. exists v. split; reflexivity.
  - injection Hf as <-. reflexivity.
Qed.

End FillEntry.

(** ** Claims about the point-level interpolation *)

Lemma save_projections (flag : bool) (slot : pr_slot) (v : Z) (e : plot_data) :
  cylinderindex (save flag slot v e) = cylinderindex e /\
  sec (save flag slot v e) = sec e /\
  depth (save flag slot v e) = depth e /\
  pressure_time (save flag slot v e) = pressure_time e /\
  other_pair flag (save flag slot v e) = other_pair flag e /\
  tracked_pair flag (save flag slot v e) = set_slot slot v (tracked_pair flag e).
Proof. destruct flag; repeat split. Qed.

(** C9: for an entry without reading, in a state whose tables have a slot
    for the cylinder of the entry, the round of the point-level interpolation
    ends without error, the guarded divisions included, and it changes nothing
    but the pressures that the pass tracks in that one entry.  When the entry
    has no segment, or a segment without pressure-time, the reported pressure
    of the entry is, after the round, the last pressure known for the
    cylinder; when the interpolation data has no pressure-time, the
    interpolated pressure of the entry is that pressure.  The last known
    pressures stay as they are in these cases. *)
Theorem carry_forward `{Headers} (diluent_flag : bool) (i : nat) (st : fill_state)
    (entry : plot_data) (cyl : nat) (chain : list pr_track.t) (cur : Z) :
  fs_entry st !! i = Some entry ->
  cylinder_slot (if diluent_flag then DILUENT_CYLINDER else cylinderindex entry)
    = Some cyl ->
  fs_track_pr st !! cyl = Some chain ->
  fs_cur_pr st !! cyl = Some cur ->
  tracked_pressure diluent_flag entry = 0 ->
  exists st' entry',
    fill_entry diluent_flag i st = Some st' /\
    length (fs_entry st') = length (fs_entry st) /\
    fs_entry st' !! i = Some entry' /\
    (forall k : nat, k <> i -> fs_entry st' !! k = fs_entry st !! k) /\
    fs_track_pr st' = fs_track_pr st /\
    cylinderindex entry' = cylinderindex entry /\ sec entry' = sec entry /\
    depth entry' = depth entry /\ pressure_time entry' = pressure_time entry /\
    other_pair diluent_flag entry' = other_pair diluent_flag entry /\
    ((find_segment chain (sec entry) = None \/
      exists segment, find_segment chain (sec entry) = Some segment /\
                      pr_track.pressure_time segment = 0) ->
     tracked_pair diluent_flag entry' = (cur, snd (tracked_pair diluent_flag entry)) /\
     fs_cur_pr st' = fs_cur_pr st) /\
    (forall segment,
        find_segment chain (sec entry) = Some segment ->
        pr_track.pressure_time segment <> 0 ->
        pr_interpolate.pressure_time
          (get_pr_interpolate_data segment (fs_entry st) i diluent_flag) = 0 ->
        tracked_pair diluent_flag entry' = (fst (tracked_pair diluent_flag entry), cur) /\
        fs_cur_pr st' = fs_cur_pr st).
Proof.
  intros He Hcyl Hchain Hcur Hz.
  assert (Hi : (i < length (fs_entry st))%nat) by (apply lookup_lt_Some in He; exact He).
  assert (Hframe : forall slot v cur_pr,
             length (fs_entry (mk_fill_state (<[i := save diluent_flag slot v entry]>
                                                (fs_entry st)) (fs_track_pr st) cur_pr))
             = length (fs_entry st) /\
             <[i := save diluent_flag slot v entry]> (fs_entry st) !! i
             = Some (save diluent_flag slot v entry) /\
             (forall k : nat, k <> i ->
                <[i := save diluent_flag slot v entry]> (fs_entry st) !! k
                = fs_entry st !! k)).
  { intros slot v cur_pr. cbn [fs_entry]. split; [apply length_insert|].
    split; [apply list_lookup_insert_eq, Hi|].
    intros k Hk. apply list_lookup_insert_ne. congruence. }
  unfold fill_entry.
  rewrite He. cbn [mbind option_bind]. rewrite Hcyl. cbn [mbind option_bind].
  rewrite Hz. cbn [Z.eqb negb]. rewrite Hchain, Hcur. cbn [mbind option_bind].
  destruct (find_segment chain (sec entry)) as [segment|] eqn:Hseg.
  - destruct (Z.eqb_spec (pr_track.pressure_time segment) 0) as [Hpt|Hpt].
    + destruct (save_projections diluent_flag SENSOR_PR cur entry)
        as (P1 & P2 & P3 & P4 & P5 & P6).
      destruct (Hframe SENSOR_PR cur (fs_cur_pr st)) as (F1 & F2 & F3).
      eexists. exists (save diluent_flag SENSOR_PR cur entry).
      split; [reflexivity|]. cbn [fs_entry fs_track_pr fs_cur_pr].
      repeat (split; [assumption || reflexivity|]). split.
      * intros _. split; [exact P6|reflexivity].
      * intros s [= <-] Hne. contradiction.
    + destruct (interpolated_pressure_total
                  (get_pr_interpolate_data segment (fs_entry st) i diluent_flag) cur)
        as [p Hp].
      rewrite Hp. cbn [mbind option_bind].
      destruct (save_projections diluent_flag INTERPOLATED_PR p entry)
        as (P1 & P2 & P3 & P4 & P5 & P6).
      destruct (Hframe INTERPOLATED_PR p (<[cyl := p]> (fs_cur_pr st))) as (F1 & F2 & F3).
      eexists. exists (save diluent_flag INTERPOLATED_PR p entry).
      split; [reflexivity|]. cbn [fs_entry fs_track_pr fs_cur_pr].
      repeat (split; [assumption || reflexivity|]). split.
      * intros [Hn|(s & [= <-] & Hs)]; [discriminate|contradiction].
      * intros s [= <-] _ Hwin.
        destruct (get_pr_interpolate_data segment (fs_entry st) i diluent_flag)
          as [istart iend ipt iacc].
        cbn in Hwin. subst ipt. cbn in Hp. injection Hp as <-.
        split; [exact P6|]. apply list_insert_id, Hcur.
  - destruct (save_projections diluent_flag SENSOR_PR cur entry)
      as (P1 & P2 & P3 & P4 & P5 & P6).
    destruct (Hframe SENSOR_PR cur (fs_cur_pr st)) as (F1 & F2 & F3).
    eexists. exists (save diluent_flag SENSOR_PR cur entry).
    split; [reflexivity|]. cbn [fs_entry fs_track_pr fs_cur_pr].
    repeat (split; [assumption || reflexivity|]). split.
    + intros _. split; [exact P6|reflexivity].
    + intros s Hs. discriminate.
Qed.

(** Three rounds for the second entry of [flat_profile]: over a segment
    without pressure-time the reported pressure becomes the last known 200;
    without any segment it becomes the last known 180; and with interpolation
    data without pressure-time the interpolated pressure becomes 180. *)
Lemma carry_forward_witness :
  (exists st',
      fill_entry false 1 flat_state = Some st' /\
      pressure <$> fs_entry st' !! 1%nat = Some (200, 0) /\
      fs_cur_pr st' = fs_cur_pr flat_state) /\
  (exists st',
      fill_entry false 1 bare_state = Some st' /\
      pressure <$> fs_entry st' !! 1%nat = Some (180, 0) /\
      fs_cur_pr st' = fs_cur_pr bare_state) /\
  (exists st',
      fill_entry false 1 idle_state = Some st' /\
      pressure <$> fs_entry st' !! 1%nat = Some (0, 180) /\
      fs_cur_pr st' = fs_cur_pr idle_state).
Proof.
  split; [|split].
  - destruct (carry_forward false 1 flat_state (mk_plot_data 0 10 (0, 0) (0, 0) 0 0) 0
                [pr_track.mk 200 200 0 10 0] 200)
      as (st' & e' & Hf & _ & He' & _ & _ & _ & _ & _ & _ & _ & Hcarry & _);
      [reflexivity..|].
    exists st'. split; [exact Hf|]. rewrite He'.
    destruct Hcarry as [Hp Hc].
    { right. eexists. split; reflexivity. }
    split; [cbn; f_equal; exact Hp | exact Hc].
  - destruct (carry_forward false 1 bare_state (mk_plot_data 0 10 (0, 0) (0, 0) 0 0) 0
                [] 180)
      as (st' & e' & Hf & _ & He' & _ & _ & _ & _ & _ & _ & _ & Hcarry & _);
      [reflexivity..|].
    exists st'. split; [exact Hf|]. rewrite He'.
    destruct Hcarry as [Hp Hc].
    { left. reflexivity. }
    split; [cbn; f_equal; exact Hp | exact Hc].
  - destruct (carry_forward false 1 idle_state (mk_plot_data 0 10 (0, 0) (0, 0) 0 0) 0
                [pr_track.mk 200 170 0 10 5] 180)
      as (st' & e' & Hf & _ & He' & _ & _ & _ & _ & _ & _ & _ & _ & Hwin);
      [reflexivity..|].
    exists st'. split; [exact Hf|]. rewrite He'.
    destruct (Hwin (pr_track.mk 200 170 0 10 5)) as [Hp Hc].
    { reflexivity. }
    { discriminate. }
    { reflexivity. }
    split; [cbn; f_equal; exact Hp | exact Hc].
Defined.

(** ** The two loops of fill_missing_tank_pressures *)

Section FillLoops.
Context `{Headers}.

Lemma fill_cylinder_entry (cyl : nat) st st' :
  fill_cylinder cyl st = Some st' -> fs_entry st' = fs_entry st.
Proof.
  unfold fill_cylinder. destruct (fs_track_pr st !! cyl) as [[|s chain]|];
    cbn [mbind option_bind]; [intros [= <-]; reflexivity| |discriminate].
  destruct (fill_missing_segment_pressures (s :: chain)) as [chain'|];
    cbn [mbind option_bind]; [|discriminate].
  destruct (head chain'); cbn [mbind option_bind]; [|discriminate].
  intros [= <-]. reflexivity.
Qed.

(** The loop over the cylinders ends without error on a full table. *)
Lemma fill_cylinders_total (pi : plot_info) (track_pr : list (list pr_track.t)) :
  length track_pr = MAX_CYLINDERS ->
  exists st,
    for_loop MAX_CYLINDERS 0 fill_cylinder
      (mk_fill_state pi track_pr (replicate MAX_CYLINDERS 0)) = Some st /\
    fs_entry st = pi /\
    length (fs_track_pr st) = MAX_CYLINDERS /\
    length (fs_cur_pr st) = MAX_CYLINDERS.
Proof.
  intros Htr.
  apply (for_loop_invariant
           (fun (_ : nat) st => fs_entry st = pi /\
                                length (fs_track_pr st) = MAX_CYLINDERS /\
                                length (fs_cur_pr st) = MAX_CYLINDERS)).
  - cbn. rewrite length_replicate. auto.
  - intros k s [_ Hk] (He & Ht & Hc). cbn in Hk. unfold fill_cylinder.
    destruct (lookup_lt_is_Some_2 (fs_track_pr s) k ltac:(lia)) as [chain ->].
    cbn [mbind option_bind]. destruct chain as [|seg chain].
    + eexists. split; [reflexivity|]. cbn. rewrite length_insert. auto.
    + destruct (fill_missing_segment_pressures_total (seg :: chain))
        as (chain' & -> & Hlen).
      cbn [mbind option_bind]. destruct chain' as [|first chain']; [discriminate|].
      cbn [head mbind option_bind]. eexists. split; [reflexivity|].
      cbn. rewrite !length_insert. auto.
Qed.

Lemma fill_entry_keeps flag (pi : plot_info) (i : nat) st st' :
  fill_invariant flag pi i st ->
  fill_entry flag i st = Some st' ->
  fill_invariant flag pi (S i) st'.
Proof.
  intros [Hlen Hinv] Hf.
  destruct (fill_entry_frame flag i st st' Hf) as (e & e' & He & Hent & Hpf & _ & _).
  unfold fill_invariant. rewrite Hent.
  split; [rewrite length_insert; exact Hlen|].
  intros k e0 Hk. destruct (Hinv k e0 Hk) as (e1 & Hk1 & Hp1 & Hu1).
  destruct (Nat.eq_dec k i) as [->|Hne].
  - rewrite list_lookup_insert_eq by (apply lookup_lt_Some in He; exact He).
    assert (e1 = e) by congruence. subst e1.
    rewrite (Hu1 ltac:(lia)) in Hpf.
    exists e'. split; [reflexivity|]. split; [exact Hpf|]. lia.
  - rewrite list_lookup_insert_ne by congruence.
    exists e1. split; [exact Hk1|]. split; [exact Hp1|]. intros Hle. apply Hu1. lia.
Qed.

Lemma fill_invariant_init flag (pi : plot_info) (i : nat) track cur_pr :
  fill_invariant flag pi i (mk_fill_state pi track cur_pr).
Proof.
  split; [reflexivity|]. intros k e Hk. exists e. cbn.
  split; [exact Hk|]. split; [apply pass_filled_refl|]. reflexivity.
Qed.

Lemma fill_invariant_Forall2 flag (pi : plot_info) (i : nat) st :
  fill_invariant flag pi i st -> Forall2 (pass_filled flag) pi (fs_entry st).
Proof.
  intros [Hlen Hinv]. apply Forall2_same_length_lookup. split; [symmetry; exact Hlen|].
  intros k e e' He He'. destruct (Hinv k e He) as (e1 & Hk1 & Hp1 & _). congruence.
Qed.

(** A pass that ends without error has filled the entries. *)
Lemma fill_missing_tank_pressures_frame d (pi : plot_info) track_pr flag st :
  fill_missing_tank_pressures d pi track_pr flag = Some st ->
  Forall2 (pass_filled flag) pi (fs_entry st).
Proof.
  unfold fill_missing_tank_pressures.
  destruct (for_loop MAX_CYLINDERS 0 fill_cylinder _) as [st0|] eqn:H0; [|discriminate].
  cbn [mbind option_bind]. intros Hl.
  assert (He0 : fs_entry st0 = pi).
  { apply (for_loop_preserves (fun (_ : nat) s => fs_entry s = pi)) in H0;
      [exact H0 | reflexivity |].
    intros k s s' _ Hs Hf. rewrite (fill_cylinder_entry k s s' Hf). exact Hs. }
  apply (fill_invariant_Forall2 flag pi (1 + (length pi - 1))).
  apply (for_loop_preserves (fill_invariant flag pi)) in Hl; [exact Hl| |].
  - destruct st0 as [e0 t0 c0]. cbn in He0. subst e0. apply fill_invariant_init.
  - intros k s s' _. apply fill_entry_keeps.
Qed.

(** The main pass ends without error on a profile of valid cylinder
    indices and a full table. *)
Lemma fill_missing_tank_pressures_total d (pi : plot_info) track_pr :
  valid_profile pi -> length track_pr = MAX_CYLINDERS ->
  exists st, fill_missing_tank_pressures d pi track_pr false = Some st.
Proof.
  intros Hvalid Htr. unfold fill_missing_tank_pressures.
  destruct (fill_cylinders_total pi track_pr Htr) as (st0 & -> & He0 & Ht0 & Hc0).
  cbn [mbind option_bind].
  destruct (for_loop_invariant
              (fun i s => fill_invariant false pi i s /\
                          length (fs_track_pr s) = MAX_CYLINDERS /\
                          length (fs_cur_pr s) = MAX_CYLINDERS)
              (fill_entry false) (length pi - 1) 1 st0) as (st & Hst & _).
  - split; [|auto]. destruct st0 as [e0 t0 c0]. cbn in He0. subst e0.
    apply fill_invariant_init.
  - intros k s Hk (Hinv & Ht & Hc).
    destruct (lookup_lt_is_Some_2 pi k ltac:(lia)) as [e He].
    destruct Hinv as [Hlen Hinv0]. destruct (Hinv0 k e He) as (e1 & Hk1 & _ & Hu).
    rewrite (Hu (Nat.le_refl k)) in Hk1.
    assert (Hve : 0 <= cylinderindex e < Z.of_nat MAX_CYLINDERS).
    { unfold valid_profile in Hvalid. rewrite Forall_forall in Hvalid.
      apply Hvalid. eapply list_elem_of_lookup_2. exact He. }
    destruct (cylinder_slot_valid _ Hve) as (c & Hslot & _).
    destruct (fill_entry_total false k s e c Hk1 Hslot Ht Hc) as [s' Hs'].
    exists s'. split; [exact Hs'|].
    destruct (fill_entry_frame false k s s' Hs') as (_ & _ & _ & _ & _ & Ht' & Hc').
    split; [apply (fill_entry_keeps false pi k s s' (conj Hlen Hinv0) Hs')|].
    split; congruence.
  - exists st. exact Hst.
Qed.

End FillLoops.

(** ** The whole pipeline *)

Section Pipeline.
Context `{Headers}.

Lemma same_readings_filled e e1 e2 :
  same_readings e e1 -> pass_filled false e1 e2 -> gap_filled e e2.
Proof.
  intros (Hc & Hs & Hd & Hp & Hdp) (Hc' & Hs' & Hd' & _ & Ho & Ht & Hone).
  unfold gap_filled, SENSOR_PRESSURE, INTERPOLATED_PRESSURE in *.
  cbn [other_pair tracked_pair tracked_pressure] in *.
  unfold SENSOR_PRESSURE in Ht. rewrite <- Hp.
  split; [congruence|]. split; [congruence|]. split; [congruence|].
  split; [congruence|]. split; [exact Ht | exact Hone].
Qed.

(** The pipeline ends without error on a profile of valid cylinder
    indices, and fills its gaps. *)
Lemma populate_pressure_information_spec d (pi : plot_info) :
  valid_profile pi ->
  exists pi', populate_pressure_information d pi = Some pi' /\
              Forall2 gap_filled pi pi'.
Proof.
  intros Hvalid.
  destruct (build_segments_spec d pi Hvalid) as (st & Hb & He & Htr & _).
  unfold populate_pressure_information. rewrite Hb. cbn [mbind option_bind].
  pose proof (integrate_Forall2 d pi) as Hsame.
  destruct (ss_missing_pr st).
  - rewrite He.
    destruct (fill_missing_tank_pressures_total d (integrate d pi) (ss_track_pr st)
                (integrate_valid d pi Hvalid) Htr) as [st' Hst'].
    rewrite Hst'. cbn [mbind option_bind]. exists (fs_entry st').
    split; [reflexivity|].
    pose proof (fill_missing_tank_pressures_frame _ _ _ _ _ Hst') as Hfill.
    apply Forall2_same_length_lookup. split.
    + rewrite (Forall2_length _ _ _ Hsame). apply (Forall2_length _ _ _ Hfill).
    + intros k e e2 Hk Hk2.
      destruct (Forall2_lookup_l _ _ _ _ _ Hsame Hk) as (e1 & Hk1 & Hs1).
      destruct (Forall2_lookup_l _ _ _ _ _ Hfill Hk1) as (e2' & Hk2' & Hf).
      assert (e2' = e2) by congruence. subst e2'.
      exact (same_readings_filled e e1 e2 Hs1 Hf).
  - exists (ss_entry st). split; [reflexivity|]. rewrite He.
    eapply Forall2_impl; [exact Hsame|]. intros e e1 Hs1.
    exact (same_readings_filled e e1 e1 Hs1 (pass_filled_refl false e1)).
Qed.

End Pipeline.

(** C2, amended: on a profile of valid cylinder indices the pipeline ends
    without error.  An entry that has a reading keeps its reported and its
    interpolated pressure; an entry without one has one of the two written at
    most.  In a round of the gap filler for an entry without reading, a
    pressure interpolated from a segment with pressure-time goes to the
    interpolated slot, and the last known pressure of the cylinder goes to
    the reported slot when the entry has no segment or a segment without
    pressure-time. *)
Theorem reported_pressure_frame `{Headers} (d : dive) (pi : plot_info) :
  valid_profile pi ->
  (exists pi', populate_pressure_information d pi = Some pi' /\
               Forall2 gap_filled pi pi') /\
  (forall (i : nat) st st' e,
      fill_entry false i st = Some st' ->
      fs_entry st !! i = Some e ->
      SENSOR_PRESSURE e = 0 ->
      exists cyl chain cur,
        cylinder_slot (cylinderindex e) = Some cyl /\
        fs_track_pr st !! cyl = Some chain /\
        fs_cur_pr st !! cyl = Some cur /\
        match find_segment chain (sec e) with
        | Some segment =>
            if pr_track.pressure_time segment =? 0
            then fs_entry st' = <[i := set_pressure SENSOR_PR cur e]> (fs_entry st)
            else exists v,
                interpolated_pressure
                  (get_pr_interpolate_data segment (fs_entry st) i false) cur = Some v /\
                fs_entry st' = <[i := set_pressure INTERPOLATED_PR v e]> (fs_entry st)
        | None => fs_entry st' = <[i := set_pressure SENSOR_PR cur e]> (fs_entry st)
        end).
Proof.
  intros Hvalid. split.
  - apply populate_pressure_information_spec, Hvalid.
  - intros i st st' e Hf He Hz. exact (fill_entry_slot false i st st' e Hf He Hz).
Qed.

Lemma reported_pressure_frame_witness :
  exists pi', populate_pressure_information sample_dive rebreather_profile = Some pi' /\
              Forall2 gap_filled rebreather_profile pi'.
Proof.
  apply (reported_pressure_frame sample_dive rebreather_profile).
  repeat constructor; cbn; lia.
Defined.

(** C2 as stated fails: the second entry of [flat_profile] has no reading
    and a segment without pressure-time, and the pipeline writes the last
    known pressure, 200, to its reported slot. *)
Lemma reported_pressure_frame_counterexample :
  exists pi',
    populate_pressure_information sample_dive flat_profile = Some pi' /\
    SENSOR_PRESSURE <$> flat_profile !! 1%nat = Some 0 /\
    SENSOR_PRESSURE <$> pi' !! 1%nat = Some 200.
Proof. eexists. split; [vm_compute; reflexivity|]. split; reflexivity. Qed.

(** ** The diluent pass *)

Section DiluentPass.
Context `{Headers}.

Lemma for_loop_view {St : Type} (view : St -> St) (body1 body2 : nat -> St -> option St)
    n i st :
  (forall k s, view <$> body1 k s = body2 k (view s)) ->
  view <$> for_loop n i body1 st = for_loop n i body2 (view st).
Proof.
  intros Hbody. revert i st. induction n as [|n IH]; intros i st; [reflexivity|].
  cbn [for_loop]. rewrite <- Hbody. destruct (body1 i st) as [s'|]; [|reflexivity].
  cbn [fmap option_fmap option_map mbind option_bind]. apply IH.
Qed.

Lemma interpolate_loop_view segment cur (entries : plot_info) (i : nat) interpolate :
  interpolate_loop segment cur false (diluent_view <$> entries) i interpolate
  = interpolate_loop segment cur true entries i interpolate.
Proof.
  revert i interpolate. induction entries as [|e entries IH]; intros i ip;
    [reflexivity|].
  cbn [fmap list_fmap interpolate_loop]. destruct ip as [istart iend ipt iacc].
  change (tracked_pressure false (diluent_view e)) with (tracked_pressure true e).
  change (sec (diluent_view e)) with (sec e).
  change (pressure_time (diluent_view e)) with (pressure_time e).
  change (list_fmap plot_data plot_data diluent_view entries)
    with (diluent_view <$> entries).
  rewrite !IH. reflexivity.
Qed.

Lemma fill_cylinder_view (cyl : nat) st :
  fill_state_view <$> fill_cylinder cyl st = fill_cylinder cyl (fill_state_view st).
Proof.
  unfold fill_cylinder. cbn [fill_state_view fs_track_pr fs_cur_pr fs_entry].
  destruct (fs_track_pr st !! cyl) as [[|s chain]|]; cbn [mbind option_bind];
    try reflexivity.
  destruct (fill_missing_segment_pressures (s :: chain)) as [chain'|];
    cbn [mbind option_bind]; [|reflexivity].
  destruct (head chain'); reflexivity.
Qed.

(** A round of the diluent pass is a round of the main pass on the view. *)
Lemma fill_entry_view (i : nat) st :
  fill_state_view <$> fill_entry true i st = fill_entry false i (fill_state_view st).
Proof.
  unfold fill_entry. cbn [fill_state_view fs_track_pr fs_cur_pr fs_entry].
  rewrite list_lookup_fmap. destruct (fs_entry st !! i) as [e|]; [|reflexivity].
  cbn [fmap option_fmap option_map mbind option_bind].
  change (cylinderindex (diluent_view e)) with DILUENT_CYLINDER.
  destruct (cylinder_slot DILUENT_CYLINDER) as [cyl|]; [|reflexivity].
  cbn [mbind option_bind].
  change (tracked_pressure false (diluent_view e)) with (tracked_pressure true e).
  destruct (negb (tracked_pressure true e =? 0)); [reflexivity|].
  destruct (fs_track_pr st !! cyl) as [chain|]; [|reflexivity].
  cbn [mbind option_bind].
  destruct (fs_cur_pr st !! cyl) as [cur|]; [|reflexivity].
  cbn [mbind option_bind].
  change (sec (diluent_view e)) with (sec e).
  assert (Hsave : forall slot v,
             fill_state_view
               (mk_fill_state (<[i := save true slot v e]> (fs_entry st))
                              (fs_track_pr st) (fs_cur_pr st))
             = mk_fill_state
                 (<[i := save false slot v (diluent_view e)]> (diluent_view <$> fs_entry st))
                 (fs_track_pr st) (fs_cur_pr st)).
  { intros slot v. unfold fill_state_view. cbn [fs_entry fs_track_pr fs_cur_pr].
    rewrite list_fmap_insert. destruct slot; reflexivity. }
  destruct (find_segment chain (sec e)) as [segment|].
  - destruct (pr_track.pressure_time segment =? 0).
    + cbn [fmap option_fmap option_map]. rewrite Hsave. reflexivity.
    + unfold get_pr_interpolate_data. rewrite interpolate_loop_view.
      destruct (interpolated_pressure _ cur) as [cur'|]; [|reflexivity].
      cbn [fmap option_fmap option_map mbind option_bind]. f_equal.
      unfold fill_state_view. cbn [fs_entry fs_track_pr fs_cur_pr].
      rewrite list_fmap_insert. reflexivity.
  - cbn [fmap option_fmap option_map]. rewrite Hsave. reflexivity.
Qed.

(** The diluent pass is the main pass on the view of the profile. *)
Lemma fill_missing_tank_pressures_view d (pi : plot_info) track_pr :
  fill_state_view <$> fill_missing_tank_pressures d pi track_pr true
  = fill_missing_tank_pressures d (diluent_view <$> pi) track_pr false.
Proof.
  unfold fill_missing_tank_pressures.
  change (mk_fill_state (diluent_view <$> pi) track_pr (replicate MAX_CYLINDERS 0))
    with (fill_state_view (mk_fill_state pi track_pr (replicate MAX_CYLINDERS 0))).
  rewrite <- (for_loop_view fill_state_view fill_cylinder fill_cylinder)
    by apply fill_cylinder_view.
  destruct (for_loop MAX_CYLINDERS 0 fill_cylinder _) as [st0|]; [|reflexivity].
  cbn [fmap option_fmap option_map mbind option_bind].
  rewrite length_fmap. apply for_loop_view. apply fill_entry_view.
Qed.

End DiluentPass.

(** C5, amended: [populate_pressure_information] has no diluent flag and
    calls the gap filler for the cylinder pressures only: whatever the
    profile, it returns the diluent pressures of every entry as they were.
    The gap filler itself, called with the diluent flag, is the main pass
    seen through [diluent_view]: it takes the reserved slot
    [DILUENT_CYLINDER] for every entry, reads the diluent readings, writes
    the diluent slots, and leaves the cylinder pressures alone. *)
Theorem diluent_pass `{Headers} (d : dive) (pi : plot_info)
    (track_pr : list (list pr_track.t)) :
  valid_profile pi ->
  (exists pi', populate_pressure_information d pi = Some pi' /\
               Forall2 (fun e e' => diluentpressure e' = diluentpressure e) pi pi') /\
  fill_state_view <$> fill_missing_tank_pressures d pi track_pr true
    = fill_missing_tank_pressures d (diluent_view <$> pi) track_pr false /\
  (forall st, fill_missing_tank_pressures d pi track_pr true = Some st ->
              Forall2 (pass_filled true) pi (fs_entry st)).
Proof.
  intros Hvalid. split; [|split].
  - destruct (populate_pressure_information_spec d pi Hvalid) as (pi' & Hp & Hf).
    exists pi'. split; [exact Hp|].
    eapply Forall2_impl; [exact Hf|]. intros e e' (_ & _ & _ & Hd & _). exact Hd.
  - apply fill_missing_tank_pressures_view.
  - intros st. apply fill_missing_tank_pressures_frame.
Qed.

Lemma diluent_pass_witness :
  (exists pi',
      populate_pressure_information sample_dive rebreather_profile = Some pi' /\
      Forall2 (fun e e' => diluentpressure e' = diluentpressure e)
              rebreather_profile pi') /\
  fill_state_view
    <$> fill_missing_tank_pressures sample_dive rebreather_profile diluent_track_pr true
    = fill_missing_tank_pressures sample_dive (diluent_view <$> rebreather_profile)
                                  diluent_track_pr false /\
  (forall st,
      fill_missing_tank_pressures sample_dive rebreather_profile diluent_track_pr true
        = Some st ->
      Forall2 (pass_filled true) rebreather_profile (fs_entry st)).
Proof.
  apply (diluent_pass sample_dive rebreather_profile diluent_track_pr).
  repeat constructor; cbn; lia.
Defined.

(** C5 as stated fails: on [rebreather_profile] the pipeline interpolates
    the cylinder pressure at t = 10 and leaves the diluent pressure of that
    entry unset; there is no second pass.  The gap filler called with the
    diluent flag would have stored 140. *)
Lemma diluent_pass_counterexample :
  exists pi' st,
    populate_pressure_information sample_dive rebreather_profile = Some pi' /\
    DILUENT_PRESSURE <$> rebreather_profile !! 1%nat = Some 0 /\
    INTERPOLATED_PRESSURE <$> pi' !! 1%nat = Some 190 /\
    INTERPOLATED_DILUENT_PRESSURE <$> pi' !! 1%nat = Some 0 /\
    fill_missing_tank_pressures sample_dive pi' diluent_track_pr true = Some st /\
    INTERPOLATED_DILUENT_PRESSURE <$> fs_entry st !! 1%nat = Some 140.
Proof.
  eexists. eexists. split; [vm_compute; reflexivity|].
  split; [reflexivity|]. split; [reflexivity|]. split; [reflexivity|].
  split; [vm_compute; reflexivity|]. reflexivity.
Qed.

(** ** The scenario of the specification *)

(** C8, amended: in the scenario the point-level interpolation assigns 185
    at t = 20 and, at t = 10, the value 192.5 rounded by [rint] to the even
    neighbour, 192. *)
Theorem scenario_interpolation :
  exists st,
    fill_missing_tank_pressures sample_dive scenario_profile scenario_track_pr false = Some st /\
    INTERPOLATED_PRESSURE <$> fs_entry st !! 1%nat = Some 192 /\
    INTERPOLATED_PRESSURE <$> fs_entry st !! 2%nat = Some 185.
Proof. eexists. split; [vm_compute; reflexivity|]. split; reflexivity. Qed.

(** C8 as stated fails: the value at t = 10 is not 193. *)
Lemma scenario_interpolation_counterexample :
  exists st,
    fill_missing_tank_pressures sample_dive scenario_profile scenario_track_pr false = Some st /\
    get_pr_interpolate_data (pr_track.mk 200 170 0 30 20) scenario_profile 1 false
      = pr_interpolate.mk 200 170 20 5 /\
    INTERPOLATED_PRESSURE <$> fs_entry st !! 1%nat <> Some 193.
Proof.
  eexists. split; [vm_compute; reflexivity|]. split; [reflexivity|]. discriminate.
Qed.

(** * Further properties of the code *)

(** ** The segment lists *)

Lemma list_add_app (chain : list pr_track.t) element :
  list_add chain element = chain ++ [element].
Proof. induction chain as [|s chain IH]; cbn; [reflexivity|]. rewrite IH. reflexivity. Qed.

Lemma list_last_last (chain : list pr_track.t) : list_last chain = last chain.
Proof.
  induction chain as [|s chain IH]; [reflexivity|].
  destruct chain as [|s' chain]; [reflexivity|]. exact IH.
Qed.

(** X1: [list_add] puts the element at the tail of the list and leaves the
    segments of the list where they were, so that [list_last] then returns the
    element added; the list grows by one segment. *)
Theorem list_add_list_last (chain : list pr_track.t) (element : pr_track.t) :
  list_last (list_add chain element) = Some element /\
  length (list_add chain element) = S (length chain) /\
  forall (i : nat) s, chain !! i = Some s -> list_add chain element !! i = Some s.
Proof.
  rewrite list_last_last, list_add_app. split; [apply last_snoc|]. split.
  - rewrite length_app. cbn. lia.
  - intros i s Hi. apply lookup_app_l_Some. exact Hi.
Qed.

(** ** fill_missing_segment_pressures on every chain *)

Lemma reconcile_double_times start end_ pt_sum pt pressure (run l : list pr_track.t) :
  reconcile_double start end_ pt_sum pt pressure run = Some l ->
  times <$> l = times <$> run.
Proof.
  revert pt pressure l. induction run as [|s run IH]; intros pt pressure l H.
  - injection H as <-. reflexivity.
  - cbn [reconcile_double] in H.
    destruct (dole_pressure _ _ _ _) as [p|]; [|discriminate].
    cbn [mbind option_bind] in H.
    destruct (reconcile_double _ _ _ _ p run) as [rest|] eqn:Hrest; [|discriminate].
    cbn [mbind option_bind] in H. injection H as <-.
    cbn [fmap list_fmap]. f_equal. exact (IH _ _ _ Hrest).
Qed.

Lemma reconcile_runs_double_times (rs : list (list pr_track.t)) l :
  reconcile_runs_double rs = Some l -> times <$> l = times <$> concat rs.
Proof.
  revert l. induction rs as [|run rs IH]; intros l H.
  - injection H as <-. reflexivity.
  - cbn [reconcile_runs_double] in H. unfold reconcile_run_double in H.
    destruct (reconcile_double _ _ _ _ _ run) as [done|] eqn:Hdone; [|discriminate].
    cbn [mbind option_bind] in H.
    destruct (reconcile_runs_double rs) as [rest|]; [|discriminate].
    cbn [mbind option_bind] in H. injection H as <-.
    cbn [concat]. rewrite !fmap_app, (IH _ eq_refl), (reconcile_double_times _ _ _ _ _ _ _ Hdone).
    reflexivity.
Qed.

(** The redistribution keeps the times and the pressure-time of every
    segment. *)
Lemma fill_missing_segment_pressures_times (chain chain' : list pr_track.t) :
  fill_missing_segment_pressures chain = Some chain' ->
  times <$> chain' = times <$> chain.
Proof.
  intros Hfill. unfold fill_missing_segment_pressures in Hfill.
  rewrite fill_segments_runs in Hfill by reflexivity.
  rewrite (reconcile_runs_double_times _ _ Hfill), concat_runs. reflexivity.
Qed.

(** X2: on every chain [fill_missing_segment_pressures] ends without error,
    and it writes start and end pressures only: the chain keeps its length,
    and every segment its start time, its end time and its pressure-time. *)
Theorem fill_missing_segment_pressures_keeps_times (chain : list pr_track.t) :
  exists chain',
    fill_missing_segment_pressures chain = Some chain' /\
    length chain' = length chain /\
    times <$> chain' = times <$> chain.
Proof.
  destruct (fill_missing_segment_pressures_total chain) as (chain' & Hfill & Hlen).
  exists chain'. split; [exact Hfill|]. split; [exact Hlen|].
  exact (fill_missing_segment_pressures_times _ _ Hfill).
Qed.

(** ** What the redistribution keeps and where its pressures lie *)

Lemma redistribute_known (s : pr_track.t) next :
  pr_track.end_ s <> 0 ->
  redistribute (s :: next) = reconcile_run [s] ++ redistribute next.
Proof.
  intros He. rewrite redistribute_cons.
  destruct next; cbn [split_run];
    destruct (Z.eqb_spec (pr_track.end_ s) 0); try contradiction; reflexivity.
Qed.

(** X3: a chain within range whose segments all have a start and an end
    pressure is returned as it is, provided the segments without
    pressure-time have the same pressure at both ends. *)
Theorem known_segments_unchanged (chain : list pr_track.t) :
  chain_in_range chain ->
  Forall (fun s => pr_track.start s <> 0 /\ pr_track.end_ s <> 0 /\
                   (pr_track.pressure_time s = 0 -> pr_track.end_ s = pr_track.start s))
         chain ->
  fill_missing_segment_pressures chain = Some chain.
Proof.
  intros Hr Hall. rewrite fill_missing_segment_pressures_spec by exact Hr. f_equal.
  clear Hr. induction Hall as [|s next (Hs & He & Hpt) _ IH]; [reflexivity|].
  rewrite redistribute_known, IH by exact He. cbn [app]. f_equal.
  unfold reconcile_run, run_end, run_start, run_known_end, run_pressure_time.
  cbn [last foldr reconcile].
  destruct (Z.eqb_spec (pr_track.start s) 0); [contradiction|].
  destruct (Z.eqb_spec (pr_track.end_ s) 0); [contradiction|].
  rewrite Z.add_0_l, Z.add_0_r. destruct s as [st en ts te pt]. cbn in *. f_equal.
  destruct (Z.eq_dec pt 0) as [->|Hne].
  - rewrite Hpt; reflexivity.
  - rewrite reconciled_total by exact Hne. reflexivity.
Qed.

Lemma known_segments_unchanged_witness :
  fill_missing_segment_pressures
    [pr_track.mk 200 190 0 10 3; pr_track.mk 190 190 10 10 0; pr_track.mk 190 170 10 30 7]
  = Some [pr_track.mk 200 190 0 10 3; pr_track.mk 190 190 10 10 0;
          pr_track.mk 190 170 10 30 7].
Proof.
  apply known_segments_unchanged.
  - apply chain_in_range_dec. reflexivity.
  - repeat constructor; cbn; try discriminate; try reflexivity; intros; lia.
Defined.

Lemma reconciled_mono start end_ pt pt' pt_sum :
  0 <= pt <= pt' -> pt' <= pt_sum ->
  (end_ <= start -> reconciled start end_ pt' pt_sum <= reconciled start end_ pt pt_sum) /\
  (start <= end_ -> reconciled start end_ pt pt_sum <= reconciled start end_ pt' pt_sum).
Proof.
  intros Hpt Hsum. unfold reconciled.
  destruct (Z.eqb_spec pt_sum 0) as [_|Hne]; [lia|].
  split; intros Hle; apply Z.quot_le_mono; nia.
Qed.

Lemma reconciled_between start end_ pt pt_sum :
  0 <= pt <= pt_sum ->
  Z.min start end_ <= reconciled start end_ pt pt_sum <= Z.max start end_.
Proof.
  intros Hpt.
  destruct (Z.eq_dec pt_sum 0) as [H0|Hne].
  { unfold reconciled. rewrite H0. cbn. lia. }
  pose proof (reconciled_mono start end_ 0 pt pt_sum ltac:(lia) ltac:(lia)) as [L1 L2].
  pose proof (reconciled_mono start end_ pt pt_sum pt_sum ltac:(lia) ltac:(lia)) as [R1 R2].
  rewrite reconciled_zero in L1, L2. rewrite reconciled_total in R1, R2 by exact Hne.
  lia.
Qed.

(** X4: in a chain within range the pressures that the redistribution
    assigns to the segments of a run lie between the start and the end
    pressure of the run, and they follow its direction: no segment of a run
    that falls ends above its start, none of a run that rises ends below. *)
Theorem redistributed_within_run chain rs1 run rs2 :
  chain_in_range chain ->
  runs chain = rs1 ++ run :: rs2 ->
  exists chain',
    fill_missing_segment_pressures chain = Some chain' /\
    forall (i : nat) A,
      (i < length run)%nat ->
      chain' !! (length (concat rs1) + i)%nat = Some A ->
      Z.min (run_start run) (run_end run) <= pr_track.start A
        <= Z.max (run_start run) (run_end run) /\
      Z.min (run_start run) (run_end run) <= pr_track.end_ A
        <= Z.max (run_start run) (run_end run) /\
      (run_end run <= run_start run -> pr_track.end_ A <= pr_track.start A) /\
      (run_start run <= run_end run -> pr_track.start A <= pr_track.end_ A).
Proof.
  intros Hr Hruns.
  exists (redistribute chain). split; [apply fill_missing_segment_pressures_spec, Hr|].
  intros i A Hi HA.
  unfold redistribute in HA. rewrite Hruns, map_app, concat_app in HA.
  cbn [map concat] in HA.
  rewrite <- length_concat_reconcile in HA.
  rewrite lookup_app_r, Nat.add_comm, Nat.add_sub in HA by lia.
  rewrite lookup_app_l in HA
    by (unfold reconcile_run; rewrite length_reconcile; assumption).
  assert (Hnn : Forall (fun s => 0 <= pr_track.pressure_time s) run).
  { destruct Hr as [Hall _]. rewrite <- (concat_runs chain), Hruns in Hall.
    rewrite concat_app, Forall_app in Hall. destruct Hall as [_ Hall].
    cbn [concat] in Hall. rewrite Forall_app in Hall. destruct Hall as [Hall _].
    eapply Forall_impl; [exact Hall|]. cbn. tauto. }
  unfold reconcile_run in HA.
  rewrite <- (reconciled_zero (run_start run) (run_end run) (run_pressure_time run))
    in HA at 2.
  destruct (reconcile_lookup _ _ _ _ _ _ _ Hnn HA) as (P & HP1 & HP2 & HP3 & HP4 & HP5).
  rewrite HP4, HP5.
  pose proof (reconciled_between (run_start run) (run_end run) P
                (run_pressure_time run) ltac:(lia)).
  pose proof (reconciled_between (run_start run) (run_end run)
                (P + pr_track.pressure_time A) (run_pressure_time run) ltac:(lia)).
  pose proof (reconciled_mono (run_start run) (run_end run) P
                (P + pr_track.pressure_time A) (run_pressure_time run)
                ltac:(lia) ltac:(lia)) as [M1 M2].
  repeat split; try lia; assumption.
Qed.

Lemma redistributed_within_run_witness :
  exists chain',
    fill_missing_segment_pressures sample_run = Some chain' /\
    forall (i : nat) A,
      (i < 3)%nat ->
      chain' !! (0 + i)%nat = Some A ->
      Z.min (run_start sample_run) (run_end sample_run) <= pr_track.start A
        <= Z.max (run_start sample_run) (run_end sample_run) /\
      Z.min (run_start sample_run) (run_end sample_run) <= pr_track.end_ A
        <= Z.max (run_start sample_run) (run_end sample_run) /\
      (run_end sample_run <= run_start sample_run -> pr_track.end_ A <= pr_track.start A) /\
      (run_start sample_run <= run_end sample_run -> pr_track.start A <= pr_track.end_ A).
Proof.
  apply (redistributed_within_run sample_run [] sample_run []).
  - apply chain_in_range_dec. reflexivity.
  - reflexivity.
Defined.

(** ** The segment of a point in time *)

(** X5: the search for the segment of a point in time returns the first
    segment of the chain that does not end before that time, and no segment
    exactly when all of them end before it. *)
Theorem find_segment_first (chain : list pr_track.t) (t : Z) :
  match find_segment chain t with
  | Some segment =>
      exists before after,
        chain = before ++ segment :: after /\
        Forall (fun s => pr_track.t_end s < t) before /\
        t <= pr_track.t_end segment
  | None => Forall (fun s => pr_track.t_end s < t) chain
  end.
Proof.
  induction chain as [|s next IH]; [constructor|].
  cbn [find_segment]. destruct (Z.ltb_spec (pr_track.t_end s) t) as [Hlt|Hge].
  - destruct (find_segment next t) as [segment|].
    + destruct IH as (before & after & -> & Hall & Hle).
      exists (s :: before), after. split; [reflexivity|]. split; [|exact Hle].
      constructor; assumption.
    + constructor; assumption.
  - exists [], next. split; [reflexivity|]. split; [constructor | exact Hge].
Qed.

(** ** What the pipeline leaves of the profile *)

Section PipelineFrame.
Context `{Headers}.

(** The gap filler starts at the second entry. *)
Lemma fill_missing_tank_pressures_first d (pi : plot_info) track_pr flag st :
  fill_missing_tank_pressures d pi track_pr flag = Some st ->
  fs_entry st !! 0%nat = pi !! 0%nat.
Proof.
  unfold fill_missing_tank_pressures.
  destruct (for_loop MAX_CYLINDERS 0 fill_cylinder _) as [st0|] eqn:H0; [|discriminate].
  cbn [mbind option_bind]. intros Hl.
  assert (He0 : fs_entry st0 = pi).
  { apply (for_loop_preserves (fun (_ : nat) s => fs_entry s = pi)) in H0;
      [exact H0 | reflexivity |].
    intros k s s' _ Hs Hf. rewrite (fill_cylinder_entry k s s' Hf). exact Hs. }
  apply (for_loop_preserves (fun (_ : nat) s => fs_entry s !! 0%nat = pi !! 0%nat)) in Hl;
    [exact Hl | rewrite He0; reflexivity |].
  intros k s s' [Hk _] Hs Hf.
  destruct (fill_entry_frame flag k s s' Hf) as (e & e' & _ & -> & _).
  rewrite list_lookup_insert_ne by lia. exact Hs.
Qed.

(** The pipeline is the integration followed, or not, by a pass of the gap
    filler. *)
Lemma populate_integrated d (pi : plot_info) :
  valid_profile pi ->
  exists pi',
    populate_pressure_information d pi = Some pi' /\
    Forall2 (pass_filled false) (integrate d pi) pi' /\
    pi' !! 0%nat = pi !! 0%nat.
Proof.
  intros Hvalid.
  destruct (build_segments_spec d pi Hvalid) as (st & Hb & He & Htr & _).
  unfold populate_pressure_information. rewrite Hb. cbn [mbind option_bind].
  destruct (ss_missing_pr st).
  - rewrite He.
    destruct (fill_missing_tank_pressures_total d (integrate d pi) (ss_track_pr st)
                (integrate_valid d pi Hvalid) Htr) as [st' Hst'].
    rewrite Hst'. cbn [mbind option_bind]. exists (fs_entry st').
    split; [reflexivity|]. split.
    + exact (fill_missing_tank_pressures_frame _ _ _ _ _ Hst').
    + rewrite (fill_missing_tank_pressures_first _ _ _ _ _ Hst').
      apply integrate_lookup_0.
  - exists (ss_entry st). split; [reflexivity|]. rewrite He. split.
    + apply Forall_Forall2_diag, Forall_forall. intros e _. apply pass_filled_refl.
    + apply integrate_lookup_0.
Qed.

(** What the loop over the cylinders makes of the table and of the current
    pressures. *)
Lemma fill_cylinders_spec (pi : plot_info) (track_pr : list (list pr_track.t)) cur_pr st :
  for_loop MAX_CYLINDERS 0 fill_cylinder (mk_fill_state pi track_pr cur_pr) = Some st ->
  length (fs_track_pr st) = length track_pr /\
  length (fs_cur_pr st) = length cur_pr /\
  forall (c : nat) chain,
    track_pr !! c = Some chain ->
    if (c <? MAX_CYLINDERS)%nat
    then exists chain',
        fill_missing_segment_pressures chain = Some chain' /\
        fs_track_pr st !! c = Some chain' /\
        ((c < length cur_pr)%nat ->
         fs_cur_pr st !! c = Some (match chain' with
                                   | [] => -1
                                   | first :: _ => pr_track.start first
                                   end))
    else fs_track_pr st !! c = Some chain.
Proof.
  intros Hl.
  apply (for_loop_preserves
           (fun (k : nat) s =>
              length (fs_track_pr s) = length track_pr /\
              length (fs_cur_pr s) = length cur_pr /\
              forall (c : nat) chain,
                track_pr !! c = Some chain ->
                if (c <? k)%nat
                then exists chain',
                    fill_missing_segment_pressures chain = Some chain' /\
                    fs_track_pr s !! c = Some chain' /\
                    ((c < length cur_pr)%nat ->
                     fs_cur_pr s !! c = Some (match chain' with
                                              | [] => -1
                                              | first :: _ => pr_track.start first
                                              end))
                else fs_track_pr s !! c = Some chain)) in Hl; [exact Hl| |].
  - cbn. split; [reflexivity|]. split; [reflexivity|]. intros c chain Hc. exact Hc.
  - clear Hl st. intros k s s' _ (Ht & Hc & Hinv) Hf. unfold fill_cylinder in Hf.
    destruct (fs_track_pr s !! k) as [chain|] eqn:Hk; [|discriminate].
    cbn [mbind option_bind] in Hf.
    assert (Hk0 : track_pr !! k = Some chain).
    { destruct (track_pr !! k) as [chain0|] eqn:Hk0.
      - specialize (Hinv k chain0 Hk0). rewrite Nat.ltb_irrefl in Hinv. congruence.
      - apply lookup_ge_None_1 in Hk0. apply lookup_lt_Some in Hk. lia. }
    assert (Hstep : exists chain',
               fill_missing_segment_pressures chain = Some chain' /\
               s' = mk_fill_state (fs_entry s) (<[k := chain']> (fs_track_pr s))
                      (<[k := match chain' with
                              | [] => -1
                              | first :: _ => pr_track.start first
                              end]> (fs_cur_pr s))).
    { destruct chain as [|seg chain].
      - injection Hf as <-. exists []. split; [reflexivity|].
        rewrite (list_insert_id _ _ _ Hk). reflexivity.
      - destruct (fill_missing_segment_pressures (seg :: chain)) as [chain'|];
          [|discriminate].
        cbn [mbind option_bind] in Hf. destruct chain' as [|first chain']; [discriminate|].
        cbn [head mbind option_bind] in Hf. injection Hf as <-.
        eexists. split; reflexivity. }
    destruct Hstep as (chain' & Hfill & ->). cbn [fs_track_pr fs_cur_pr].
    rewrite !length_insert. split; [exact Ht|]. split; [exact Hc|].
    intros c chain0 Hc0. specialize (Hinv c chain0 Hc0).
    destruct (Nat.eq_dec c k) as [->|Hne].
    + destruct (Nat.ltb_spec k (S k)); [|lia].
      assert (chain0 = chain) by congruence. subst chain0.
      exists chain'. split; [exact Hfill|].
      split; [apply list_lookup_insert_eq; apply lookup_lt_Some in Hk; exact Hk|].
      intros Hlt. apply list_lookup_insert_eq. lia.
    + rewrite !list_lookup_insert_ne by congruence.
      destruct (Nat.ltb_spec c k), (Nat.ltb_spec c (S k)); try lia; exact Hinv.
Qed.

End PipelineFrame.

(** X6: on a profile of valid cylinder indices the pipeline returns the
    first entry as it was, whether that entry has a reading or not: the
    integration starts at the second entry, and so does the gap filler. *)
Theorem first_entry_untouched `{Headers} (d : dive) (pi : plot_info) :
  valid_profile pi ->
  exists pi',
    populate_pressure_information d pi = Some pi' /\
    pi' !! 0%nat = pi !! 0%nat.
Proof.
  intros Hvalid. destruct (populate_integrated d pi Hvalid) as (pi' & Hp & _ & H0).
  exists pi'. split; assumption.
Qed.

Lemma first_entry_untouched_witness :
  exists pi',
    populate_pressure_information sample_dive switching_profile = Some pi' /\
    pi' !! 0%nat = switching_profile !! 0%nat.
Proof.
  apply (first_entry_untouched sample_dive switching_profile).
  repeat constructor; cbn; lia.
Defined.

(** X7: on a profile of valid cylinder indices the pipeline sets the
    pressure-time of every entry but the first to the contribution of the
    interval that ends at it, computed from the times and depths of the entry
    and of the one before; what the field held before is lost, and the gap
    filler, when it runs, does not write it. *)
Theorem pressure_time_integrated `{Headers} (d : dive) (pi : plot_info) :
  valid_profile pi ->
  exists pi',
    populate_pressure_information d pi = Some pi' /\
    length pi' = length pi /\
    forall (j : nat) prev e,
      pi !! j = Some prev -> pi !! S j = Some e ->
      pressure_time <$> pi' !! S j = Some (calc_pressure_time d prev e).
Proof.
  intros Hvalid. destruct (populate_integrated d pi Hvalid) as (pi' & Hp & Hfill & _).
  exists pi'. split; [exact Hp|]. split.
  - rewrite <- (Forall2_length _ _ _ Hfill). apply length_integrate.
  - intros j prev e Hj He.
    pose proof (integrate_lookup_S d pi j prev e Hj He) as Hi.
    destruct (Forall2_lookup_l _ _ _ _ _ Hfill Hi) as (e' & -> & _ & _ & _ & Hpt & _).
    cbn. rewrite Hpt. reflexivity.
Qed.

Lemma pressure_time_integrated_witness :
  exists pi',
    populate_pressure_information sample_dive rebreather_profile = Some pi' /\
    length pi' = length rebreather_profile /\
    forall (j : nat) prev e,
      rebreather_profile !! j = Some prev -> rebreather_profile !! S j = Some e ->
      pressure_time <$> pi' !! S j = Some (calc_pressure_time sample_dive prev e).
Proof.
  apply (pressure_time_integrated sample_dive rebreather_profile).
  repeat constructor; cbn; lia.
Defined.

(** X8: a pass of the gap filler that ends without error has replaced
    every chain of the table by its redistribution, once, and has changed
    nothing else of the table: the loop over the points reads the chains
    only. *)
Theorem gap_filler_table `{Headers} (d : dive) (pi : plot_info)
    (track_pr : list (list pr_track.t)) (diluent_flag : bool) (st : fill_state) :
  fill_missing_tank_pressures d pi track_pr diluent_flag = Some st ->
  length (fs_track_pr st) = length track_pr /\
  forall (c : nat) chain,
    track_pr !! c = Some chain ->
    fs_track_pr st !! c
    = if (c <? MAX_CYLINDERS)%nat then fill_missing_segment_pressures chain
      else Some chain.
Proof.
  unfold fill_missing_tank_pressures.
  destruct (for_loop MAX_CYLINDERS 0 fill_cylinder _) as [st0|] eqn:H0; [|discriminate].
  cbn [mbind option_bind]. intros Hl.
  assert (Ht : fs_track_pr st = fs_track_pr st0).
  { apply (for_loop_preserves (fun (_ : nat) s => fs_track_pr s = fs_track_pr st0)) in Hl;
      [exact Hl | reflexivity |].
    intros k s s' _ Hs Hf.
    destruct (fill_entry_frame diluent_flag k s s' Hf) as (_ & _ & _ & _ & _ & -> & _).
    exact Hs. }
  rewrite Ht. destruct (fill_cylinders_spec _ _ _ _ H0) as (Hlen & _ & Hinv).
  split; [exact Hlen|]. intros c chain Hc. specialize (Hinv c chain Hc).
  destruct (c <? MAX_CYLINDERS)%nat; [|exact Hinv].
  destruct Hinv as (chain' & -> & -> & _). reflexivity.
Qed.

Lemma gap_filler_table_witness :
  exists st,
    fill_missing_tank_pressures sample_dive scenario_profile scenario_track_pr false
      = Some st /\
    length (fs_track_pr st) = length scenario_track_pr /\
    forall (c : nat) chain,
      scenario_track_pr !! c = Some chain ->
      fs_track_pr st !! c
      = if (c <? MAX_CYLINDERS)%nat then fill_missing_segment_pressures chain
        else Some chain.
Proof.
  eexists. split; [vm_compute; reflexivity|].
  apply (gap_filler_table sample_dive scenario_profile scenario_track_pr false).
  vm_compute. reflexivity.
Defined.

(** ** The interpolated pressure of a point *)

Section InterpolatedPressure.
Import CDouble CDoubleFacts TruncFacts.

(** Three roundings in a row stay within [(|s| + 4|a c|) / 2^53] of the
    exact value [s + a c]. *)
Lemma interpolate_error (s a c : Q) :
  (0 <= c ->
   Qabs (fl (s + fl (fl a * c)) - (s + a * c)) * 2 ^ 53 <= Qabs s + 4 * Qabs (a * c))%Q.
Proof.
  intros Hc.
  pose proof (fl_error a) as E1. pose proof (fl_error (fl a * c)) as E2.
  pose proof (fl_error (s + fl (fl a * c))) as E3.
  set (m := fl a) in *. set (p := fl (m * c)) in *. set (x := fl (s + p)) in *.
  assert (HW : (Qabs (m * c - a * c) * 2 ^ 53 <= Qabs (a * c))%Q).
  { assert (Hz : (m * c - a * c == (m - a) * c)%Q) by ring.
    rewrite Hz, !Qabs_Qmult, (Qabs_pos c) by exact Hc.
    pose proof (Qabs_nonneg (m - a)). pose proof (Qabs_nonneg a).
    generalize dependent (Qabs (m - a)). generalize dependent (Qabs a).
    generalize dependent (2 ^ 53)%Q. clear - Hc. intros. nra. }
  pose proof (Qabs_triangle (m * c - a * c) (a * c)) as T1.
  assert (Hz1 : (m * c - a * c + a * c == m * c)%Q) by ring. rewrite Hz1 in T1.
  pose proof (Qabs_triangle (p - m * c) (m * c - a * c)) as T2.
  assert (Hz2 : (p - m * c + (m * c - a * c) == p - a * c)%Q) by ring. rewrite Hz2 in T2.
  pose proof (Qabs_triangle (p - a * c) (a * c)) as T3.
  assert (Hz3 : (p - a * c + a * c == p)%Q) by ring. rewrite Hz3 in T3.
  pose proof (Qabs_triangle s p) as T4.
  pose proof (Qabs_triangle (x - (s + p)) (p - a * c)) as T5.
  assert (Hz5 : (x - (s + p) + (p - a * c) == x - (s + a * c))%Q) by ring.
  rewrite Hz5 in T5.
  assert (HP : (2 ^ 53 == 9007199254740992)%Q) by reflexivity.
  rewrite HP in *.
  pose proof (Qabs_nonneg s). pose proof (Qabs_nonneg (a * c)).
  pose proof (Qabs_nonneg (m * c - a * c)). pose proof (Qabs_nonneg (p - m * c)).
  pose proof (Qabs_nonneg (x - (s + p))).
  generalize dependent (Qabs (x - (s + a * c))). generalize dependent (Qabs (x - (s + p))).
  generalize dependent (Qabs (s + p)). generalize dependent (Qabs p).
  generalize dependent (Qabs (p - a * c)). generalize dependent (Qabs (p - m * c)).
  generalize dependent (Qabs (m * c - a * c)). generalize dependent (Qabs (m * c)).
  generalize dependent (Qabs (a * c)). generalize dependent (Qabs s).
  clear. intros. lra.
Qed.

(** The interpolated pressure is less than one unit away from the exact
    value [start + (end - start) * acc / pt]. *)
Lemma interpolated_pressure_near istart iend ipt iacc cur :
  CInt.in_range istart -> CInt.in_range iend -> CInt.in_range (iend - istart) ->
  0 < ipt -> 0 <= iacc <= ipt ->
  exists v,
    interpolated_pressure (pr_interpolate.mk istart iend ipt iacc) cur = Some v /\
    Z.abs (v * ipt - (istart * ipt + (iend - istart) * iacc)) < ipt.
Proof.
  intros Hs He Hd Hpt Hacc. unfold interpolated_pressure.
  destruct (Z.eqb_spec ipt 0) as [?|_]; [lia|].
  rewrite CIntFacts.sub_small by exact Hd.
  set (D := iend - istart) in *.
  assert (HqS : (0 < inject_Z ipt)%Q).
  { change 0%Q with (inject_Z 0). rewrite <- Zlt_Qlt. exact Hpt. }
  unfold CDouble.div, of_int.
  destruct (Qeq_bool (inject_Z ipt) 0) eqn:E.
  { apply Qeq_bool_eq in E. rewrite E in HqS. exfalso. revert HqS. apply Qlt_irrefl. }
  cbn [mbind option_bind]. unfold CDouble.mul, CDouble.add, rint.
  set (a := (inject_Z D / inject_Z ipt)%Q).
  set (x := fl (inject_Z istart + fl (fl a * inject_Z iacc))).
  set (r := round_even x).
  assert (Hc : (0 <= inject_Z iacc)%Q).
  { change 0%Q with (inject_Z 0). rewrite <- Zle_Qle. lia. }
  assert (Hci : (inject_Z iacc <= inject_Z ipt)%Q) by (rewrite <- Zle_Qle; lia).
  pose proof (interpolate_error (inject_Z istart) a (inject_Z iacc) Hc) as Herr.
  fold x in Herr.
  assert (HaS : (a * inject_Z ipt == inject_Z D)%Q) by (unfold a; field; lra).
  assert (HaD : (Qabs a * inject_Z ipt == inject_Z (Z.abs D))%Q).
  { rewrite <- inject_Z_abs, <- HaS, Qabs_Qmult, (Qabs_pos (inject_Z ipt)) by lra.
    reflexivity. }
  assert (Hac : (Qabs (a * inject_Z iacc) <= inject_Z (Z.abs D))%Q).
  { rewrite Qabs_Qmult, (Qabs_pos (inject_Z iacc)) by exact Hc.
    pose proof (Qabs_nonneg a).
    generalize dependent (Qabs a). generalize dependent (inject_Z (Z.abs D)).
    generalize dependent (inject_Z iacc). generalize dependent (inject_Z ipt).
    clear. intros. nra. }
  assert (HbD : (inject_Z (Z.abs D) <= 2147483648)%Q).
  { change 2147483648%Q with (inject_Z 2147483648). rewrite <- Zle_Qle.
    unfold CInt.in_range, CInt.INT_MIN, CInt.INT_MAX in Hd. lia. }
  assert (Hbs : (Qabs (inject_Z istart) <= 2147483648)%Q).
  { rewrite inject_Z_abs. change 2147483648%Q with (inject_Z 2147483648).
    rewrite <- Zle_Qle.
    unfold CInt.in_range, CInt.INT_MIN, CInt.INT_MAX in Hs. lia. }
  assert (HP : (2 ^ 53 == 9007199254740992)%Q) by reflexivity.
  rewrite HP in Herr.
  pose proof (round_even_bounds x) as [Hlo Hhi]. fold r in Hlo, Hhi.
  set (X := (inject_Z istart + a * inject_Z iacc)%Q) in *.
  assert (Hnear : (- (1) < inject_Z r - X)%Q /\ (inject_Z r - X < 1)%Q).
  { pose proof (Qle_Qabs (x - X)) as A1.
    pose proof (Qle_Qabs (- (x - X))) as A2. rewrite Qabs_opp in A2.
    clearbody X x r.
    generalize dependent (Qabs (x - X)).
    generalize dependent (Qabs (a * inject_Z iacc)).
    generalize dependent (Qabs (inject_Z istart)).
    generalize dependent (inject_Z (Z.abs D)).
    generalize dependent (inject_Z r).
    clear. intros. lra. }
  assert (HXS : (X * inject_Z ipt == inject_Z (istart * ipt + D * iacc))%Q).
  { unfold X. rewrite inject_Z_plus, !inject_Z_mult, <- HaS. ring. }
  assert (HrS : (inject_Z (r * ipt - (istart * ipt + D * iacc))
                 == (inject_Z r - X) * inject_Z ipt)%Q).
  { unfold Z.sub at 1. rewrite inject_Z_plus, inject_Z_opp, inject_Z_mult, <- HXS. ring. }
  assert (Hz : - ipt < r * ipt - (istart * ipt + D * iacc) < ipt).
  { destruct Hnear as [N1 N2].
    split; rewrite Zlt_Qlt; rewrite ?inject_Z_opp, HrS; clearbody X;
      generalize dependent (inject_Z r); generalize dependent (inject_Z ipt);
      clear; intros; nra. }
  assert (Hrange : CInt.in_range r).
  { unfold CInt.in_range, CInt.INT_MIN, CInt.INT_MAX in *. unfold D in *. nia. }
  exists r. split; [|lia].
  f_equal. rewrite to_int_trunc; rewrite trunc_int; [reflexivity | exact Hrange].
Qed.

End InterpolatedPressure.

(** X9: with the pressures in the range of [int], a pressure-time that
    is positive and an accumulated pressure-time between 0 and it, the
    interpolation ends without error and its result, roundings of the
    [double] arithmetic included, is less than one unit away from the exact
    value [start + (end - start) * acc / pt]; it lies between [start] and
    [end], and it is [start] for [acc = 0] and [end] for [acc = pt]. *)
Theorem interpolated_pressure_between istart iend ipt iacc cur :
  CInt.in_range istart -> CInt.in_range iend -> CInt.in_range (iend - istart) ->
  0 < ipt -> 0 <= iacc <= ipt ->
  exists v,
    interpolated_pressure (pr_interpolate.mk istart iend ipt iacc) cur = Some v /\
    Z.abs (v * ipt - (istart * ipt + (iend - istart) * iacc)) < ipt /\
    Z.min istart iend <= v <= Z.max istart iend /\
    (iacc = 0 -> v = istart) /\ (iacc = ipt -> v = iend).
Proof.
  intros Hs He Hd Hpt Hacc.
  destruct (interpolated_pressure_near istart iend ipt iacc cur Hs He Hd Hpt Hacc)
    as (v & Hv & Hnear).
  exists v. split; [exact Hv|]. split; [exact Hnear|]. split; [|split].
  - destruct (Z.le_ge_cases istart iend).
    + rewrite Z.min_l, Z.max_r by assumption. split; nia.
    + rewrite Z.min_r, Z.max_l by lia. split; nia.
  - intros ->. nia.
  - intros ->. nia.
Qed.

Lemma interpolated_pressure_between_witness :
  exists v,
    interpolated_pressure (pr_interpolate.mk 200 170 20 5) 0 = Some v /\
    Z.abs (v * 20 - (200 * 20 + (170 - 200) * 5)) < 20 /\
    Z.min 200 170 <= v <= Z.max 200 170 /\
    (5 = 0 -> v = 200) /\ (5 = 20 -> v = 170).
Proof.
  apply (interpolated_pressure_between 200 170 20 5 0);
    unfold CInt.in_range, CInt.INT_MIN, CInt.INT_MAX; lia.
Defined.

(** ** The interpolation data of a point *)

Section InterpolateData.
Import CIntFacts.

Lemma total_pressure_time_nonneg (pi : plot_info) :
  Forall (fun e => 0 <= pressure_time e) pi -> 0 <= total_pressure_time pi.
Proof.
  induction 1 as [|e pi He _ IH]; [reflexivity|].
  change (total_pressure_time (e :: pi)) with (pressure_time e + total_pressure_time pi).
  lia.
Qed.

Lemma interpolate_loop_acc segment cur flag (entries : plot_info) (i : nat) ip :
  Forall (fun e => 0 <= pressure_time e) entries ->
  0 <= pr_interpolate.acc_pressure_time ip <= pr_interpolate.pressure_time ip ->
  pr_interpolate.pressure_time ip + total_pressure_time entries <= CInt.INT_MAX ->
  let r := interpolate_loop segment cur flag entries i ip in
  0 <= pr_interpolate.acc_pressure_time r <= pr_interpolate.pressure_time r /\
  pr_interpolate.pressure_time r
    <= pr_interpolate.pressure_time ip + total_pressure_time entries.
Proof.
  intros Hnn. revert i ip. induction Hnn as [|e entries He Hnn IH]; intros i ip Hacc Hsum.
  - cbn. unfold total_pressure_time. cbn. lia.
  - pose proof (total_pressure_time_nonneg entries Hnn) as Htot.
    change (total_pressure_time (e :: entries))
      with (pressure_time e + total_pressure_time entries) in *.
    destruct ip as [istart iend ipt iacc]. cbn [interpolate_loop].
    cbn [pr_interpolate.acc_pressure_time pr_interpolate.pressure_time] in *.
    assert (Hadd : CInt.add ipt (pressure_time e) = ipt + pressure_time e).
    { apply add_small. unfold CInt.in_range, CInt.INT_MIN, CInt.INT_MAX in *. lia. }
    assert (Hadd' : CInt.add iacc (pressure_time e) = iacc + pressure_time e).
    { apply add_small. unfold CInt.in_range, CInt.INT_MIN, CInt.INT_MAX in *. lia. }
    rewrite Hadd, Hadd'.
    assert (Hmax : 0 <= CInt.INT_MAX) by (unfold CInt.INT_MAX; lia).
    repeat match goal with
           | |- context [if ?b then _ else _] => destruct b
           end;
      cbn [pr_interpolate.acc_pressure_time pr_interpolate.pressure_time];
      try lia;
      match goal with
      | |- context [interpolate_loop _ _ _ _ _ ?ip'] =>
          specialize (IH (S i) ip');
          cbn [pr_interpolate.acc_pressure_time pr_interpolate.pressure_time] in IH;
          lia
      end.
Qed.

(** Where the pressures of the interpolation data come from. *)
Lemma interpolate_loop_source segment (cur : nat) flag (entries : plot_info) (i : nat) ip :
  let r := interpolate_loop segment cur flag entries i ip in
  (pr_interpolate.start r = pr_interpolate.start ip \/
   exists (k : nat) e,
     entries !! k = Some e /\
     ((i + k < cur)%nat \/ sec e = pr_track.t_start segment) /\
     pr_track.t_start segment <= sec e < pr_track.t_end segment /\
     tracked_pressure flag e <> 0 /\
     pr_interpolate.start r = tracked_pressure flag e) /\
  (pr_interpolate.end_ r = pr_interpolate.end_ ip \/
   exists (k : nat) e,
     entries !! k = Some e /\ (cur < i + k)%nat /\
     pr_track.t_start segment < sec e < pr_track.t_end segment /\
     tracked_pressure flag e <> 0 /\
     pr_interpolate.end_ r = tracked_pressure flag e).
Proof.
  revert i ip. induction entries as [|e entries IH]; intros i ip.
  - cbn. auto.
  - destruct ip as [istart iend ipt iacc]. cbn [interpolate_loop].
    cbn [pr_interpolate.start pr_interpolate.end_].
    assert (Hshift : forall ip',
               let r := interpolate_loop segment cur flag entries (S i) ip' in
               (pr_interpolate.start r = pr_interpolate.start ip' \/
                exists (k : nat) e0,
                  (e :: entries) !! k = Some e0 /\
                  ((i + k < cur)%nat \/ sec e0 = pr_track.t_start segment) /\
                  pr_track.t_start segment <= sec e0 < pr_track.t_end segment /\
                  tracked_pressure flag e0 <> 0 /\
                  pr_interpolate.start r = tracked_pressure flag e0) /\
               (pr_interpolate.end_ r = pr_interpolate.end_ ip' \/
                exists (k : nat) e0,
                  (e :: entries) !! k = Some e0 /\ (cur < i + k)%nat /\
                  pr_track.t_start segment < sec e0 < pr_track.t_end segment /\
                  tracked_pressure flag e0 <> 0 /\
                  pr_interpolate.end_ r = tracked_pressure flag e0)).
    { intros ip'. destruct (IH (S i) ip') as [[Hs|(k & e0 & Hk & Hlt & Hs)] [He|(k' & e1 & Hk' & Hlt' & He)]];
        (split; [first [left; exact Hs
                       | right; exists (S k), e0; split; [exact Hk|];
                         split; [destruct Hlt; [left; lia|right; assumption]|exact Hs]]
                |first [left; exact He
                       | right; exists (S k'), e1; split; [exact Hk'|];
                         split; [lia|exact He]]]). }
    destruct (Z.ltb_spec (sec e) (pr_track.t_start segment)) as [H1|H1];
      [apply Hshift|].
    destruct (Z.leb_spec (pr_track.t_end segment) (sec e)) as [H2|H2];
      [cbn; auto|].
    destruct (Z.eqb_spec (sec e) (pr_track.t_start segment)) as [H3|H3].
    { destruct (Hshift (pr_interpolate.mk
                          (if negb (tracked_pressure flag e =? 0)
                           then tracked_pressure flag e else istart) iend 0 0))
        as [Hs He].
      cbn [pr_interpolate.start pr_interpolate.end_] in Hs, He.
      split; [|exact He].
      destruct (Z.eqb_spec (tracked_pressure flag e) 0) as [H0|H0]; cbn [negb] in *;
        [exact Hs|].
      destruct Hs as [Hs|Hs]; [|right; exact Hs].
      (* the reading at the start of the segment *)
      right. exists 0%nat, e. split; [reflexivity|]. split; [right; exact H3|].
      split; [lia|]. split; [exact H0|exact Hs]. }
    destruct (Nat.ltb_spec i cur) as [H4|H4].
    { destruct (Z.eqb_spec (tracked_pressure flag e) 0) as [H0|H0]; cbn [negb].
      - apply Hshift.
      - destruct (Hshift (pr_interpolate.mk (tracked_pressure flag e) iend 0 0))
          as [Hs He].
        cbn [pr_interpolate.start pr_interpolate.end_] in Hs, He.
        split; [|exact He]. destruct Hs as [Hs|Hs]; [|right; exact Hs].
        right. exists 0%nat, e. split; [reflexivity|]. split; [left; lia|].
        split; [lia|]. split; [exact H0|exact Hs]. }
    destruct (Nat.eqb_spec i cur) as [H5|H5]; [apply Hshift|].
    destruct (Z.eqb_spec (tracked_pressure flag e) 0) as [H0|H0]; cbn [negb].
    + apply Hshift.
    + cbn [pr_interpolate.start pr_interpolate.end_]. split; [left; reflexivity|].
      right. exists 0%nat, e. split; [reflexivity|]. split; [lia|].
      split; [lia|]. split; [exact H0|reflexivity].
Qed.

End InterpolateData.

(** X10: when no entry of the profile has a negative pressure-time and the
    pressure-times add up within the range of [int], the interpolation data
    of a point has an accumulated pressure-time between 0 and its
    pressure-time, and a pressure-time that is at most that of the whole
    profile: the fraction [acc / pt] of the interpolation lies between 0
    and 1. *)
Theorem interpolation_data_fraction (segment : pr_track.t) (pi : plot_info) (cur : nat)
    (diluent_flag : bool) :
  Forall (fun e => 0 <= pressure_time e) pi ->
  total_pressure_time pi <= CInt.INT_MAX ->
  let ip := get_pr_interpolate_data segment pi cur diluent_flag in
  0 <= pr_interpolate.acc_pressure_time ip <= pr_interpolate.pressure_time ip /\
  pr_interpolate.pressure_time ip <= total_pressure_time pi.
Proof.
  intros Hnn Hsum. unfold get_pr_interpolate_data.
  apply (interpolate_loop_acc segment cur diluent_flag pi 0
           (pr_interpolate.mk (pr_track.start segment) (pr_track.end_ segment) 0 0) Hnn);
    cbn; lia.
Qed.

Lemma interpolation_data_fraction_witness :
  let ip := get_pr_interpolate_data (pr_track.mk 200 170 0 30 20) scenario_profile 1 false in
  0 <= pr_interpolate.acc_pressure_time ip <= pr_interpolate.pressure_time ip /\
  pr_interpolate.pressure_time ip <= total_pressure_time scenario_profile.
Proof.
  apply (interpolation_data_fraction (pr_track.mk 200 170 0 30 20) scenario_profile 1 false).
  - repeat constructor; cbn; lia.
  - vm_compute. discriminate.
Defined.

(** X11: the start pressure of the interpolation data of a point is the
    start pressure of the segment, or the reading of an entry within the time
    of the segment that comes before the point or lies at the start time of
    the segment; the end pressure is the end pressure of the segment, or the
    reading of an entry after the point and strictly within the time of the
    segment. *)
Theorem interpolation_data_source (segment : pr_track.t) (pi : plot_info) (cur : nat)
    (diluent_flag : bool) :
  let ip := get_pr_interpolate_data segment pi cur diluent_flag in
  (pr_interpolate.start ip = pr_track.start segment \/
   exists (k : nat) e,
     pi !! k = Some e /\
     ((k < cur)%nat \/ sec e = pr_track.t_start segment) /\
     pr_track.t_start segment <= sec e < pr_track.t_end segment /\
     tracked_pressure diluent_flag e <> 0 /\
     pr_interpolate.start ip = tracked_pressure diluent_flag e) /\
  (pr_interpolate.end_ ip = pr_track.end_ segment \/
   exists (k : nat) e,
     pi !! k = Some e /\ (cur < k)%nat /\
     pr_track.t_start segment < sec e < pr_track.t_end segment /\
     tracked_pressure diluent_flag e <> 0 /\
     pr_interpolate.end_ ip = tracked_pressure diluent_flag e).
Proof.
  exact (interpolate_loop_source segment cur diluent_flag pi 0
           (pr_interpolate.mk (pr_track.start segment) (pr_track.end_ segment) 0 0)).
Qed.

(** ** The table of the scan *)

Section ScanTable.
Context `{Headers}.

Lemma alter_tail_snoc (f : pr_track.t -> pr_track.t) chain tail :
  alter_tail f (chain ++ [tail]) = chain ++ [f tail].
Proof.
  induction chain as [|s chain IH]; [reflexivity|].
  cbn [app alter_tail]. rewrite IH.
  destruct (chain ++ [tail]) eqn:E; [destruct chain; discriminate|reflexivity].
Qed.

Lemma alter_tail_compose (f g : pr_track.t -> pr_track.t) chain :
  alter_tail f (alter_tail g chain) = alter_tail (fun s => f (g s)) chain.
Proof.
  destruct chain as [|tail chain _] using rev_ind; [reflexivity|].
  rewrite !alter_tail_snoc. reflexivity.
Qed.

Lemma cylinder_slot_of_nat cyl (c c' : nat) :
  cylinder_slot cyl = Some c -> (Z.of_nat c' =? cyl) = bool_decide (c' = c).
Proof.
  unfold cylinder_slot.
  destruct (Z.leb_spec 0 cyl); [|discriminate].
  destruct (Z.ltb_spec cyl (Z.of_nat MAX_CYLINDERS)); [|discriminate].
  intros [= <-]. destruct (Z.eqb_spec (Z.of_nat c') cyl) as [He|Hne].
  - symmetry. apply bool_decide_eq_true. lia.
  - symmetry. apply bool_decide_eq_false. lia.
Qed.

Lemma new_segment_lookup cyl pressure t (track_pr track_pr' : list (list pr_track.t))
    (c : nat) :
  new_segment cyl pressure t track_pr = Some (track_pr', c) ->
  cylinder_slot cyl = Some c /\
  length track_pr' = length track_pr /\
  forall (c' : nat) chain,
    track_pr !! c' = Some chain ->
    track_pr' !! c'
    = Some (if Z.of_nat c' =? cyl then list_add chain (pr_track_alloc pressure t)
            else chain).
Proof.
  unfold new_segment.
  destruct (cylinder_slot cyl) as [c0|] eqn:Hslot; [|discriminate].
  cbn [mbind option_bind]. destruct (track_pr !! c0) as [chain0|] eqn:Hc0; [|discriminate].
  cbn [mbind option_bind]. intros [= <- <-]. split; [reflexivity|].
  split; [apply length_insert|]. intros c' chain Hc'.
  rewrite (cylinder_slot_of_nat _ _ c' Hslot).
  destruct (decide (c' = c0)) as [->|Hne].
  - rewrite bool_decide_eq_true_2 by reflexivity.
    rewrite list_lookup_insert_eq by (apply lookup_lt_Some in Hc0; exact Hc0).
    congruence.
  - rewrite bool_decide_eq_false_2 by exact Hne.
    rewrite list_lookup_insert_ne by congruence. exact Hc'.
Qed.

Lemma alter_tail_lookup (f : pr_track.t -> pr_track.t) cyl (cur : nat)
    (track_pr : list (list pr_track.t)) (c' : nat) chain :
  cylinder_slot cyl = Some cur ->
  track_pr !! c' = Some chain ->
  alter (alter_tail f) cur track_pr !! c'
  = Some (if Z.of_nat c' =? cyl then alter_tail f chain else chain).
Proof.
  intros Hslot Hc'. rewrite (cylinder_slot_of_nat _ _ c' Hslot).
  destruct (decide (c' = cur)) as [->|Hne].
  - rewrite bool_decide_eq_true_2 by reflexivity.
    rewrite list_lookup_alter_eq, Hc'. reflexivity.
  - rewrite bool_decide_eq_false_2 by exact Hne.
    rewrite list_lookup_alter_ne by congruence. exact Hc'.
Qed.

(** One round of the scan, chain by chain. *)
Lemma scan_entry_chains d (pi : plot_info) (i : nat) s s' :
  valid_profile pi ->
  scan_invariant d pi i s ->
  scan_entry d i s = Some s' ->
  exists e,
    pi !! i = Some e /\
    let prev := match i with O => None | S j => pi !! j end in
    ss_missing_pr s'
    = ss_missing_pr s
      || match prev with
         | Some prev => same_cylinder prev e && (SENSOR_PRESSURE e =? 0)
         | None => false
         end /\
    length (ss_track_pr s') = length (ss_track_pr s) /\
    forall (c : nat) chain,
      ss_track_pr s !! c = Some chain ->
      ss_track_pr s' !! c = Some (chain_after d prev e c chain).
Proof.
  intros Hvalid (Hlen & Hent & Htr & Hcur & Hmiss) Hscan.
  unfold scan_entry in Hscan.
  destruct (ss_entry s !! i) as [e|] eqn:Hei; [|discriminate].
  assert (He : pi !! i = Some e) by (rewrite Hent, Nat.ltb_irrefl in Hei; exact Hei).
  assert (Hve : 0 <= cylinderindex e < Z.of_nat MAX_CYLINDERS).
  { unfold valid_profile in Hvalid. rewrite Forall_forall in Hvalid.
    apply Hvalid. eapply list_elem_of_lookup_2. exact He. }
  cbn [mbind option_bind] in Hscan. exists e. split; [exact He|].
  destruct i as [|j].
  - destruct Hcur as [Hcyl Hnone]. rewrite Hnone, Hcyl in Hscan.
    cbn [mbind option_bind] in Hscan.
    destruct (Z.eqb_spec (cylinderindex e) (-1)) as [?|_]; [lia|]. cbn [negb] in Hscan.
    destruct (new_segment _ _ _ _) as [[tr' c]|] eqn:Hnew; [|discriminate].
    cbn [mbind option_bind] in Hscan. injection Hscan as <-.
    cbn [ss_missing_pr ss_track_pr].
    destruct (new_segment_lookup _ _ _ _ _ _ Hnew) as (Hslot & Hl & Hlook).
    split; [rewrite orb_false_r; reflexivity|]. split; [exact Hl|].
    intros c' chain Hc'. rewrite (Hlook c' chain Hc'). reflexivity.
  - destruct Hcur as (prevo & cur & Hprevo & Hcyl & Hcurrent & Hslot).
    destruct (integrate_same_readings d pi j prevo Hprevo)
      as (prev & Hprev & _ & Hsec & Hdepth & Hpr & _).
    assert (Hpj : ss_entry s !! j = Some prev).
    { rewrite Hent. destruct (Nat.ltb_spec j (S j)); [exact Hprev|lia]. }
    rewrite Hcurrent, Hpj in Hscan. cbn [mbind option_bind] in Hscan.
    rewrite (calc_pressure_time_ext d prevo prev e e Hsec Hdepth eq_refl eq_refl) in Hscan.
    rewrite Hprevo. cbn zeta.
    set (pt := calc_pressure_time d prevo e) in *.
    change (cylinderindex (set_pressure_time pt e)) with (cylinderindex e) in Hscan.
    change (sec (set_pressure_time pt e)) with (sec e) in Hscan.
    rewrite list_lookup_insert_ne in Hscan by lia. rewrite Hpj in Hscan.
    assert (Hsp : SENSOR_PRESSURE prev = SENSOR_PRESSURE prevo)
      by (unfold SENSOR_PRESSURE; rewrite Hpr; reflexivity).
    assert (Hstep1 : forall (c' : nat) chain,
               ss_track_pr s !! c' = Some chain ->
               alter (alter_tail (close_segment pt false e)) cur (ss_track_pr s) !! c'
               = Some (if Z.of_nat c' =? cylinderindex prevo
                       then alter_tail (close_segment pt false e) chain else chain)).
    { intros c' chain Hc'. apply (alter_tail_lookup _ _ _ _ _ _ Hslot Hc'). }
    assert (Hstep2 : forall (c' : nat) chain,
               ss_track_pr s !! c' = Some chain ->
               alter (alter_tail (pr_track.set_end (SENSOR_PRESSURE e))) cur
                 (alter (alter_tail (close_segment pt false e)) cur (ss_track_pr s)) !! c'
               = Some (if Z.of_nat c' =? cylinderindex prevo
                       then alter_tail (close_segment pt true e) chain else chain)).
    { intros c' chain Hc'.
      rewrite (alter_tail_lookup _ _ _ _ _ _ Hslot (Hstep1 c' chain Hc')).
      destruct (Z.of_nat c' =? cylinderindex prevo); [|reflexivity].
      rewrite alter_tail_compose. reflexivity. }
    change (fun current : pr_track.t =>
              pr_track.set_t_end (sec e)
                (pr_track.set_pressure_time
                   (CInt.add (pr_track.pressure_time current) pt) current))
      with (close_segment pt false e) in Hscan.
    rewrite Hcyl in Hscan.
    unfold chain_after, opens_segmentb, same_cylinder. fold pt.
    destruct (Z.eqb_spec (cylinderindex e) (cylinderindex prevo)) as [Hsame|Hdiff];
      cbn [negb andb orb] in Hscan |- *.
    + destruct (Z.eqb_spec (SENSOR_PRESSURE e) 0) as [Hzero|Hpress];
        cbn [negb andb orb] in Hscan |- *.
      * injection Hscan as <-. cbn [ss_missing_pr ss_track_pr].
        split; [rewrite orb_true_r; reflexivity|].
        split; [apply length_alter|].
        intros c' chain Hc'. rewrite (Hstep1 c' chain Hc'). reflexivity.
      * cbn [mbind option_bind] in Hscan. rewrite Hsp in Hscan.
        destruct (Z.eqb_spec (SENSOR_PRESSURE prevo) 0) as [Hdark|Hcont];
          cbn [negb andb orb] in Hscan |- *.
        -- destruct (new_segment _ _ _ _) as [[tr' c]|] eqn:Hnew; [|discriminate].
           cbn [mbind option_bind] in Hscan. injection Hscan as <-.
           cbn [ss_missing_pr ss_track_pr].
           destruct (new_segment_lookup _ _ _ _ _ _ Hnew) as (_ & Hl & Hlook).
           split; [rewrite orb_false_r; reflexivity|].
           split; [rewrite Hl, !length_alter; reflexivity|].
           intros c' chain Hc'. rewrite (Hlook _ _ (Hstep2 c' chain Hc')).
           rewrite Hsame. reflexivity.
        -- injection Hscan as <-. cbn [ss_missing_pr ss_track_pr].
           split; [rewrite orb_false_r; reflexivity|].
           split; [rewrite !length_alter; reflexivity|].
           intros c' chain Hc'. rewrite (Hstep2 c' chain Hc'). reflexivity.
    + destruct (new_segment _ _ _ _) as [[tr' c]|] eqn:Hnew; [|discriminate].
      cbn [mbind option_bind] in Hscan. injection Hscan as <-.
      cbn [ss_missing_pr ss_track_pr].
      destruct (new_segment_lookup _ _ _ _ _ _ Hnew) as (_ & Hl & Hlook).
      split; [rewrite orb_false_r; reflexivity|].
      split; [rewrite Hl, length_alter; reflexivity|].
      intros c' chain Hc'. rewrite (Hlook _ _ (Hstep1 c' chain Hc')). reflexivity.
Qed.

End ScanTable.

Section ScanInduction.
Context `{Headers}.

(** Induction over the rounds of the scan: a property of the flag and of
    the chains that holds at the start, and that every round keeps, holds of
    the state that the scan ends with. *)
Lemma build_segments_induction d (pi : plot_info)
    (P : nat -> bool -> (nat -> option (list pr_track.t)) -> Prop) :
  valid_profile pi ->
  P 0%nat false (fun c => replicate MAX_CYLINDERS [] !! c) ->
  (forall (i : nat) e flag (table table' : nat -> option (list pr_track.t)),
      pi !! i = Some e ->
      P i flag table ->
      (forall c chain, table c = Some chain ->
                       table' c = Some (chain_after d (entry_before pi i) e c chain)) ->
      (forall c, table c = None -> table' c = None) ->
      P (S i) (flag || match entry_before pi i with
                       | Some prev => same_cylinder prev e && (SENSOR_PRESSURE e =? 0)
                       | None => false
                       end) table') ->
  exists st,
    build_segments d pi = Some st /\
    scan_invariant d pi (length pi) st /\
    P (length pi) (ss_missing_pr st) (fun c => ss_track_pr st !! c).
Proof.
  intros Hvalid H0 Hstep. unfold build_segments.
  destruct (for_loop_invariant
              (fun i s => scan_invariant d pi i s /\
                          P i (ss_missing_pr s) (fun c => ss_track_pr s !! c))
              (scan_entry d) (length pi) 0
              (mk_scan_state pi (replicate MAX_CYLINDERS []) (-1) None false))
    as (st & Hloop & Hinv & HP).
  - split; [|exact H0].
    repeat split; cbn; try reflexivity; [apply length_replicate | discriminate].
  - intros k s [_ Hk] [Hinv HP].
    destruct (scan_entry_invariant d pi k s Hvalid ltac:(lia) Hinv) as (s' & Hs' & Hinv').
    exists s'. split; [exact Hs'|]. split; [exact Hinv'|].
    destruct (scan_entry_chains d pi k s s' Hvalid Hinv Hs') as (e & He & Hflag & Hlen & Hch).
    rewrite Hflag. apply (Hstep k e _ (fun c => ss_track_pr s !! c)); try assumption.
    intros c Hnone. apply lookup_ge_None. apply lookup_ge_None in Hnone. lia.
  - exists st. auto.
Qed.

End ScanInduction.

Section ScanFlag.
Context `{Headers}.

(** An entry without reading that opens no segment is on the cylinder of
    the entry before it. *)
Lemma no_segment_same_cylinder (pi : plot_info) (i : nat) e :
  pi !! i = Some e -> SENSOR_PRESSURE e = 0 -> ~ opens_segment pi i ->
  exists prev, entry_before pi i = Some prev /\ same_cylinder prev e = true.
Proof.
  intros He Hz Hno. destruct i as [|j]; [exfalso; apply Hno; exact I|].
  destruct (lookup_lt_is_Some_2 pi j) as [prev Hprev].
  { apply lookup_lt_Some in He. lia. }
  exists prev. split; [exact Hprev|]. unfold same_cylinder.
  destruct (Z.eqb_spec (cylinderindex e) (cylinderindex prev)) as [|Hne]; [reflexivity|].
  exfalso. apply Hno. exists prev, e. auto.
Qed.

Lemma build_segments_flag d (pi : plot_info) :
  valid_profile pi ->
  exists st,
    build_segments d pi = Some st /\
    (ss_missing_pr st = true <->
     exists (k : nat) e,
       pi !! k = Some e /\ SENSOR_PRESSURE e = 0 /\ ~ opens_segment pi k).
Proof.
  intros Hvalid.
  destruct (build_segments_induction d pi
              (fun i flag _ =>
                 forall (k : nat) e,
                   (k < i)%nat -> pi !! k = Some e -> SENSOR_PRESSURE e = 0 ->
                   ~ opens_segment pi k -> flag = true) Hvalid)
    as (st & Hb & (_ & _ & _ & _ & Hmiss) & Hflag).
  - intros k e Hk. lia.
  - intros i e flag _ _ He IH _ _ k e0 Hk He0 Hz Hno.
    destruct (Nat.eq_dec k i) as [->|Hne].
    + assert (e0 = e) by congruence. subst e0.
      destruct (no_segment_same_cylinder pi i e He Hz Hno) as (prev & -> & ->).
      rewrite Hz. apply orb_true_r.
    + rewrite (IH k e0 ltac:(lia) He0 Hz Hno). reflexivity.
  - exists st. split; [exact Hb|]. split.
    + intros Hm. destruct (Hmiss Hm) as (k & e & _ & Hrest). exists k, e. exact Hrest.
    + intros (k & e & He & Hz & Hno). apply (Hflag k e); try assumption.
      apply lookup_lt_Some in He. exact He.
Qed.

End ScanFlag.

(** X12: on a profile of valid cylinder indices the scan ends without
    error, and it sets the flag [missing_pr], which makes the pipeline run the
    gap filler, exactly when some entry has no reading and opens no segment:
    an entry after the first, on the cylinder of the entry before it, with a
    reported pressure of 0. *)
Theorem missing_pr_exact `{Headers} (d : dive) (pi : plot_info) :
  valid_profile pi ->
  exists st,
    build_segments d pi = Some st /\
    (ss_missing_pr st = true <->
     exists (k : nat) prev e,
       pi !! k = Some prev /\ pi !! S k = Some e /\
       cylinderindex e = cylinderindex prev /\ SENSOR_PRESSURE e = 0).
Proof.
  intros Hvalid. destruct (build_segments_flag d pi Hvalid) as (st & Hb & Hiff).
  exists st. split; [exact Hb|]. rewrite Hiff. split.
  - intros (k & e & He & Hz & Hno).
    destruct (no_segment_same_cylinder pi k e He Hz Hno) as (prev & Hprev & Hsame).
    destruct k as [|j]; [discriminate|]. cbn in Hprev.
    exists j, prev, e. unfold same_cylinder in Hsame. apply Z.eqb_eq in Hsame. auto.
  - intros (k & prev & e & Hprev & He & Hcyl & Hz).
    exists (S k), e. split; [exact He|]. split; [exact Hz|].
    cbn. intros (p2 & e2 & Hp2 & He2 & Hor).
    assert (p2 = prev) by congruence. assert (e2 = e) by congruence. subst.
    destruct Hor as [Hor|[Hor _]]; [congruence|contradiction].
Qed.

Lemma missing_pr_exact_witness :
  exists st,
    build_segments sample_dive rebreather_profile = Some st /\
    (ss_missing_pr st = true <->
     exists (k : nat) prev e,
       rebreather_profile !! k = Some prev /\ rebreather_profile !! S k = Some e /\
       cylinderindex e = cylinderindex prev /\ SENSOR_PRESSURE e = 0).
Proof.
  apply (missing_pr_exact sample_dive rebreather_profile).
  repeat constructor; cbn; lia.
Defined.

Section ChainFacts.
Context `{Headers}.

Lemma last_alter_tail (f : pr_track.t -> pr_track.t) chain :
  last (alter_tail f chain) = f <$> last chain.
Proof.
  destruct chain as [|tail chain _] using rev_ind; [reflexivity|].
  rewrite alter_tail_snoc, !last_snoc. reflexivity.
Qed.

Lemma length_alter_tail (f : pr_track.t -> pr_track.t) chain :
  length (alter_tail f chain) = length chain.
Proof.
  destruct chain as [|tail chain _] using rev_ind; [reflexivity|].
  rewrite alter_tail_snoc, !length_app. reflexivity.
Qed.

(** The chain after a round: the last segment closed or not, a segment
    appended or not. *)
Lemma chain_after_cases d prev e (c : nat) chain :
  exists chain1,
    (chain1 = chain /\ (forall p, prev = Some p -> Z.of_nat c <> cylinderindex p) \/
     exists p reading,
       prev = Some p /\ Z.of_nat c = cylinderindex p /\
       chain1 = alter_tail (close_segment (calc_pressure_time d p e) reading e) chain) /\
    (chain_after d prev e c chain = chain1 /\
     (opens_segmentb prev e && (Z.of_nat c =? cylinderindex e) = false) \/
     chain_after d prev e c chain
       = chain1 ++ [pr_track_alloc (SENSOR_PRESSURE e) (sec e)] /\
     opens_segmentb prev e = true /\ Z.of_nat c = cylinderindex e).
Proof.
  unfold chain_after.
  set (chain1 := match prev with
                 | Some p => if Z.of_nat c =? cylinderindex p then _ else chain
                 | None => chain
                 end).
  exists chain1. split.
  - subst chain1. destruct prev as [p|]; [|left; split; [reflexivity|discriminate]].
    destruct (Z.eqb_spec (Z.of_nat c) (cylinderindex p)) as [Hc|Hc];
      [|left; split; [reflexivity|intros p' [= <-]; exact Hc]].
    right. eexists p, _. split; [reflexivity|]. split; [exact Hc|reflexivity].
  - destruct (opens_segmentb prev e) eqn:Ho; cbn [andb]; [|left; auto].
    destruct (Z.eqb_spec (Z.of_nat c) (cylinderindex e)) as [Hc|Hc]; [|left; auto].
    right. rewrite list_add_app. auto.
Qed.

Lemma sorted_profile_le (pi : plot_info) (k i : nat) a b :
  sorted_profile pi -> (k <= i)%nat -> pi !! k = Some a -> pi !! i = Some b ->
  sec a <= sec b.
Proof.
  intros Hs Hk Ha. revert b. induction Hk as [|i Hk IH]; intros b Hb.
  - assert (a = b) by congruence. subst. lia.
  - destruct (lookup_lt_is_Some_2 pi i) as [m Hm].
    { apply lookup_lt_Some in Hb. lia. }
    specialize (IH m Hm). specialize (Hs i m b Hm Hb). lia.
Qed.

Lemma time_ordered_lo lo lo' hi chain :
  lo' <= lo -> time_ordered lo hi chain -> time_ordered lo' hi chain.
Proof.
  destruct chain as [|s next]; cbn; [lia|]. intros Hle (H1 & H2 & H3).
  split; [lia|]. split; assumption.
Qed.

Lemma time_ordered_hi lo hi hi' chain :
  hi <= hi' -> time_ordered lo hi chain -> time_ordered lo hi' chain.
Proof.
  revert lo. induction chain as [|s next IH]; cbn; intros lo Hle; [lia|].
  intros (H1 & H2 & H3). split; [exact H1|]. split; [exact H2|]. apply IH; assumption.
Qed.

Lemma time_ordered_bounds lo hi chain : time_ordered lo hi chain -> lo <= hi.
Proof.
  revert lo. induction chain as [|s next IH]; cbn; intros lo; [lia|].
  intros (H1 & H2 & H3). specialize (IH _ H3). lia.
Qed.

Lemma time_ordered_app lo hi l1 l2 :
  time_ordered lo hi (l1 ++ l2) <->
  exists mid, time_ordered lo mid l1 /\ time_ordered mid hi l2.
Proof.
  revert lo. induction l1 as [|s l1 IH]; intros lo; cbn [app time_ordered].
  - split.
    + intros Hl. exists lo. split; [lia|exact Hl].
    + intros (mid & Hle & Hl). eapply time_ordered_lo; eassumption.
  - rewrite IH. split.
    + intros (H1 & H2 & mid & H3 & H4). exists mid. auto.
    + intros (mid & (H1 & H2 & H3) & H4). split; [exact H1|]. split; [exact H2|].
      exists mid. auto.
Qed.

Lemma time_ordered_close lo hi pt reading e chain :
  hi <= sec e -> time_ordered lo hi chain ->
  time_ordered lo (sec e) (alter_tail (close_segment pt reading e) chain).
Proof.
  intros Hle Hord. destruct chain as [|tail chain _] using rev_ind.
  - cbn in *. lia.
  - rewrite alter_tail_snoc. apply time_ordered_app in Hord.
    destruct Hord as (mid & Hl & H1 & H2 & H3). cbn in H3.
    apply time_ordered_app. exists mid. split; [exact Hl|].
    unfold close_segment. destruct reading; cbn; lia.
Qed.

Lemma time_ordered_add lo hi pressure t chain :
  hi <= t -> time_ordered lo hi chain ->
  time_ordered lo t (chain ++ [pr_track_alloc pressure t]).
Proof.
  intros Hle Hord. apply time_ordered_app. exists hi. split; [exact Hord|].
  cbn. lia.
Qed.

Lemma find_segment_None chain t :
  find_segment chain t = None <-> Forall (fun s => pr_track.t_end s < t) chain.
Proof.
  induction chain as [|s next IH]; cbn [find_segment].
  - split; [constructor|reflexivity].
  - destruct (Z.ltb_spec (pr_track.t_end s) t) as [Hlt|Hge].
    + rewrite IH. split; [constructor; assumption|]. inversion 1; assumption.
    + split; [discriminate|]. inversion 1; lia.
Qed.

Lemma find_segment_Some chain t segment :
  find_segment chain t = Some segment -> t <= pr_track.t_end segment.
Proof.
  induction chain as [|s next IH]; cbn [find_segment]; [discriminate|].
  destruct (Z.ltb_spec (pr_track.t_end s) t) as [Hlt|Hge]; [exact IH|].
  intros [= <-]. exact Hge.
Qed.

(** The search reads the times of the segments only. *)
Lemma find_segment_times (l l' : list pr_track.t) t :
  times <$> l = times <$> l' ->
  times <$> find_segment l t = times <$> find_segment l' t.
Proof.
  revert l'. induction l as [|s l IH]; intros [|s' l'] Heq; try discriminate;
    [reflexivity|].
  cbn [fmap list_fmap] in Heq.
  assert (Hs : times s = times s') by congruence.
  assert (Hl : times <$> l = times <$> l') by congruence. clear Heq.
  cbn [find_segment].
  assert (He : pr_track.t_end s = pr_track.t_end s').
  { unfold times in Hs. congruence. }
  rewrite He. destruct (pr_track.t_end s' <? t); [apply IH, Hl|].
  cbn. rewrite Hs. reflexivity.
Qed.

End ChainFacts.

Section ScanChains.
Context `{Headers}.

Lemma replicate_nil_lookup (n c : nat) (chain : list pr_track.t) :
  replicate n [] !! c = Some chain -> chain = [].
Proof. intros Hc. apply lookup_replicate in Hc. destruct Hc as [-> _]. reflexivity. Qed.

(** A chain of the table is empty exactly when no entry is on its
    cylinder. *)
Lemma build_segments_used d (pi : plot_info) :
  valid_profile pi ->
  exists st,
    build_segments d pi = Some st /\
    length (ss_track_pr st) = MAX_CYLINDERS /\
    forall (c : nat) chain,
      ss_track_pr st !! c = Some chain ->
      (chain = [] <->
       forall (k : nat) e, pi !! k = Some e -> cylinderindex e <> Z.of_nat c).
Proof.
  intros Hvalid.
  destruct (build_segments_induction d pi
              (fun i _ table =>
                 forall (c : nat) chain,
                   table c = Some chain ->
                   (chain = [] <->
                    forall (k : nat) e,
                      (k < i)%nat -> pi !! k = Some e -> cylinderindex e <> Z.of_nat c))
              Hvalid)
    as (st & Hb & (_ & _ & Htr & _) & Hinv).
  - intros c chain Hc. apply replicate_nil_lookup in Hc.
    split; [intros _ k e Hk; lia|intros _; exact Hc].
  - intros i e flag table table' He IH Hstep Hnone c chain' Hc'.
    destruct (table c) as [chain|] eqn:Hc; [|rewrite (Hnone c Hc) in Hc'; discriminate].
    rewrite (Hstep c chain Hc) in Hc'. injection Hc' as <-.
    specialize (IH c chain Hc).
    destruct (chain_after_cases d (entry_before pi i) e c chain)
      as (chain1 & H1 & [[-> Hno]|(-> & Hopen & Hcyl)]).
    + assert (Hnil : chain1 = [] <-> chain = []).
      { destruct H1 as [[-> _]|(p & reading & _ & _ & ->)]; [reflexivity|].
        split; intros Hn; [|rewrite Hn; reflexivity].
        apply (f_equal length) in Hn. rewrite length_alter_tail in Hn.
        destruct chain; [reflexivity|discriminate]. }
      rewrite Hnil, IH. split.
      * intros Hall k e0 Hk He0. destruct (Nat.eq_dec k i) as [->|Hne];
          [|apply (Hall k e0); [lia|exact He0]].
        assert (e0 = e) by congruence. subst e0. intros Hcyl.
        rewrite Hcyl, Z.eqb_refl, andb_true_r in Hno.
        unfold opens_segmentb in Hno.
        destruct (entry_before pi i) as [prev|] eqn:Hprev; [|discriminate].
        apply orb_false_elim in Hno. destruct Hno as [Hsame _].
        apply negb_false_iff in Hsame. unfold same_cylinder in Hsame.
        apply Z.eqb_eq in Hsame.
        destruct i as [|j]; [discriminate|]. cbn in Hprev.
        apply (Hall j prev); [lia|exact Hprev|congruence].
      * intros Hall k e0 Hk. apply Hall. lia.
    + split; [intros Hn; destruct chain1; discriminate|].
      intros Hall. exfalso. apply (Hall i e); [lia|exact He|congruence].
  - exists st. split; [exact Hb|]. split; [exact Htr|].
    intros c chain Hc. rewrite (Hinv c chain Hc). split.
    + intros Hall k e He. apply (Hall k e); [|exact He].
      apply lookup_lt_Some in He. exact He.
    + intros Hall k e _. apply Hall.
Qed.

(** With times that do not decrease, the last segment of the chain of a
    cylinder ends no earlier than any entry on that cylinder. *)
Lemma build_segments_covered d (pi : plot_info) :
  valid_profile pi -> sorted_profile pi ->
  exists st,
    build_segments d pi = Some st /\
    length (ss_track_pr st) = MAX_CYLINDERS /\
    forall (k : nat) e (c : nat) chain,
      pi !! k = Some e -> Z.of_nat c = cylinderindex e ->
      ss_track_pr st !! c = Some chain ->
      exists tail, last chain = Some tail /\ sec e <= pr_track.t_end tail.
Proof.
  intros Hvalid Hsorted.
  destruct (build_segments_induction d pi
              (fun i _ table =>
                 forall (k : nat) e (c : nat) chain,
                   (k < i)%nat -> pi !! k = Some e -> Z.of_nat c = cylinderindex e ->
                   table c = Some chain ->
                   exists tail, last chain = Some tail /\ sec e <= pr_track.t_end tail)
              Hvalid)
    as (st & Hb & (_ & _ & Htr & _) & Hinv).
  - intros k e c chain Hk. lia.
  - intros i e flag table table' He IH Hstep Hnone k ek c chain' Hk Hek Hcyl Hc'.
    destruct (table c) as [chain|] eqn:Hc; [|rewrite (Hnone c Hc) in Hc'; discriminate].
    rewrite (Hstep c chain Hc) in Hc'. injection Hc' as <-.
    assert (Hle : sec ek <= sec e).
    { apply (sorted_profile_le pi k i); try assumption. lia. }
    destruct (chain_after_cases d (entry_before pi i) e c chain)
      as (chain1 & H1 & [[-> Hno]|(-> & _ & _)]).
    2:{ rewrite last_snoc. eexists. split; [reflexivity|]. cbn. exact Hle. }
    assert (Hclose : forall p reading tail,
               last chain = Some tail ->
               exists tail',
                 last (alter_tail (close_segment p reading e) chain) = Some tail' /\
                 sec ek <= pr_track.t_end tail').
    { intros p reading tail Hlast. rewrite last_alter_tail, Hlast. eexists.
      split; [reflexivity|]. unfold close_segment. destruct reading; cbn; exact Hle. }
    destruct (Nat.eq_dec k i) as [->|Hne].
    + assert (ek = e) by congruence. subst ek.
      rewrite <- Hcyl, Z.eqb_refl, andb_true_r in Hno.
      unfold opens_segmentb in Hno.
      destruct (entry_before pi i) as [prev|] eqn:Hprev; [|discriminate].
      apply orb_false_elim in Hno. destruct Hno as [Hsame _].
      apply negb_false_iff in Hsame. unfold same_cylinder in Hsame.
      apply Z.eqb_eq in Hsame.
      destruct i as [|j]; [discriminate|]. cbn in Hprev.
      destruct (IH j prev c chain ltac:(lia) Hprev ltac:(congruence) Hc)
        as (tail & Hlast & _).
      destruct H1 as [[_ Hother]|(p & reading & Hp & Hcp & ->)].
      * exfalso. apply (Hother prev eq_refl). congruence.
      * apply (Hclose _ _ tail Hlast).
    + destruct (IH k ek c chain ltac:(lia) Hek Hcyl Hc) as (tail & Hlast & Hend).
      destruct H1 as [[-> _]|(p & reading & _ & _ & ->)].
      * exists tail. auto.
      * apply (Hclose _ _ tail Hlast).
  - exists st. split; [exact Hb|]. split; [exact Htr|].
    intros k e c chain He. apply (Hinv k); [|exact He].
    apply lookup_lt_Some in He. exact He.
Qed.

End ScanChains.

Lemma sorted_profile_dec (pi : plot_info) :
  sorted_profileb pi = true -> sorted_profile pi.
Proof.
  induction pi as [|a rest IH]; intros Hb j prev e Hj He; [discriminate|].
  destruct rest as [|b rest]; [destruct j; discriminate|].
  cbn [sorted_profileb] in Hb. apply andb_true_iff in Hb. destruct Hb as [Hab Hrest].
  destruct j as [|j].
  - cbn in Hj, He. injection Hj as <-. injection He as <-. apply Z.leb_le. exact Hab.
  - apply (IH Hrest j prev e); assumption.
Qed.

Lemma valid_profile_dec `{Headers} (pi : plot_info) :
  valid_profileb pi = true -> valid_profile pi.
Proof.
  unfold valid_profileb, valid_profile. rewrite forallb_forall, Forall_forall.
  intros Hb e He. specialize (Hb e). rewrite <- list_elem_of_In in Hb.
  specialize (Hb He). apply andb_true_iff in Hb. destruct Hb as [H1 H2].
  apply Z.leb_le in H1. apply Z.ltb_lt in H2. lia.
Qed.

(** X13: on a profile of valid cylinder indices the scan leaves the chain
    of a cylinder empty exactly when no entry of the profile is on that
    cylinder; this is the case in which the gap filler gives the cylinder the
    current pressure -1. *)
Theorem chain_empty_iff_unused `{Headers} (d : dive) (pi : plot_info) :
  valid_profile pi ->
  exists st,
    build_segments d pi = Some st /\
    forall c : nat,
      (c < MAX_CYLINDERS)%nat ->
      exists chain,
        ss_track_pr st !! c = Some chain /\
        (chain = [] <->
         forall (k : nat) e, pi !! k = Some e -> cylinderindex e <> Z.of_nat c).
Proof.
  intros Hvalid. destruct (build_segments_used d pi Hvalid) as (st & Hb & Htr & Hinv).
  exists st. split; [exact Hb|]. intros c Hc.
  destruct (lookup_lt_is_Some_2 (ss_track_pr st) c ltac:(lia)) as [chain Hchain].
  exists chain. split; [exact Hchain|]. apply Hinv. exact Hchain.
Qed.

Lemma chain_empty_iff_unused_witness :
  exists st,
    build_segments sample_dive switching_profile = Some st /\
    forall c : nat,
      (c < MAX_CYLINDERS)%nat ->
      exists chain,
        ss_track_pr st !! c = Some chain /\
        (chain = [] <->
         forall (k : nat) e,
           switching_profile !! k = Some e -> cylinderindex e <> Z.of_nat c).
Proof.
  apply (chain_empty_iff_unused sample_dive switching_profile).
  apply valid_profile_dec. reflexivity.
Defined.

(** X14: on a profile of valid cylinder indices whose times do not
    decrease, every chain that the scan builds is ordered in time: no segment
    ends before it starts, none starts before the segment before it has
    ended, the first starts no earlier than the first entry and the last ends
    no later than the last entry.  This is the order that the search for the
    segment of a point in time relies on. *)
Theorem chains_ordered_in_time `{Headers} (d : dive) (pi : plot_info) :
  valid_profile pi -> sorted_profile pi ->
  exists st,
    build_segments d pi = Some st /\
    forall (c : nat) chain first final,
      ss_track_pr st !! c = Some chain ->
      pi !! 0%nat = Some first -> last pi = Some final ->
      time_ordered (sec first) (sec final) chain.
Proof.
  intros Hvalid Hsorted.
  destruct (build_segments_induction d pi
              (fun i _ table =>
                 forall (c : nat) chain first final,
                   table c = Some chain ->
                   pi !! 0%nat = Some first -> pi !! pred i = Some final ->
                   time_ordered (sec first) (sec final) chain)
              Hvalid)
    as (st & Hb & _ & Hinv).
  - intros c chain first final Hc Hf Hl. apply replicate_nil_lookup in Hc. subst chain.
    cbn in Hl. assert (first = final) by congruence. subst. cbn. lia.
  - intros i e flag table table' He IH Hstep Hnone c chain' first final Hc' Hf Hl.
    cbn [pred] in Hl. assert (final = e) by congruence. subst final.
    destruct (table c) as [chain|] eqn:Hc; [|rewrite (Hnone c Hc) in Hc'; discriminate].
    rewrite (Hstep c chain Hc) in Hc'. injection Hc' as <-.
    destruct (lookup_lt_is_Some_2 pi (pred i)) as [m Hm].
    { apply lookup_lt_Some in He. lia. }
    specialize (IH c chain first m Hc Hf Hm).
    assert (Hle : sec m <= sec e).
    { apply (sorted_profile_le pi (pred i) i); try assumption. lia. }
    destruct (chain_after_cases d (entry_before pi i) e c chain)
      as (chain1 & H1 & H2).
    assert (Hord1 : exists hi, hi <= sec e /\ time_ordered (sec first) hi chain1).
    { destruct H1 as [[-> _]|(p & reading & _ & _ & ->)].
      - exists (sec m). auto.
      - exists (sec e). split; [lia|]. eapply time_ordered_close; eassumption. }
    destruct Hord1 as (hi & Hhi & Hord1).
    destruct H2 as [[-> _]|(-> & _ & _)].
    + eapply time_ordered_hi; eassumption.
    + eapply time_ordered_add; eassumption.
  - exists st. split; [exact Hb|]. intros c chain first final Hc Hf Hl.
    apply (Hinv c chain first final Hc Hf). rewrite <- Hl. symmetry. apply last_lookup.
Qed.

Lemma chains_ordered_in_time_witness :
  exists st,
    build_segments sample_dive switching_profile = Some st /\
    forall (c : nat) chain first final,
      ss_track_pr st !! c = Some chain ->
      switching_profile !! 0%nat = Some first -> last switching_profile = Some final ->
      time_ordered (sec first) (sec final) chain.
Proof.
  apply (chains_ordered_in_time sample_dive switching_profile).
  - apply valid_profile_dec. reflexivity.
  - apply sorted_profile_dec. reflexivity.
Defined.

(** X15: on a profile of valid cylinder indices whose times do not
    decrease, the chain of the cylinder of every entry has a segment for the
    time of the entry, before the redistribution and after it: in the pipeline
    the gap filler never meets an entry without segment, and carries a
    pressure forward only over a segment without pressure-time. *)
Theorem every_entry_has_segment `{Headers} (d : dive) (pi : plot_info) :
  valid_profile pi -> sorted_profile pi ->
  exists st,
    build_segments d pi = Some st /\
    forall (k : nat) e,
      pi !! k = Some e ->
      exists (c : nat) chain segment,
        cylinder_slot (cylinderindex e) = Some c /\
        ss_track_pr st !! c = Some chain /\
        find_segment chain (sec e) = Some segment /\
        sec e <= pr_track.t_end segment /\
        exists chain' segment',
          fill_missing_segment_pressures chain = Some chain' /\
          find_segment chain' (sec e) = Some segment' /\
          times segment' = times segment.
Proof.
  intros Hvalid Hsorted.
  destruct (build_segments_covered d pi Hvalid Hsorted) as (st & Hb & Htr & Hinv).
  exists st. split; [exact Hb|]. intros k e He.
  assert (Hve : 0 <= cylinderindex e < Z.of_nat MAX_CYLINDERS).
  { unfold valid_profile in Hvalid. rewrite Forall_forall in Hvalid.
    apply Hvalid. eapply list_elem_of_lookup_2. exact He. }
  destruct (cylinder_slot_valid _ Hve) as (c & Hslot & Hc).
  destruct (lookup_lt_is_Some_2 (ss_track_pr st) c ltac:(lia)) as [chain Hchain].
  assert (Hcz : Z.of_nat c = cylinderindex e).
  { pose proof (cylinder_slot_of_nat _ _ c Hslot) as Hz.
    rewrite bool_decide_eq_true_2 in Hz by reflexivity. apply Z.eqb_eq. exact Hz. }
  destruct (Hinv k e c chain He Hcz Hchain) as (tail & Hlast & Hend).
  destruct (find_segment chain (sec e)) as [segment|] eqn:Hfind.
  2:{ exfalso. apply find_segment_None in Hfind. rewrite Forall_forall in Hfind.
      assert (Hin : tail ∈ chain).
      { apply last_Some in Hlast. destruct Hlast as [l' ->].
        apply elem_of_app. right. apply list_elem_of_singleton. reflexivity. }
      specialize (Hfind tail Hin). lia. }
  exists c, chain, segment. split; [exact Hslot|]. split; [exact Hchain|].
  split; [exact Hfind|]. split; [exact (find_segment_Some _ _ _ Hfind)|].
  destruct (fill_missing_segment_pressures_total chain) as (chain' & Hfill & _).
  pose proof (find_segment_times chain' chain (sec e)
                (fill_missing_segment_pressures_times _ _ Hfill)) as Ht.
  rewrite Hfind in Ht.
  destruct (find_segment chain' (sec e)) as [segment'|] eqn:Hfind'; [|discriminate].
  exists chain', segment'. split; [exact Hfill|]. split; [exact Hfind'|].
  cbn in Ht. congruence.
Qed.

Lemma every_entry_has_segment_witness :
  exists st,
    build_segments sample_dive rebreather_profile = Some st /\
    forall (k : nat) e,
      rebreather_profile !! k = Some e ->
      exists (c : nat) chain segment,
        cylinder_slot (cylinderindex e) = Some c /\
        ss_track_pr st !! c = Some chain /\
        find_segment chain (sec e) = Some segment /\
        sec e <= pr_track.t_end segment /\
        exists chain' segment',
          fill_missing_segment_pressures chain = Some chain' /\
          find_segment chain' (sec e) = Some segment' /\
          times segment' = times segment.
Proof.
  apply (every_entry_has_segment sample_dive rebreather_profile).
  - apply valid_profile_dec. reflexivity.
  - apply sorted_profile_dec. reflexivity.
Defined.

Section ScanPressures.
Context `{Headers}.

Lemma elem_of_alter_tail (f : pr_track.t -> pr_track.t) chain s :
  s ∈ alter_tail f chain ->
  s ∈ chain \/ exists tail, last chain = Some tail /\ s = f tail.
Proof.
  destruct chain as [|tail chain _] using rev_ind; [intros Hs; left; exact Hs|].
  rewrite alter_tail_snoc, last_snoc, !elem_of_app, !list_elem_of_singleton.
  intros [Hs | ->]; [left; left; exact Hs|]. right. exists tail. auto.
Qed.

End ScanPressures.

(** X16: the scan invents no pressure.  On a profile of valid cylinder
    indices every segment of the chain of a cylinder starts at the time and
    at the reported pressure, 0 or not, of an entry on that cylinder, the one
    that opened it; and its end pressure is 0, for unknown, or the reading of
    an entry on that cylinder that is no earlier in the profile. *)
Theorem segment_pressures_reported `{Headers} (d : dive) (pi : plot_info) :
  valid_profile pi ->
  exists st,
    build_segments d pi = Some st /\
    forall (c : nat) chain segment,
      ss_track_pr st !! c = Some chain -> segment ∈ chain ->
      exists (k : nat) e,
        pi !! k = Some e /\ cylinderindex e = Z.of_nat c /\
        pr_track.start segment = SENSOR_PRESSURE e /\
        pr_track.t_start segment = sec e /\
        (pr_track.end_ segment = 0 \/
         exists (k' : nat) e',
           (k <= k')%nat /\ pi !! k' = Some e' /\ cylinderindex e' = Z.of_nat c /\
           SENSOR_PRESSURE e' <> 0 /\ pr_track.end_ segment = SENSOR_PRESSURE e').
Proof.
  intros Hvalid.
  destruct (build_segments_induction d pi
              (fun i _ table =>
                 forall (c : nat) chain segment,
                   table c = Some chain -> segment ∈ chain ->
                   exists (k : nat) e,
                     (k < i)%nat /\
                     pi !! k = Some e /\ cylinderindex e = Z.of_nat c /\
                     pr_track.start segment = SENSOR_PRESSURE e /\
                     pr_track.t_start segment = sec e /\
                     (pr_track.end_ segment = 0 \/
                      exists (k' : nat) e',
                        (k <= k' < i)%nat /\ pi !! k' = Some e' /\
                        cylinderindex e' = Z.of_nat c /\
                        SENSOR_PRESSURE e' <> 0 /\
                        pr_track.end_ segment = SENSOR_PRESSURE e'))
              Hvalid)
    as (st & Hb & _ & Hinv).
  - intros c chain segment Hc Hin. apply replicate_nil_lookup in Hc. subst chain.
    apply elem_of_nil in Hin. contradiction.
  - intros i e flag table table' He IH Hstep Hnone c chain' segment Hc' Hin.
    destruct (table c) as [chain|] eqn:Hc; [|rewrite (Hnone c Hc) in Hc'; discriminate].
    rewrite (Hstep c chain Hc) in Hc'. injection Hc' as <-.
    assert (Hold : forall s, s ∈ chain ->
               exists (k : nat) e0,
                 (k < S i)%nat /\
                 pi !! k = Some e0 /\ cylinderindex e0 = Z.of_nat c /\
                 pr_track.start s = SENSOR_PRESSURE e0 /\
                 pr_track.t_start s = sec e0 /\
                 (pr_track.end_ s = 0 \/
                  exists (k' : nat) e',
                    (k <= k' < S i)%nat /\ pi !! k' = Some e' /\
                    cylinderindex e' = Z.of_nat c /\
                    SENSOR_PRESSURE e' <> 0 /\
                    pr_track.end_ s = SENSOR_PRESSURE e')).
    { intros s Hs. destruct (IH c chain s Hc Hs) as (k & e0 & Hk & H1 & H2 & H3 & H4 & H5).
      exists k, e0. split; [lia|]. repeat (split; [assumption|]).
      destruct H5 as [H5|(k' & e' & Hk' & H5)]; [left; exact H5|].
      right. exists k', e'. split; [lia|exact H5]. }
    unfold chain_after in Hin.
    assert (Hclosed : forall chain1,
               chain1 = match entry_before pi i with
                        | Some prev =>
                            if Z.of_nat c =? cylinderindex prev
                            then alter_tail
                                   (close_segment (calc_pressure_time d prev e)
                                      (same_cylinder prev e
                                       && negb (SENSOR_PRESSURE e =? 0)) e) chain
                            else chain
                        | None => chain
                        end ->
               forall s, s ∈ chain1 ->
               exists (k : nat) e0,
                 (k < S i)%nat /\
                 pi !! k = Some e0 /\ cylinderindex e0 = Z.of_nat c /\
                 pr_track.start s = SENSOR_PRESSURE e0 /\
                 pr_track.t_start s = sec e0 /\
                 (pr_track.end_ s = 0 \/
                  exists (k' : nat) e',
                    (k <= k' < S i)%nat /\ pi !! k' = Some e' /\
                    cylinderindex e' = Z.of_nat c /\
                    SENSOR_PRESSURE e' <> 0 /\
                    pr_track.end_ s = SENSOR_PRESSURE e')).
    { intros chain1 -> s Hs.
      destruct (entry_before pi i) as [prev|]; [|apply Hold, Hs].
      destruct (Z.eqb_spec (Z.of_nat c) (cylinderindex prev)) as [Hcp|_];
        [|apply Hold, Hs].
      apply elem_of_alter_tail in Hs. destruct Hs as [Hs|(tail & Hlast & ->)];
        [apply Hold, Hs|].
      assert (Htail : tail ∈ chain).
      { apply last_Some in Hlast. destruct Hlast as [l' ->].
        apply elem_of_app. right. apply list_elem_of_singleton. reflexivity. }
      destruct (Hold tail Htail) as (k & e0 & Hk & H1 & H2 & H3 & H4 & H5).
      exists k, e0. split; [exact Hk|]. split; [exact H1|]. split; [exact H2|].
      unfold close_segment, same_cylinder.
      destruct (Z.eqb_spec (cylinderindex e) (cylinderindex prev)) as [Hsame|_];
        cbn [andb]; [|auto].
      destruct (Z.eqb_spec (SENSOR_PRESSURE e) 0) as [_|Hpress]; cbn [negb]; [auto|].
      split; [exact H3|]. split; [exact H4|]. right. exists i, e.
      split; [apply lookup_lt_Some in H1; lia|]. split; [exact He|].
      split; [congruence|]. split; [exact Hpress|reflexivity]. }
    destruct (opens_segmentb (entry_before pi i) e && (Z.of_nat c =? cylinderindex e))
      eqn:Hopen.
    + rewrite list_add_app in Hin. apply elem_of_app in Hin.
      destruct Hin as [Hin|Hin]; [apply (Hclosed _ eq_refl), Hin|].
      apply list_elem_of_singleton in Hin. subst segment.
      apply andb_true_iff in Hopen. destruct Hopen as [_ Hcyl]. apply Z.eqb_eq in Hcyl.
      exists i, e. split; [lia|]. split; [exact He|]. split; [congruence|].
      split; [reflexivity|]. split; [reflexivity|]. left. reflexivity.
    + apply (Hclosed _ eq_refl), Hin.
  - exists st. split; [exact Hb|]. intros c chain segment Hc Hin.
    destruct (Hinv c chain segment Hc Hin) as (k & e & _ & H1 & H2 & H3 & H4 & H5).
    exists k, e. repeat (split; [assumption|]).
    destruct H5 as [H5|(k' & e' & Hk' & H5)]; [left; exact H5|].
    right. exists k', e'. split; [lia|exact H5].
Qed.

Lemma segment_pressures_reported_witness :
  exists st,
    build_segments sample_dive rebreather_profile = Some st /\
    forall (c : nat) chain segment,
      ss_track_pr st !! c = Some chain -> segment ∈ chain ->
      exists (k : nat) e,
        rebreather_profile !! k = Some e /\ cylinderindex e = Z.of_nat c /\
        pr_track.start segment = SENSOR_PRESSURE e /\
        pr_track.t_start segment = sec e /\
        (pr_track.end_ segment = 0 \/
         exists (k' : nat) e',
           (k <= k')%nat /\ rebreather_profile !! k' = Some e' /\
           cylinderindex e' = Z.of_nat c /\
           SENSOR_PRESSURE e' <> 0 /\ pr_track.end_ segment = SENSOR_PRESSURE e').
Proof.
  apply (segment_pressures_reported sample_dive rebreather_profile).
  apply valid_profile_dec. reflexivity.
Defined.

Section ScanCharged.
Context `{Headers}.

Lemma wrap_add_wrap_l a b : CInt.wrap (CInt.wrap a + b) = CInt.wrap (a + b).
Proof.
  unfold CInt.wrap. f_equal.
  replace ((a + 2 ^ 31) mod 2 ^ 32 - 2 ^ 31 + b + 2 ^ 31)
    with ((a + 2 ^ 31) mod 2 ^ 32 + b) by ring.
  rewrite Zplus_mod_idemp_l. f_equal. ring.
Qed.

Lemma wrap_add_wrap_r a b : CInt.wrap (a + CInt.wrap b) = CInt.wrap (a + b).
Proof. rewrite Z.add_comm, wrap_add_wrap_l, Z.add_comm. reflexivity. Qed.

Lemma charged_snoc d (c : nat) (l : plot_info) b :
  charged d c (l ++ [b])
  = charged d c l
    + match last l with
      | Some a => if Z.of_nat c =? cylinderindex a then calc_pressure_time d a b else 0
      | None => 0
      end.
Proof.
  induction l as [|a l IH]; [reflexivity|].
  destruct l as [|a' l].
  - cbn. lia.
  - change (charged d c ((a :: a' :: l) ++ [b]))
      with ((if Z.of_nat c =? cylinderindex a then calc_pressure_time d a a' else 0)
            + charged d c ((a' :: l) ++ [b])).
    rewrite IH. rewrite last_cons_cons.
    change (charged d c (a :: a' :: l))
      with ((if Z.of_nat c =? cylinderindex a then calc_pressure_time d a a' else 0)
            + charged d c (a' :: l)).
    lia.
Qed.

Lemma last_take_entry_before (pi : plot_info) (i : nat) :
  (i <= length pi)%nat -> last (take i pi) = entry_before pi i.
Proof.
  intros Hi. rewrite last_lookup, length_take, Nat.min_l by exact Hi.
  destruct i as [|j]; [reflexivity|]. cbn [pred entry_before].
  apply lookup_take_lt. lia.
Qed.

Lemma pressure_time_close pt reading e s :
  pr_track.pressure_time (close_segment pt reading e s)
  = CInt.add (pr_track.pressure_time s) pt.
Proof. unfold close_segment. destruct reading; reflexivity. Qed.

Lemma run_pressure_time_snoc (l : list pr_track.t) s :
  run_pressure_time (l ++ [s]) = run_pressure_time l + pr_track.pressure_time s.
Proof. rewrite run_pressure_time_app. unfold run_pressure_time at 2. cbn. lia. Qed.

End ScanCharged.

(** X17: on a profile of valid cylinder indices the pressure-times of the
    segments of a chain add up, as [int]s, to the contributions of the
    intervals that start on the cylinder of the chain: every interval between
    two entries is charged once, to the cylinder in use at its start, and none
    is lost when a segment is closed and the next one opened.  Without
    overflow the two sums are equal. *)
Theorem pressure_time_charged `{Headers} (d : dive) (pi : plot_info) :
  valid_profile pi ->
  exists st,
    build_segments d pi = Some st /\
    forall (c : nat) chain,
      ss_track_pr st !! c = Some chain ->
      CInt.wrap (run_pressure_time chain) = CInt.wrap (charged d c pi) /\
      (CInt.in_range (run_pressure_time chain) -> CInt.in_range (charged d c pi) ->
       run_pressure_time chain = charged d c pi).
Proof.
  intros Hvalid.
  destruct (build_segments_induction d pi
              (fun i _ table =>
                 forall (c : nat) chain,
                   table c = Some chain ->
                   (forall (k : nat) e,
                       (k < i)%nat -> pi !! k = Some e ->
                       cylinderindex e = Z.of_nat c -> chain <> []) /\
                   CInt.wrap (run_pressure_time chain)
                   = CInt.wrap (charged d c (take i pi)))
              Hvalid)
    as (st & Hb & _ & Hinv).
  - intros c chain Hc. apply replicate_nil_lookup in Hc. subst chain.
    split; [intros k e Hk; lia|reflexivity].
  - intros i e flag table table' He IH Hstep Hnone c chain' Hc'.
    destruct (table c) as [chain|] eqn:Hc; [|rewrite (Hnone c Hc) in Hc'; discriminate].
    rewrite (Hstep c chain Hc) in Hc'. injection Hc' as <-.
    destruct (IH c chain Hc) as [Hused Hsum].
    rewrite (take_S_r _ _ _ He), charged_snoc, last_take_entry_before
      by (apply lookup_lt_Some in He; lia).
    destruct (chain_after_cases d (entry_before pi i) e c chain)
      as (chain1 & H1 & H2).
    assert (Hsum1 : CInt.wrap (run_pressure_time chain1)
                    = CInt.wrap (charged d c (take i pi)
                                 + match entry_before pi i with
                                   | Some a => if Z.of_nat c =? cylinderindex a
                                               then calc_pressure_time d a e else 0
                                   | None => 0
                                   end)).
    { destruct H1 as [[-> Hother]|(p & reading & Hp & Hcp & ->)].
      - destruct (entry_before pi i) as [a|]; [|rewrite Z.add_0_r; exact Hsum].
        destruct (Z.eqb_spec (Z.of_nat c) (cylinderindex a)) as [Hca|_];
          [exfalso; exact (Hother a eq_refl Hca)|].
        rewrite Z.add_0_r. exact Hsum.
      - rewrite Hp. rewrite Hcp, Z.eqb_refl.
        destruct i as [|j]; [discriminate|]. cbn in Hp.
        assert (Hne : chain <> []) by (apply (Hused j p); [lia|exact Hp|congruence]).
        destruct chain as [|tail chain _] using rev_ind; [contradiction|].
        rewrite run_pressure_time_snoc in Hsum.
        rewrite alter_tail_snoc, run_pressure_time_snoc, pressure_time_close.
        unfold CInt.add. rewrite wrap_add_wrap_r, Z.add_assoc.
        rewrite <- wrap_add_wrap_l, Hsum, wrap_add_wrap_l. reflexivity. }
    assert (Hne1 : chain <> [] -> chain1 <> []).
    { destruct H1 as [[-> _]|(p & reading & _ & _ & ->)]; [auto|].
      intros Hne Hnil. apply Hne. apply (f_equal length) in Hnil.
      rewrite length_alter_tail in Hnil. destruct chain; [reflexivity|discriminate]. }
    destruct H2 as [[-> Hno]|(-> & Hopen & Hcyl)].
    + split; [|exact Hsum1].
      intros k ek Hk Hek Hck. apply Hne1.
      destruct (Nat.eq_dec k i) as [->|Hne]; [|apply (Hused k ek); [lia|assumption..]].
      assert (ek = e) by congruence. subst ek.
      rewrite <- Hck, Z.eqb_refl, andb_true_r in Hno.
      unfold opens_segmentb in Hno.
      destruct (entry_before pi i) as [prev|] eqn:Hprev; [|discriminate].
      apply orb_false_elim in Hno. destruct Hno as [Hsame _].
      apply negb_false_iff in Hsame. unfold same_cylinder in Hsame.
      apply Z.eqb_eq in Hsame.
      destruct i as [|j]; [discriminate|]. cbn in Hprev.
      apply (Hused j prev); [lia|exact Hprev|congruence].
    + split; [intros _ _ _ _ _ Hnil; destruct chain1; discriminate|].
      rewrite run_pressure_time_snoc.
      cbn [pr_track_alloc pr_track.pressure_time]. rewrite Z.add_0_r. exact Hsum1.
  - exists st. split; [exact Hb|]. intros c chain Hc.
    destruct (Hinv c chain Hc) as [_ Hsum]. rewrite firstn_all in Hsum.
    split; [exact Hsum|]. intros Hr1 Hr2.
    rewrite !CIntFacts.wrap_small in Hsum by assumption. exact Hsum.
Qed.

Lemma pressure_time_charged_witness :
  exists st,
    build_segments sample_dive rebreather_profile = Some st /\
    forall (c : nat) chain,
      ss_track_pr st !! c = Some chain ->
      CInt.wrap (run_pressure_time chain)
      = CInt.wrap (charged sample_dive c rebreather_profile) /\
      (CInt.in_range (run_pressure_time chain) ->
       CInt.in_range (charged sample_dive c rebreather_profile) ->
       run_pressure_time chain = charged sample_dive c rebreather_profile).
Proof.
  apply (pressure_time_charged sample_dive rebreather_profile).
  apply valid_profile_dec. reflexivity.
Defined.

Section CarryForward.
Context `{Headers}.

Lemma carried_snoc flag (c : nat) cur (entries : plot_info) e :
  carried flag c cur (entries ++ [e])
  = if (Z.of_nat c =? cylinder_of flag e) && negb (tracked_pressure flag e =? 0)
    then tracked_pressure flag e else carried flag c cur entries.
Proof.
  revert cur. induction entries as [|a entries IH]; intros cur; [reflexivity|].
  cbn [app carried]. apply IH.
Qed.

(** What a round of the loop over the points does to the current
    pressures and, for an entry without segment, to the entry. *)
Lemma fill_entry_current (flag : bool) (i : nat) st st' :
  fill_entry flag i st = Some st' ->
  exists e (cyl : nat),
    fs_entry st !! i = Some e /\
    cylinder_slot (cylinder_of flag e) = Some cyl /\
    (forall c : nat, c <> cyl -> fs_cur_pr st' !! c = fs_cur_pr st !! c) /\
    (tracked_pressure flag e <> 0 ->
     fs_entry st' = fs_entry st /\
     fs_cur_pr st' = <[cyl := tracked_pressure flag e]> (fs_cur_pr st)) /\
    (tracked_pressure flag e = 0 -> fs_track_pr st !! cyl = Some [] ->
     exists cur,
       fs_cur_pr st !! cyl = Some cur /\ fs_cur_pr st' = fs_cur_pr st /\
       fs_entry st' = <[i := save flag SENSOR_PR cur e]> (fs_entry st)).
Proof.
  unfold fill_entry, cylinder_of. intros Hf.
  destruct (fs_entry st !! i) as [e|] eqn:He; [|discriminate].
  cbn [mbind option_bind] in Hf.
  destruct (cylinder_slot _) as [cyl|] eqn:Hcyl; [|discriminate].
  cbn [mbind option_bind] in Hf. exists e, cyl.
  split; [reflexivity|]. split; [exact Hcyl|].
  destruct (Z.eqb_spec (tracked_pressure flag e) 0) as [Hz|Hnz]; cbn [negb] in Hf.
  - destruct (fs_track_pr st !! cyl) as [chain|] eqn:Hchain; [|discriminate].
    cbn [mbind option_bind] in Hf.
    destruct (fs_cur_pr st !! cyl) as [cur|] eqn:Hcur; [|discriminate].
    cbn [mbind option_bind] in Hf.
    assert (Hcarry : st' = mk_fill_state (<[i := save flag SENSOR_PR cur e]> (fs_entry st))
                             (fs_track_pr st) (fs_cur_pr st) ->
                     (forall c : nat, c <> cyl -> fs_cur_pr st' !! c = fs_cur_pr st !! c) /\
                     (tracked_pressure flag e <> 0 ->
                      fs_entry st' = fs_entry st /\
                      fs_cur_pr st' = <[cyl := tracked_pressure flag e]> (fs_cur_pr st)) /\
                     (tracked_pressure flag e = 0 -> Some chain = Some [] ->
                      exists cur0,
                        Some cur = Some cur0 /\ fs_cur_pr st' = fs_cur_pr st /\
                        fs_entry st' = <[i := save flag SENSOR_PR cur0 e]> (fs_entry st))).
    { intros ->. cbn. split; [reflexivity|]. split; [intros Hc; contradiction|].
      intros _ _. exists cur. auto. }
    destruct (find_segment chain (sec e)) as [segment|] eqn:Hfind.
    + destruct (pr_track.pressure_time segment =? 0);
        [injection Hf as <-; apply Hcarry; reflexivity|].
      destruct (interpolated_pressure _ cur) as [cur'|]; [|discriminate].
      cbn [mbind option_bind] in Hf. injection Hf as <-. cbn.
      split; [intros c Hc; apply list_lookup_insert_ne; congruence|].
      split; [intros Hc; contradiction|].
      intros _ [= ->]. discriminate.
    + injection Hf as <-. apply Hcarry. reflexivity.
  - injection Hf as <-. cbn.
    split; [intros c Hc; apply list_lookup_insert_ne; congruence|].
    split; [intros _; auto|]. intros Hc. contradiction.
Qed.

End CarryForward.

Section CarriedOver.
Context `{Headers}.

Lemma cylinder_slot_nat (c cyl : nat) :
  cylinder_slot (Z.of_nat c) = Some cyl -> cyl = c.
Proof.
  intros Hslot. pose proof (cylinder_slot_of_nat _ _ c Hslot) as Hb.
  rewrite Z.eqb_refl in Hb. symmetry in Hb. apply bool_decide_eq_true in Hb.
  symmetry. exact Hb.
Qed.

(** The loop over the points on a cylinder without segments. *)
Lemma fill_entries_carried flag (pi : plot_info) (c : nat) st0 st :
  fs_entry st0 = pi ->
  fs_track_pr st0 !! c = Some [] ->
  fs_cur_pr st0 !! c = Some (-1) ->
  for_loop (length pi - 1) 1 (fill_entry flag) st0 = Some st ->
  forall (i : nat) e,
    pi !! S i = Some e -> cylinder_of flag e = Z.of_nat c ->
    tracked_pressure flag e = 0 ->
    exists e',
      fs_entry st !! S i = Some e' /\
      tracked_pair flag e'
      = (carried flag c (-1) (take i (drop 1 pi)), snd (tracked_pair flag e)).
Proof.
  intros He0 Ht0 Hc0 Hloop.
  apply (for_loop_preserves
           (fun (k : nat) s =>
              fs_track_pr s !! c = Some [] /\
              fs_cur_pr s !! c = Some (carried flag c (-1) (take (k - 1) (drop 1 pi))) /\
              (forall (j : nat), (k <= j)%nat -> fs_entry s !! j = pi !! j) /\
              (forall (i : nat) e,
                  (S i < k)%nat -> pi !! S i = Some e ->
                  cylinder_of flag e = Z.of_nat c -> tracked_pressure flag e = 0 ->
                  exists e',
                    fs_entry s !! S i = Some e' /\
                    tracked_pair flag e'
                    = (carried flag c (-1) (take i (drop 1 pi)),
                       snd (tracked_pair flag e))))) in Hloop.
  - destruct Hloop as (_ & _ & _ & Hdone). intros i e He Hcyl Hz.
    apply (Hdone i e); try assumption. apply lookup_lt_Some in He. lia.
  - split; [exact Ht0|]. split; [exact Hc0|]. split; [intros j _; rewrite He0; reflexivity|].
    intros i e Hi. lia.
  - clear Hloop st. intros k s s' [Hk1 Hk2] (Ht & Hc & Hrest & Hdone) Hf.
    destruct k as [|k0]; [lia|].
    destruct (fill_entry_frame flag (S k0) s s' Hf) as (e1 & e1' & He1 & Hent & _ & Htr & _).
    destruct (fill_entry_current flag (S k0) s s' Hf)
      as (e & cyl & He & Hslot & Hother & Hread & Hcarry).
    assert (Hpk : pi !! S k0 = Some e) by (rewrite <- Hrest by lia; exact He).
    assert (Htake : take (S k0) (drop 1 pi) = take k0 (drop 1 pi) ++ [e]).
    { apply take_S_r. rewrite lookup_drop. exact Hpk. }
    replace (S (S k0) - 1)%nat with (S k0) by lia.
    replace (S k0 - 1)%nat with k0 in Hc by lia.
    rewrite Htake, carried_snoc, (cylinder_slot_of_nat _ _ c Hslot).
    split; [rewrite Htr; exact Ht|].
    destruct (Z.eqb_spec (tracked_pressure flag e) 0) as [Hz|Hnz]; cbn [negb].
    + rewrite andb_false_r.
      assert (Hcur' : fs_cur_pr s' !! c
                      = Some (carried flag c (-1) (take k0 (drop 1 pi)))).
      { destruct (decide (c = cyl)) as [->|Hne].
        - destruct (Hcarry Hz Ht) as (cur & _ & -> & _). exact Hc.
        - rewrite (Hother c Hne). exact Hc. }
      split; [exact Hcur'|]. split.
      * intros j Hj. rewrite Hent, list_lookup_insert_ne by lia. apply Hrest. lia.
      * intros i e2 Hi He2 Hcyl2 Hz2. destruct (Nat.eq_dec i k0) as [->|Hne].
        -- assert (e2 = e) by congruence. subst e2.
           rewrite Hcyl2 in Hslot. apply cylinder_slot_nat in Hslot. subst cyl.
           destruct (Hcarry Hz Ht) as (cur & Hcur & _ & Hent').
           assert (cur = carried flag c (-1) (take k0 (drop 1 pi))) by congruence.
           subst cur. rewrite Hent'.
           rewrite list_lookup_insert_eq by (apply lookup_lt_Some in He; exact He).
           eexists. split; [reflexivity|].
           destruct (save_projections flag SENSOR_PR
                       (carried flag c (-1) (take k0 (drop 1 pi))) e)
             as (_ & _ & _ & _ & _ & ->). reflexivity.
        -- destruct (Hdone i e2 ltac:(lia) He2 Hcyl2 Hz2) as (e' & He' & Hp').
           exists e'. split; [|exact Hp'].
           rewrite Hent, list_lookup_insert_ne by lia. exact He'.
    + rewrite andb_true_r. destruct (Hread Hnz) as [Hsame Hcur'].
      split.
      * rewrite Hcur'. destruct (decide (c = cyl)) as [->|Hne].
        -- rewrite bool_decide_eq_true_2 by reflexivity.
           apply list_lookup_insert_eq. apply lookup_lt_Some in Hc. exact Hc.
        -- rewrite bool_decide_eq_false_2 by exact Hne.
           rewrite list_lookup_insert_ne by congruence. exact Hc.
      * split.
        -- intros j Hj. rewrite Hsame. apply Hrest. lia.
        -- intros i e2 Hi He2 Hcyl2 Hz2. destruct (Nat.eq_dec i k0) as [->|Hne].
           ++ assert (e2 = e) by congruence. subst e2. contradiction.
           ++ rewrite Hsame. apply (Hdone i e2); try assumption. lia.
Qed.

End CarriedOver.

(** X18: for a cylinder without segments the gap filler carries the last
    reading forward into the reported pressure.  After a pass that ends
    without error, an entry after the first that is on such a cylinder and has
    no reading holds, as its reported pressure, the reading of the last entry
    before it, the first entry of the profile left out, that is on the
    cylinder and has one; it holds -1 when there is none.  Its interpolated
    pressure is as it was. *)
Theorem carried_without_segments `{Headers} (d : dive) (pi : plot_info)
    (track_pr : list (list pr_track.t)) (diluent_flag : bool) (st : fill_state)
    (c : nat) :
  fill_missing_tank_pressures d pi track_pr diluent_flag = Some st ->
  (c < MAX_CYLINDERS)%nat ->
  track_pr !! c = Some [] ->
  forall (i : nat) e,
    pi !! S i = Some e -> cylinder_of diluent_flag e = Z.of_nat c ->
    tracked_pressure diluent_flag e = 0 ->
    exists e',
      fs_entry st !! S i = Some e' /\
      tracked_pair diluent_flag e'
      = (carried diluent_flag c (-1) (take i (drop 1 pi)),
         snd (tracked_pair diluent_flag e)).
Proof.
  unfold fill_missing_tank_pressures. intros Hfill Hc Hchain.
  destruct (for_loop MAX_CYLINDERS 0 fill_cylinder _) as [st0|] eqn:H0; [|discriminate].
  cbn [mbind option_bind] in Hfill.
  assert (He0 : fs_entry st0 = pi).
  { apply (for_loop_preserves (fun (_ : nat) s => fs_entry s = pi)) in H0;
      [exact H0 | reflexivity |].
    intros k s s' _ Hs Hf. rewrite (fill_cylinder_entry k s s' Hf). exact Hs. }
  destruct (fill_cylinders_spec _ _ _ _ H0) as (_ & _ & Hinv).
  specialize (Hinv c [] Hchain).
  destruct (Nat.ltb_spec c MAX_CYLINDERS) as [_|?]; [|lia].
  destruct Hinv as (chain' & Hfill' & Ht0 & Hc0).
  injection Hfill' as <-.
  specialize (Hc0 ltac:(rewrite length_replicate; exact Hc)).
  exact (fill_entries_carried diluent_flag pi c st0 st He0 Ht0 Hc0 Hfill).
Qed.

Lemma carried_without_segments_witness :
  exists st,
    fill_missing_tank_pressures sample_dive rebreather_profile (replicate 8 []) false
      = Some st /\
    forall (i : nat) e,
      rebreather_profile !! S i = Some e -> cylinder_of false e = Z.of_nat 0 ->
      tracked_pressure false e = 0 ->
      exists e',
        fs_entry st !! S i = Some e' /\
        tracked_pair false e'
        = (carried false 0 (-1) (take i (drop 1 rebreather_profile)),
           snd (tracked_pair false e)).
Proof.
  eexists. split; [vm_compute; reflexivity|].
  apply (carried_without_segments sample_dive rebreather_profile (replicate 8 []) false).
  - vm_compute. reflexivity.
  - cbn. lia.
  - reflexivity.
Defined.
